(** * Verification of the cheat-table script merge engine

    Shallow embedding of [merge.py] (the merge engine) and of the parts of
    the earlier stand-alone script [merge_script.py] that differ from it.

    Conventions of the embedding.
    - A Python [str] is a list of characters.  Characters are the code
      points 0..255 (Latin-1), carried by [ascii]; the whitespace class and
      the case folding below are Python's restricted to that range.
    - A compiled [re.Pattern] is a [regex] term run by a backtracking
      matcher with Python's priorities (first alternative first, greedy
      repetition).
    - An [ET.Element] is a node of an immutable tree with an identity; its
      only mutable attribute used by the program, [.text], lives in a store
      indexed by identities.
    - A raised exception is the left injection of a sum. *)

From Stdlib Require Import Ascii String DecimalString.
From Stdlib Require Import List Arith Bool Lia PeanoNat.
Import ListNotations.

#[local] Set Warnings "-register-all".

(** ** Python strings *)

Definition str := list ascii.

Definition lit (s : string) : str := list_ascii_of_string s.

Definition code (c : ascii) : nat := nat_of_ascii c.

Definition in_range (lo hi : nat) (c : ascii) : bool :=
  (lo <=? code c) && (code c <=? hi).

(** [str.isspace] on one character: TAB..CR, FS..US and space, NEL, NBSP. *)
Definition isspace (c : ascii) : bool :=
  in_range 9 13 c || in_range 28 32 c || (code c =? 133) || (code c =? 160).

Fixpoint lstrip (s : str) : str :=
  match s with
  | [] => []
  | c :: rest => if isspace c then lstrip rest else s
  end.

Definition rstrip (s : str) : str := rev (lstrip (rev s)).

Definition strip (s : str) : str := rstrip (lstrip s).

Fixpoint startswith (s p : str) : bool :=
  match p, s with
  | [], _ => true
  | _ :: _, [] => false
  | a :: p', b :: s' => Ascii.eqb a b && startswith s' p'
  end.

(** [s[a:b]] for non-negative indices (Python clamps out-of-range bounds). *)
Definition slice (s : str) (a b : nat) : str := firstn (b - a) (skipn a s).

(** [s[a:]] *)
Definition slice_from (s : str) (a : nat) : str := skipn a s.

(** [sep.join(parts)] *)
Fixpoint join (sep : str) (parts : list str) : str :=
  match parts with
  | [] => []
  | [p] => p
  | p :: rest => p ++ sep ++ join sep rest
  end.

(** [s.replace(old, new)] for a non-empty [old]: leftmost, non-overlapping
    occurrences.  [skip] counts the characters of an occurrence still to be
    passed over. *)
Fixpoint replace_from (old new s : str) (skip : nat) : str :=
  match s with
  | [] => []
  | c :: rest =>
      match skip with
      | S k => replace_from old new rest k
      | 0 =>
          if startswith s old
          then new ++ replace_from old new rest (length old - 1)
          else c :: replace_from old new rest 0
      end
  end.

Definition replace (s old new : str) : str := replace_from old new s 0.

(** [str(n)] for a non-negative integer. *)
Definition str_of_nat (n : nat) : str :=
  lit (NilEmpty.string_of_uint (Nat.to_uint n)).

(** [needle in s] *)
Fixpoint contains (needle s : str) : bool :=
  match s with
  | [] => startswith [] needle
  | _ :: rest => startswith s needle || contains needle rest
  end.

(** ** Regular expressions ([re]) *)

Inductive regex : Type :=
| Eps
| Chr (p : ascii -> bool)
| Seq (a b : regex)
| Alt (a b : regex)
| Plus (a : regex)
| Opt (a : regex).

(** Backtracking matcher in continuation-passing style: [rmatch r s k]
    matches [r] at the head of [s] and hands the rest to [k]; the first
    success in priority order wins.  The result is the text left after the
    whole match. *)
Fixpoint rmatch (r : regex) (s : str) (k : str -> option str) {struct r}
  : option str :=
  match r with
  | Eps => k s
  | Chr p =>
      match s with
      | c :: s' => if p c then k s' else None
      | [] => None
      end
  | Seq a b => rmatch a s (fun s' => rmatch b s' k)
  | Alt a b =>
      match rmatch a s k with
      | Some e => Some e
      | None => rmatch b s k
      end
  | Opt a =>
      match rmatch a s k with
      | Some e => Some e
      | None => k s
      end
  | Plus a =>
      (fix more (n : nat) (s0 : str) {struct n} : option str :=
         rmatch a s0 (fun s1 =>
           match n with
           | 0 => k s1
           | S n' =>
               if length s1 <? length s0
               then match more n' s1 with
                    | Some e => Some e
                    | None => k s1
                    end
               else k s1
           end)) (length s) s
  end.

(** Length of the match of [r] at the head of [s], if any. *)
Definition match_len (r : regex) (s : str) : option nat :=
  match rmatch r s (fun rest => Some rest) with
  | Some rest => Some (length s - length rest)
  | None => None
  end.

(** Length of the first match of [r] at the head of [s], in priority
    order, that is not empty: what the engine looks for right after an
    empty match at the same position. *)
Definition match_len_advancing (r : regex) (s : str) : option nat :=
  match rmatch r s (fun rest => if length rest <? length s
                                then Some rest else None) with
  | Some rest => Some (length s - length rest)
  | None => None
  end.

(** [pattern.finditer(text)] as the list of spans [(m.start(), m.end())].
    [pos] is the index of the head of [s] in the text, [skip] the number of
    characters of the last match still to be passed over.  The search goes
    on where the last match ended; after an empty match the next match at
    that position must advance. *)
Fixpoint finditer_from (r : regex) (s : str) (pos skip : nat)
  : list (nat * nat) :=
  match s with
  | [] =>
      match match_len r [] with
      | Some _ => [(pos, pos)]
      | None => []
      end
  | _ :: rest =>
      match skip with
      | S k => finditer_from r rest (S pos) k
      | 0 =>
          match match_len r s with
          | Some (S n) => (pos, pos + S n) :: finditer_from r rest (S pos) n
          | Some 0 =>
              (pos, pos)
              :: match match_len_advancing r s with
                 | Some (S n) => (pos, pos + S n) :: finditer_from r rest (S pos) n
                 | _ => finditer_from r rest (S pos) 0
                 end
          | None => finditer_from r rest (S pos) 0
          end
      end
  end.

Definition finditer (r : regex) (text : str) : list (nat * nat) :=
  finditer_from r text 0 0.

(** ASCII case folding; on code points 0..255 this is what [re.IGNORECASE]
    does to a pattern made of ASCII characters. *)
Definition to_lower (c : ascii) : ascii :=
  if in_range 65 90 c then ascii_of_nat (code c + 32) else c.

Definition ci_eqb (a b : ascii) : bool := Ascii.eqb (to_lower a) (to_lower b).

(** A literal word matched case-insensitively. *)
Fixpoint lit_ci (w : str) : regex :=
  match w with
  | [] => Eps
  | c :: w' => Seq (Chr (ci_eqb c)) (lit_ci w')
  end.

Definition is_char (a : ascii) (c : ascii) : bool := Ascii.eqb a c.

(** The double quote, the backslash and the line feed. *)
Definition dquote : ascii := ascii_of_nat 34.
Definition backslash : ascii := ascii_of_nat 92.
Definition nl : ascii := ascii_of_nat 10.

(** Character class [A-Fa-f0-9]. *)
Definition is_hex (c : ascii) : bool :=
  in_range 65 70 c || in_range 97 102 c || in_range 48 57 c.

(** Character class: anything but a double quote. *)
Definition not_dquote (c : ascii) : bool := negb (is_char dquote c).

(** Character class: anything but a double quote, a plus, whitespace, a
    square bracket, a parenthesis, a brace or a comma. *)
Definition name_char (c : ascii) : bool :=
  negb (is_char dquote c || is_char "+" c || isspace c
        || is_char "[" c || is_char "]" c || is_char "(" c || is_char ")" c
        || is_char "{" c || is_char "}" c || is_char "," c).

(** The word [.exe], case-insensitively. *)
Definition dot_exe : regex := lit_ci (lit ".exe").

(** ** [merge.py] *)

(** [DYN_PATTERN]: a quoted or an unquoted module name ending in [.exe],
    a plus, hexadecimal digits and an optional colon; [re.IGNORECASE]. *)
Definition DYN_PATTERN : regex :=
  Seq (Alt
         (Seq (Chr (is_char dquote))
            (Seq (Plus (Chr not_dquote))
               (Seq dot_exe (Seq (Chr (is_char dquote)) (Chr (is_char "+"))))))
         (Seq (Plus (Chr name_char)) (Seq dot_exe (Chr (is_char "+")))))
      (Seq (Plus (Chr is_hex)) (Opt (Chr (is_char ":")))).

(** The placeholder written into templates. *)
Definition PCT_S : str := lit "%s".

(** The loop of [process_section] over the matches: [last_index], the
    pieces collected in [result] and the tokens collected in [dyn_list]. *)
Fixpoint process_loop (text : str) (spans : list (nat * nat))
    (last_index : nat) (result dyn_list : list str)
  : list str * list str :=
  match spans with
  | [] => (result ++ [slice_from text last_index], dyn_list)
  | (start, stop) :: more =>
      process_loop text more stop
        (result ++ [slice text last_index start; PCT_S])
        (dyn_list ++ [slice text start stop])
  end.

Definition process_section (text : str) (pattern : regex)
  : str * list str :=
  let '(result, dyn_list) := process_loop text (finditer pattern text) 0 [] [] in
  (join [] result, dyn_list).

(** Exceptions: the [ValueError] the engine raises itself, and any other
    [Exception]. *)
Inductive exn : Type :=
| ValueError (msg : str)
| OtherException (msg : str).

Definition result (A : Type) : Type := (exn + A)%type.

(** Backslashes are doubled first, then every double quote gets a
    backslash in front. *)
Definition safe_val (val : str) : str :=
  replace (replace val [backslash] [backslash; backslash])
          [dquote] [backslash; dquote].

(** The lines of [build_version_table], numbered by [enumerate] from [i]. *)
Fixpoint version_lines (i : nat) (values : list str) : list str :=
  match values with
  | [] => []
  | val :: rest =>
      (lit "        dynamic" ++ str_of_nat i ++ lit " = "
         ++ [dquote] ++ safe_val val ++ [dquote])
      :: version_lines (S i) rest
  end.

Definition build_version_table (values : list str) : str :=
  lit "{" ++ [nl] ++ join (lit "," ++ [nl]) (version_lines 1 values)
    ++ [nl] ++ lit "    }".

Definition mismatch_message (name : str) (n1 n2 : nat) : str :=
  lit "Dynamic value count mismatch for " ++ name ++ lit ": "
    ++ str_of_nat n1 ++ lit " vs " ++ str_of_nat n2.

Definition build_lua_config_table (name : str) (dyn_list_v1 dyn_list_v2 : list str)
  : result (str * nat) :=
  if negb (length dyn_list_v1 =? length dyn_list_v2)
  then inl (ValueError
              (mismatch_message name (length dyn_list_v1) (length dyn_list_v2)))
  else
    let n := length dyn_list_v1 in
    let table :=
      lit "local " ++ name ++ lit " = {" ++ [nl]
        ++ lit "    [1] = " ++ build_version_table dyn_list_v1 ++ lit "," ++ [nl]
        ++ lit "    [2] = " ++ build_version_table dyn_list_v2 ++ [nl]
        ++ lit "}" in
    inr (table, n).

(** [re.search]: the leftmost match, as a span. *)
Fixpoint re_search_from (r : regex) (s : str) (pos : nat) : option (nat * nat) :=
  match match_len r s with
  | Some n => Some (pos, pos + n)
  | None =>
      match s with
      | [] => None
      | _ :: rest => re_search_from r rest (S pos)
      end
  end.

(** [re.split(r, text, maxsplit=1)] for a pattern [r] that is one capture
    group and matches no empty string: the text before the first match,
    the match, the text after. *)
Definition re_split_1 (r : regex) (text : str) : list str :=
  match re_search_from r text 0 with
  | None => [text]
  | Some (a, b) => [slice text 0 a; slice text a b; slice_from text b]
  end.

Definition ENABLE_HEADER : str := lit "[ENABLE]".
Definition DISABLE_HEADER : str := lit "[DISABLE]".

(** The pattern of the split, with [re.IGNORECASE]. *)
Definition DISABLE_PATTERN : regex := lit_ci DISABLE_HEADER.

(** The first two statements of [split_asm_sections]: leading whitespace
    and a leading activation header are removed. *)
Definition strip_header (text : str) : str :=
  let text := lstrip text in
  if startswith text ENABLE_HEADER
  then lstrip (slice_from text (length ENABLE_HEADER))
  else text.

Definition split_asm_sections (text : str) : str * str :=
  let text := strip_header text in
  let parts := re_split_1 DISABLE_PATTERN text in
  let enable := strip (nth 0 parts []) in
  let disable :=
    if 1 <? length parts
    then (if 2 <? length parts then strip (nth 2 parts []) else [])
    else [] in
  (enable, disable).

Definition TEMP_PLACEHOLDER : str := lit "__TEMP_PLACEHOLDER__".

(** [template_escaped] of [build_script_part]. *)
Definition template_escaped (template : str) : str :=
  replace (replace (replace template PCT_S TEMP_PLACEHOLDER)
                   (lit "%") (lit "%%"))
          TEMP_PLACEHOLDER PCT_S.

(** [", ".join(addr_prefix.dynamic1 ... addr_prefix.dynamicN)] *)
Definition dyn_keys (addr_prefix : str) (dyn_count : nat) : str :=
  join (lit ", ")
       (map (fun i => addr_prefix ++ lit ".dynamic" ++ str_of_nat i)
            (seq 1 dyn_count)).

Definition LONG_OPEN : str := lit "[==[".
Definition LONG_CLOSE : str := lit "]==]".

Definition build_script_part (template : str) (dyn_count : nat)
    (script_var addr_prefix : str) : str :=
  if 0 <? dyn_count
  then lit "local " ++ script_var ++ lit " = string.format("
         ++ LONG_OPEN ++ [nl] ++ template_escaped template ++ [nl] ++ LONG_CLOSE
         ++ lit ", " ++ dyn_keys addr_prefix dyn_count ++ lit ")"
  else lit "local " ++ script_var ++ lit " = "
         ++ LONG_OPEN ++ [nl] ++ template ++ [nl] ++ LONG_CLOSE.

Definition section_mismatch (section : str) (n1 n2 : nat) : str :=
  lit "Mismatch in dynamic values count in " ++ section ++ lit " sections ("
    ++ str_of_nat n1 ++ lit " vs " ++ str_of_nat n2 ++ lit ")".

Definition ln (s : string) : str := lit s ++ [nl].

Definition disable_logic (disable_template1 : str) (num_disable : nat) : str :=
  if negb (length disable_template1 =? 0) || (0 <? num_disable)
  then [nl]
    ++ ln "if disableInfo and disableInfo.info then"
    ++ ln "    autoAssemble(disableScript, disableInfo.info)"
    ++ ln "else"
    ++ ln "    autoAssemble(disableScript) -- Might do nothing if script is empty, that's okay"
    ++ ln "end"
    ++ lit "disableInfo = nil"
  else lit "disableInfo = nil -- No disable script".

(** The line that guards the address row, for [what] addresses. *)
Definition version_guard (row what : str) : str :=
  lit "if not " ++ row ++ lit " then error(" ++ [dquote]
    ++ lit "Could not determine " ++ what
    ++ lit "addresses for the current game version (" ++ [dquote]
    ++ lit " .. tostring(version) .. " ++ [dquote] ++ lit ")" ++ [dquote]
    ++ lit ") end" ++ [nl].

Definition merged_script (lua_config_enable enable_part lua_config_disable
                          disable_part logic : str) : str :=
  ln "[ENABLE]"
  ++ ln "{$lua}"
  ++ ln "if syntaxcheck then return end"
  ++ [nl]
  ++ lua_config_enable ++ [nl]
  ++ [nl]
  ++ ln "local addrE = config_enable[version]"
  ++ version_guard (lit "addrE") []
  ++ [nl]
  ++ enable_part ++ [nl]
  ++ [nl]
  ++ ln "local success, info = autoAssemble(enableScript)"
  ++ ln "if not success then"
  ++ lit "    error(" ++ [dquote] ++ lit "Assembly failed: " ++ [dquote]
  ++ ln " .. tostring(info))"
  ++ ln "end"
  ++ [nl]
  ++ ln "-- Save disable info for use in the disable section"
  ++ ln "disableInfo = { info = info } -- Store assembly info (registers, allocations)"
  ++ ln "{$asm}"
  ++ [nl]
  ++ ln "[DISABLE]"
  ++ ln "{$lua}"
  ++ ln "if syntaxcheck then return end"
  ++ [nl]
  ++ lua_config_disable ++ [nl]
  ++ [nl]
  ++ ln "local addrD = config_disable[version]"
  ++ version_guard (lit "addrD") (lit "disable ")
  ++ [nl]
  ++ disable_part ++ [nl]
  ++ [nl]
  ++ logic ++ [nl]
  ++ ln "{$asm}".

Definition merge_asm_scripts (asm1 asm2 : str) : result str :=
  let '(enable1, disable1) := split_asm_sections asm1 in
  let '(enable2, disable2) := split_asm_sections asm2 in
  let '(enable_template1, dyn_enable_v1) := process_section enable1 DYN_PATTERN in
  let '(enable_template2, dyn_enable_v2) := process_section enable2 DYN_PATTERN in
  let '(disable_template1, dyn_disable_v1) := process_section disable1 DYN_PATTERN in
  let '(disable_template2, dyn_disable_v2) := process_section disable2 DYN_PATTERN in
  if negb (length dyn_enable_v1 =? length dyn_enable_v2)
  then inl (ValueError (section_mismatch (lit "ENABLE")
                          (length dyn_enable_v1) (length dyn_enable_v2)))
  else if negb (length dyn_disable_v1 =? length dyn_disable_v2)
  then inl (ValueError (section_mismatch (lit "DISABLE")
                          (length dyn_disable_v1) (length dyn_disable_v2)))
  else
    match build_lua_config_table (lit "config_enable") dyn_enable_v1 dyn_enable_v2 with
    | inl e => inl e
    | inr (lua_config_enable, num_enable) =>
    match build_lua_config_table (lit "config_disable") dyn_disable_v1 dyn_disable_v2 with
    | inl e => inl e
    | inr (lua_config_disable, num_disable) =>
        let enable_part :=
          build_script_part enable_template1 num_enable
            (lit "enableScript") (lit "addrE") in
        let disable_part :=
          build_script_part disable_template1 num_disable
            (lit "disableScript") (lit "addrD") in
        inr (merged_script lua_config_enable enable_part lua_config_disable
               disable_part (disable_logic disable_template1 num_disable))
    end
    end.

(** ** Documents and the store of element texts *)

Inductive Element : Type :=
| Elem (ident : nat) (tag : str) (children : list Element).

Definition ident (e : Element) : nat := let '(Elem i _ _) := e in i.
Definition tag (e : Element) : str := let '(Elem _ t _) := e in t.
Definition children (e : Element) : list Element := let '(Elem _ _ cs) := e in cs.

(** The [.text] attribute of every element object: [None] is Python's
    [None]. *)
Definition store : Type := nat -> option str.

Definition set_text (st : store) (i : nat) (v : option str) : store :=
  fun j => if j =? i then v else st j.

Fixpoint str_eqb (a b : str) : bool :=
  match a, b with
  | [], [] => true
  | x :: a', y :: b' => Ascii.eqb x y && str_eqb a' b'
  | _, _ => false
  end.

(** All elements in document order, the root first. *)
Fixpoint iter_all (e : Element) : list Element :=
  match e with
  | Elem _ _ cs => e :: flat_map iter_all cs
  end.

(** [tree.iter(tag)] *)
Definition iter (t : str) (root : Element) : list Element :=
  filter (fun e => str_eqb (tag e) t) (iter_all root).

(** [elem.find(tag)]: the first direct child with that tag. *)
Definition find_child (t : str) (e : Element) : option Element :=
  find (fun c => str_eqb (tag c) t) (children e).

(** A Python [dict] with string keys, in insertion order. *)
Definition dict (V : Type) : Type := list (str * V).

Fixpoint dict_get {V : Type} (d : dict V) (k : str) : option V :=
  match d with
  | [] => None
  | (k', v) :: rest => if str_eqb k' k then Some v else dict_get rest k
  end.

Fixpoint dict_set {V : Type} (d : dict V) (k : str) (v : V) : dict V :=
  match d with
  | [] => [(k, v)]
  | (k', v') :: rest =>
      if str_eqb k' k then (k', v) :: rest else (k', v') :: dict_set rest k v
  end.

Definition dict_mem {V : Type} (d : dict V) (k : str) : bool :=
  match dict_get d k with
  | Some _ => true
  | None => false
  end.

Definition ID_TAG : str := lit "ID".
Definition ASM_TAG : str := lit "AssemblerScript".
Definition CHEAT_TAG : str := lit "CheatEntry".

(** The body of the loop of [get_assembler_scripts] for one [CheatEntry]. *)
Definition scan_cheat (acc : dict nat * store) (cheat : Element)
  : dict nat * store :=
  let '(mapping, st) := acc in
  match find_child ID_TAG cheat with
  | Some id_elem =>
      match st (ident id_elem) with
      | Some (c :: t) =>
          let cheat_id := strip (c :: t) in
          match find_child ASM_TAG cheat with
          | Some asm_elem =>
              match st (ident asm_elem) with
              | Some _ => (dict_set mapping cheat_id (ident asm_elem), st)
              | None =>
                  (dict_set mapping cheat_id (ident asm_elem),
                   set_text st (ident asm_elem) (Some []))
              end
          | None => acc
          end
      | _ => acc
      end
  | None => acc
  end.

(** The mapping from identifiers to [AssemblerScript] elements, and the
    store as the function leaves it. *)
Definition get_assembler_scripts (tree : Element) (st : store)
  : dict nat * store :=
  fold_left scan_cheat (iter CHEAT_TAG tree) (@pair (dict nat) store [] st).

(** ** The entry matcher *)

(** The calls to [logging] made per entry. *)
Inductive log_record : Type :=
| LogMerged (cheat_id : str)
| LogError (cheat_id : str) (e : exn)
| LogSkipped (cheat_id : str).

Record tally : Type := mkTally {
  texts : store;
  merged_count : nat;
  skipped_count : nat;
  error_count : nat;
  log : list log_record
}.

(** The text of an element, or the empty string when it has none. *)
Definition text_or_empty (t : option str) : str :=
  match t with
  | Some s => s
  | None => []
  end.

Section EntryMatcher.

(** The merge of two script texts; [merge_cheat_entries] calls
    [merge_asm_scripts]. *)
Variable merge : str -> str -> result str.

(** The body of the loop of [merge_cheat_entries] for one item of
    [asm_map1]. *)
Definition merge_entry (asm_map2 : dict nat) (acc : tally) (item : str * nat)
  : tally :=
  let '(cheat_id, asm_elem1) := item in
  match dict_get asm_map2 cheat_id with
  | Some asm_elem2 =>
      let asm_text1 := text_or_empty (texts acc asm_elem1) in
      let asm_text2 := text_or_empty (texts acc asm_elem2) in
      match merge asm_text1 asm_text2 with
      | inr merged_text =>
          mkTally (set_text (texts acc) asm_elem1 (Some merged_text))
                  (merged_count acc + 1) (skipped_count acc) (error_count acc)
                  (log acc ++ [LogMerged cheat_id])
      | inl e =>
          mkTally (texts acc)
                  (merged_count acc) (skipped_count acc) (error_count acc + 1)
                  (log acc ++ [LogError cheat_id e])
      end
  | None =>
      mkTally (texts acc)
              (merged_count acc) (skipped_count acc + 1) (error_count acc)
              (log acc ++ [LogSkipped cheat_id])
  end.

Definition merge_entries (asm_map1 asm_map2 : dict nat) (start : tally) : tally :=
  fold_left (merge_entry asm_map2) asm_map1 start.

End EntryMatcher.

(** [merge_cheat_entries]: the state after the loop.  The Python function
    returns [merged_count] and logs the three counters. *)
Definition merge_cheat_entries (asm_map1 asm_map2 : dict nat) (st : store) : tally :=
  merge_entries merge_asm_scripts asm_map1 asm_map2 (mkTally st 0 0 0 []).

(** The two calls of [main] that build the maps, one document after the
    other, before any entry is merged. *)
Definition build_maps (tree1 tree2 : Element) (st : store)
  : dict nat * dict nat * store :=
  let '(asm_map1, st1) := get_assembler_scripts tree1 st in
  let '(asm_map2, st2) := get_assembler_scripts tree2 st1 in
  (asm_map1, asm_map2, st2).

(** ** [merge_script.py], the earlier stand-alone script

    [process_section] is the same function there; what differs is below. *)

Module MergeScript.

(** [dyn_pattern]: the module name is fixed. *)
Definition dyn_pattern : regex :=
  Seq (Alt
         (lit_ci ([dquote] ++ lit "AssassinsCreedIIGame.exe" ++ [dquote] ++ lit "+"))
         (lit_ci (lit "AssassinsCreedIIGame.exe+")))
      (Seq (Plus (Chr is_hex)) (Opt (Chr (is_char ":")))).

(** Only double quotes are escaped. *)
Definition safe_val (val : str) : str :=
  replace val [dquote] [backslash; dquote].

Fixpoint version_lines (i : nat) (values : list str) : list str :=
  match values with
  | [] => []
  | val :: rest =>
      (lit "        dynamic" ++ str_of_nat i ++ lit " = "
         ++ [dquote] ++ safe_val val ++ [dquote])
      :: version_lines (S i) rest
  end.

Definition build_version_table (values : list str) : str :=
  lit "{" ++ [nl] ++ join (lit "," ++ [nl]) (version_lines 1 values)
    ++ [nl] ++ lit "    }".

Definition build_lua_config_table (name : str) (dyn_list_v1 dyn_list_v2 : list str)
  : result (str * nat) :=
  if negb (length dyn_list_v1 =? length dyn_list_v2)
  then inl (ValueError
              (mismatch_message name (length dyn_list_v1) (length dyn_list_v2)))
  else
    let n := length dyn_list_v1 in
    let table :=
      lit "local " ++ name ++ lit " = {" ++ [nl]
        ++ lit "    [1] = " ++ build_version_table dyn_list_v1 ++ lit "," ++ [nl]
        ++ lit "    [2] = " ++ build_version_table dyn_list_v2 ++ [nl]
        ++ lit "}" in
    inr (table, n).

(** [s.split(sep)] for a non-empty [sep]; [cur] is the piece being read. *)
Fixpoint split_from (sep s : str) (skip : nat) (cur : str) : list str :=
  match s with
  | [] => [cur]
  | c :: rest =>
      match skip with
      | S k => split_from sep rest k cur
      | 0 =>
          if startswith s sep
          then cur :: split_from sep rest (length sep - 1) []
          else split_from sep rest 0 (cur ++ [c])
      end
  end.

Definition split (s sep : str) : list str := split_from sep s 0 [].

Definition split_asm_sections (text : str) : str * str :=
  let text := strip_header text in
  let parts := split text DISABLE_HEADER in
  let enable := strip (nth 0 parts []) in
  let disable := if 1 <? length parts then strip (nth 1 parts []) else [] in
  (enable, disable).

(** The fragment that binds [script_var]; the template is never escaped. *)
Definition script_part (template : str) (num : nat) (script_var addr_prefix : str)
  : str :=
  if 0 <? num
  then lit "local " ++ script_var ++ lit " = string.format("
         ++ LONG_OPEN ++ [nl] ++ template ++ [nl] ++ LONG_CLOSE
         ++ lit ", " ++ dyn_keys addr_prefix num ++ lit ")"
  else lit "local " ++ script_var ++ lit " = "
         ++ LONG_OPEN ++ [nl] ++ template ++ [nl] ++ LONG_CLOSE.

Definition merged_script (lua_config_enable enable_part lua_config_disable
                          disable_part : str) : str :=
  ln "[ENABLE]"
  ++ ln "{$lua}"
  ++ ln "if syntaxcheck then return end"
  ++ [nl]
  ++ lua_config_enable ++ [nl]
  ++ [nl]
  ++ ln "local addrE = config_enable[version]"
  ++ [nl]
  ++ enable_part ++ [nl]
  ++ [nl]
  ++ ln "local success, info = autoAssemble(enableScript)"
  ++ ln "if not success then"
  ++ lit "    error(" ++ [dquote] ++ lit "Assembly failed: " ++ [dquote]
  ++ ln " .. tostring(info))"
  ++ ln "end"
  ++ [nl]
  ++ ln "-- Save disable info for use in the disable section"
  ++ ln "disableInfo = { info = info }"
  ++ ln "{$asm}"
  ++ [nl]
  ++ ln "[DISABLE]"
  ++ ln "{$lua}"
  ++ ln "if syntaxcheck then return end"
  ++ [nl]
  ++ lua_config_disable ++ [nl]
  ++ [nl]
  ++ ln "local addrD = config_disable[version]"
  ++ [nl]
  ++ disable_part ++ [nl]
  ++ [nl]
  ++ ln "if disableInfo then"
  ++ ln "    autoAssemble(disableScript, disableInfo.info)"
  ++ ln "else"
  ++ ln "    autoAssemble(disableScript)"
  ++ ln "end"
  ++ ln "disableInfo = nil"
  ++ lit "{$asm}".

Definition merge_asm_scripts (asm1 asm2 : str) : result str :=
  let '(enable1, disable1) := split_asm_sections asm1 in
  let '(enable2, disable2) := split_asm_sections asm2 in
  let '(enable_template1, dyn_enable_v1) := process_section enable1 dyn_pattern in
  let '(enable_template2, dyn_enable_v2) := process_section enable2 dyn_pattern in
  let '(disable_template1, dyn_disable_v1) := process_section disable1 dyn_pattern in
  let '(disable_template2, dyn_disable_v2) := process_section disable2 dyn_pattern in
  if negb (length dyn_enable_v1 =? length dyn_enable_v2)
  then inl (ValueError (lit "Mismatch in dynamic values count in ENABLE sections"))
  else if negb (length dyn_disable_v1 =? length dyn_disable_v2)
  then inl (ValueError (lit "Mismatch in dynamic values count in DISABLE sections"))
  else
    match build_lua_config_table (lit "config_enable") dyn_enable_v1 dyn_enable_v2 with
    | inl e => inl e
    | inr (lua_config_enable, num_enable) =>
    match build_lua_config_table (lit "config_disable") dyn_disable_v1 dyn_disable_v2 with
    | inl e => inl e
    | inr (lua_config_disable, num_disable) =>
        inr (merged_script lua_config_enable
               (script_part enable_template1 num_enable
                  (lit "enableScript") (lit "addrE"))
               lua_config_disable
               (script_part disable_template1 num_disable
                  (lit "disableScript") (lit "addrD")))
    end
    end.



(** The body of the loop of [get_assembler_scripts] for one [CheatEntry]:
    the text of the [ID] child is stripped without a test, which raises
    [AttributeError] when there is none; no text is ever assigned. *)
Definition scan_cheat (st : store) (acc : result (dict nat)) (cheat : Element)
  : result (dict nat) :=
  match acc with
  | inl e => inl e
  | inr mapping =>
      match find_child ID_TAG cheat with
      | Some id_elem =>
          match st (ident id_elem) with
          | None =>
              inl (OtherException
                     (lit "'NoneType' object has no attribute 'strip'"))
          | Some t =>
              let cheat_id := strip t in
              match find_child ASM_TAG cheat with
              | Some asm_elem =>
                  match st (ident asm_elem) with
                  | Some _ => inr (dict_set mapping cheat_id (ident asm_elem))
                  | None => inr mapping
                  end
              | None => inr mapping
              end
          end
      | None => inr mapping
      end
  end.

Definition get_assembler_scripts (tree : Element) (st : store)
  : result (dict nat) :=
  fold_left (scan_cheat st) (iter CHEAT_TAG tree) (@inr exn (dict nat) []).


End MergeScript.

(** ** The Lua runtime, for the two constructs the fragments use

    After the Lua reference manual: a long-bracket literal of level 2, and
    [string.format] restricted to the conversions [%s] and [%%]. *)

Module Lua.

Definition cr : ascii := ascii_of_nat 13.

Definition is_newline (c : ascii) : bool := is_char nl c || is_char cr c.

(** The body of a long literal up to the first closing bracket: its value
    and the source left after the bracket.  Every line break (LF, CR, or a
    pair of the two) is read as one LF; [pending] is the line-break
    character just read, whose partner is dropped. *)
Fixpoint long_body (s : str) (pending : option ascii) : option (str * str) :=
  match s with
  | [] => None
  | c :: rest =>
      let partner :=
        match pending with
        | Some p => is_newline c && negb (Ascii.eqb c p)
        | None => false
        end in
      if partner then long_body rest None
      else if startswith s LONG_CLOSE
      then Some ([], skipn (length LONG_CLOSE) s)
      else
        let '(out, next) := if is_newline c then (nl, Some c) else (c, None) in
        match long_body rest next with
        | Some (v, after) => Some (out :: v, after)
        | None => None
        end
  end.

(** A long literal at the head of [src]; a line break right after the
    opening bracket is not part of the value. *)
Definition long_string (src : str) : option (str * str) :=
  if startswith src LONG_OPEN
  then match skipn (length LONG_OPEN) src with
       | [] => None
       | c :: rest =>
           if is_newline c then long_body rest (Some c)
           else long_body (c :: rest) None
       end
  else None.

(** [Formatted]: the result; [NoValue]: the call raises because a [%s] has
    no argument left; [OtherConversion]: the format string holds a percent
    sign that starts a conversion other than [%s] and [%%], which this
    model does not follow further. *)
Inductive format_result : Type :=
| Formatted (s : str)
| NoValue
| OtherConversion.

Definition emit (pre : str) (r : format_result) : format_result :=
  match r with
  | Formatted s => Formatted (pre ++ s)
  | other => other
  end.

(** [string.format(fmt, args...)]; [pct] tells that the character before
    the head of [fmt] was an unpaired percent sign.  A [%s] without an
    argument left raises (no value). *)
Fixpoint format_from (fmt : str) (args : list str) (pct : bool) : format_result :=
  match fmt with
  | [] => if pct then OtherConversion else Formatted []
  | c :: rest =>
      if pct then
        if is_char "%" c then emit [c] (format_from rest args false)
        else if is_char "s" c then
          match args with
          | a :: args' => emit a (format_from rest args' false)
          | [] => NoValue
          end
        else OtherConversion
      else if is_char "%" c then format_from rest args true
      else emit [c] (format_from rest args false)
  end.

Definition format (fmt : str) (args : list str) : format_result :=
  format_from fmt args false.

(** The number of [%s] conversions of a format string. *)
Fixpoint slots_from (fmt : str) (pct : bool) : nat :=
  match fmt with
  | [] => 0
  | c :: rest =>
      if pct then (if is_char "s" c then 1 else 0) + slots_from rest false
      else slots_from rest (is_char "%" c)
  end.

Definition slots (fmt : str) : nat := slots_from fmt false.

(** The body of a literal between double quotes, read from after the
    opening quote up to the closing one: its value and the source left.
    Of the escapes only backslash-backslash and backslash-quote are
    followed; a line break inside the literal is an error. *)
Fixpoint short_body (s : str) (escaped : bool) : option (str * str) :=
  match s with
  | [] => None
  | c :: rest =>
      if escaped then
        if is_char backslash c || is_char dquote c
        then match short_body rest false with
             | Some (v, after) => Some (c :: v, after)
             | None => None
             end
        else None
      else if is_char dquote c then Some ([], rest)
      else if is_char backslash c then short_body rest true
      else if is_newline c then None
      else match short_body rest false with
           | Some (v, after) => Some (c :: v, after)
           | None => None
           end
  end.

End Lua.

(** ** Re-substitution of tokens into a template *)

(** The tokens are put back, in order, at the successive placeholders of
    the template; [None] when placeholders and tokens do not pair up. *)
Fixpoint resubstitute_from (template : str) (tokens : list str) (skip : bool)
  : option str :=
  match template with
  | [] => match tokens with [] => Some [] | _ :: _ => None end
  | c :: rest =>
      if skip then resubstitute_from rest tokens false
      else if startswith template PCT_S
      then match tokens with
           | [] => None
           | t :: tokens' =>
               option_map (app t) (resubstitute_from rest tokens' true)
           end
      else option_map (cons c) (resubstitute_from rest tokens false)
  end.

Definition resubstitute (template : str) (tokens : list str) : option str :=
  resubstitute_from template tokens false.

(** ** Vocabulary of the statements *)

(** The pieces of text that [process_section] copies between the matches. *)
Fixpoint chunks_loop (text : str) (spans : list (nat * nat)) (last_index : nat)
  : list str :=
  match spans with
  | [] => [slice_from text last_index]
  | (start, stop) :: more => slice text last_index start :: chunks_loop text more stop
  end.

Definition literal_chunks (text : str) (pattern : regex) : list str :=
  chunks_loop text (finditer pattern text) 0.

(** The tokens cut out of [text] at [spans]. *)
Definition span_tokens (text : str) (spans : list (nat * nat)) : list str :=
  map (fun '(a, b) => slice text a b) spans.

(** Pieces with a placeholder between each two. *)
Fixpoint weave (chunks : list str) : list str :=
  match chunks with
  | [] => []
  | [c] => [c]
  | c :: more => c :: PCT_S :: weave more
  end.

(** The number of placeholders that re-substitution meets in a template. *)
Fixpoint count_placeholders (template : str) (skip : bool) : nat :=
  match template with
  | [] => 0
  | _ :: rest =>
      if skip then count_placeholders rest false
      else if startswith template PCT_S
      then S (count_placeholders rest true)
      else count_placeholders rest false
  end.

(** A piece of text free of the placeholder. *)
Definition placeholder_free (chunk : str) : bool := negb (contains PCT_S chunk).

(** Spans in increasing order, one after the other, between [lo] and [hi]. *)
Fixpoint spans_ok (lo hi : nat) (spans : list (nat * nat)) : Prop :=
  match spans with
  | [] => lo <= hi
  | (a, b) :: more => lo <= a /\ a <= b /\ spans_ok b hi more
  end.

(** [s] begins with [w], letter case aside. *)
Fixpoint ci_startswith (s w : str) : bool :=
  match w, s with
  | [], _ => true
  | _ :: _, [] => false
  | a :: w', b :: s' => ci_eqb a b && ci_startswith s' w'
  end.

(** The deactivation header occurs in [s] at index [i], in any letter case. *)
Definition header_at (s : str) (i : nat) : Prop :=
  i <= length s /\ ci_startswith (skipn i s) DISABLE_HEADER = true.

(** [Some i]: the first occurrence of the header is at [i]; [None]: there
    is none. *)
Definition first_header (s : str) (o : option nat) : Prop :=
  match o with
  | Some i => header_at s i /\ forall j, j < i -> ~ header_at s j
  | None => forall j, ~ header_at s j
  end.

(** A token with its backslashes and double quotes escaped. *)
Definition lua_escape (v : str) : str :=
  flat_map (fun c =>
              if is_char backslash c then [backslash; backslash]
              else if is_char dquote c then [backslash; dquote]
              else [c]) v.

(** The table line of key [k] holding token [tok]. *)
Definition table_entry (k : nat) (tok : str) : str :=
  lit "        dynamic" ++ str_of_nat k ++ lit " = "
    ++ [dquote] ++ lua_escape tok ++ [dquote].

(** A row of the table made of the lines [entries]. *)
Definition table_row (entries : list str) : str :=
  lit "{" ++ [nl] ++ join (lit "," ++ [nl]) entries ++ [nl] ++ lit "    }".

(** The value that evaluating [local script_var = <long literal>] binds to
    [script_var], when the fragment is exactly of that shape. *)
Definition eval_local_literal (script_var fragment : str) : option str :=
  let head := lit "local " ++ script_var ++ lit " = " in
  if startswith fragment head
  then match Lua.long_string (skipn (length head) fragment) with
       | Some (v, []) => Some v
       | _ => None
       end
  else None.

(** The identifier and the script element that [get_assembler_scripts]
    records for a [CheatEntry], if it records one. *)
Definition entry_key (st : store) (cheat : Element) : option (str * nat) :=
  match find_child ID_TAG cheat with
  | Some id_elem =>
      match st (ident id_elem) with
      | Some (c :: t) =>
          match find_child ASM_TAG cheat with
          | Some asm_elem => Some (strip (c :: t), ident asm_elem)
          | None => None
          end
      | _ => None
      end
  | None => None
  end.

(** The map after the entry of [cheat], if any, has been recorded. *)
Definition record_entry (st : store) (m : dict nat) (cheat : Element) : dict nat :=
  match entry_key st cheat with
  | Some (k, v) => dict_set m k v
  | None => m
  end.

(** [st'] is [st] with some absent texts set to the empty string. *)
Definition grows (st st' : store) : Prop :=
  forall i, st' i = st i \/ (st i = None /\ st' i = Some []).

(** No carriage return in [s]. *)
Definition no_cr (s : str) : bool := forallb (fun c => negb (is_char Lua.cr c)) s.

Definition record_id (r : log_record) : str :=
  match r with
  | LogMerged i => i
  | LogError i _ => i
  | LogSkipped i => i
  end.

Definition is_merged (r : log_record) : bool :=
  match r with LogMerged _ => true | _ => false end.
Definition is_error (r : log_record) : bool :=
  match r with LogError _ _ => true | _ => false end.
Definition is_skipped (r : log_record) : bool :=
  match r with LogSkipped _ => true | _ => false end.

Definition count_if (p : log_record -> bool) (l : list log_record) : nat :=
  length (filter p l).

(** ** Vocabulary of the further statements *)

(** The tokens and the template of the two sections of a script, as
    [merge_asm_scripts] computes them. *)
Definition enable_tokens (asm : str) : list str :=
  snd (process_section (fst (split_asm_sections asm)) DYN_PATTERN).
Definition disable_tokens (asm : str) : list str :=
  snd (process_section (snd (split_asm_sections asm)) DYN_PATTERN).
Definition enable_template (asm : str) : str :=
  fst (process_section (fst (split_asm_sections asm)) DYN_PATTERN).
Definition disable_template (asm : str) : str :=
  fst (process_section (snd (split_asm_sections asm)) DYN_PATTERN).

(** The test of [main] that decides whether the merged document is
    written: [merged_count > 0 or len(asm_map1) > 0]. *)
Definition writes_output (merged : nat) (asm_map1 : dict nat) : bool :=
  (0 <? merged) || (0 <? length asm_map1).


(** The words of a pattern: what a match of [r] can be, whatever the
    priorities of the search. *)
Inductive matches : regex -> str -> Prop :=
| matches_eps : matches Eps []
| matches_chr (p : ascii -> bool) (c : ascii) :
    p c = true -> matches (Chr p) [c]
| matches_seq (a b : regex) (u v : str) :
    matches a u -> matches b v -> matches (Seq a b) (u ++ v)
| matches_alt_l (a b : regex) (u : str) : matches a u -> matches (Alt a b) u
| matches_alt_r (a b : regex) (u : str) : matches b u -> matches (Alt a b) u
| matches_plus_one (a : regex) (u : str) : matches a u -> matches (Plus a) u
| matches_plus_more (a : regex) (u v : str) :
    matches a u -> matches (Plus a) v -> matches (Plus a) (u ++ v)
| matches_opt_none (a : regex) : matches (Opt a) []
| matches_opt_some (a : regex) (u : str) : matches a u -> matches (Opt a) u.

(** The shape of an address: a module name that ends in [.exe] in any
    letter case, bare or between double quotes, a plus sign, hexadecimal
    digits and perhaps a colon. *)
Definition address_token (w : str) : Prop :=
  exists name ext hex colon,
    name <> []
    /\ length ext = 4 /\ ci_startswith ext (lit ".exe") = true
    /\ hex <> [] /\ forallb is_hex hex = true
    /\ (colon = [] \/ colon = lit ":")
    /\ ((forallb name_char name = true
         /\ w = name ++ ext ++ lit "+" ++ hex ++ colon)
        \/ (forallb not_dquote name = true
            /\ w = [dquote] ++ name ++ ext ++ [dquote] ++ lit "+" ++ hex ++ colon)).


(** The marker of [build_script_part] without its last two underscores. *)
Definition MARKER_STEM : str := lit "__TEMP_PLACEHOLDER".

(** A piece of text that does not hold the stem of the marker. *)
Definition marker_free (chunk : str) : bool := negb (contains MARKER_STEM chunk).

(** A text with each percent sign doubled. *)
Definition pct_escape (s : str) : str :=
  flat_map (fun c => if Ascii.eqb "%" c then lit "%%" else [c]) s.


(** The part of [main] between the parsing and the writing: the two maps
    are built, then the entries are merged. *)
Definition main_merge (tree1 tree2 : Element) (st : store) : tally :=
  let '(asm_map1, asm_map2, st2) := build_maps tree1 tree2 st in
  merge_cheat_entries asm_map1 asm_map2 st2.


(** ** Vocabulary for [merge_script.py] and for the Lua fragments *)



(** No line break in [tok]. *)
Definition no_line_break (tok : str) : bool :=
  forallb (fun c => negb (Lua.is_newline c)) tok.

(** A token with its double quotes escaped, and nothing else. *)
Definition quote_escape (v : str) : str :=
  flat_map (fun c => if is_char dquote c then [backslash; dquote] else [c]) v.

(** The table line of key [k] holding token [tok] in [merge_script.py]. *)
Definition quote_entry (k : nat) (tok : str) : str :=
  lit "        dynamic" ++ str_of_nat k ++ lit " = "
    ++ [dquote] ++ quote_escape tok ++ [dquote].

(** The value that Lua reads from the table line [entry] of key [k]: the
    literal between double quotes that follows the key, when the line is
    exactly the key and one such literal. *)
Definition read_table_entry (k : nat) (entry : str) : option str :=
  let head := lit "        dynamic" ++ str_of_nat k ++ lit " = " ++ [dquote] in
  if startswith entry head
  then match Lua.short_body (skipn (length head) entry) false with
       | Some (v, []) => Some v
       | _ => None
       end
  else None.

(** Neither a backslash nor a line break. *)
Definition tame (c : ascii) : bool :=
  negb (is_char backslash c) && negb (Lua.is_newline c).

(** A piece of text that does not hold the closing bracket of the long
    literal. *)
Definition close_free (chunk : str) : bool := negb (contains LONG_CLOSE chunk).

(** What evaluating [local script_var = string.format(<long literal>,
    addr_prefix.dynamic1, ..., addr_prefix.dynamicN)] does when the fields
    [dynamic1] to [dynamicN] of the table [addr_prefix] hold the strings
    [row]: the outcome of the formatting call, when the fragment is exactly
    of that shape. *)
Definition eval_local_format (script_var addr_prefix fragment : str)
    (row : list str) : option Lua.format_result :=
  let head := lit "local " ++ script_var ++ lit " = string.format(" in
  if startswith fragment head
  then match Lua.long_string (skipn (length head) fragment) with
       | Some (fmt, rest) =>
           if str_eqb rest (lit ", " ++ dyn_keys addr_prefix (length row) ++ lit ")")
           then Some (Lua.format fmt row)
           else None
       | None => None
       end
  else None.


(** * Properties *)

#[local] Arguments Ascii.eqb : simpl never.

(** ** Strings *)

Lemma str_eqb_eq (a b : str) : str_eqb a b = true <-> a = b.
Proof.
  revert b; induction a as [|x a IH]; intros [|y b]; simpl;
    try (split; [discriminate | discriminate]); try tauto.
  rewrite andb_true_iff, Ascii.eqb_eq, IH.
  split; [intros [-> ->]; reflexivity | intros H; inversion H; auto].
Qed.

Lemma str_eqb_refl (a : str) : str_eqb a a = true.
Proof. apply str_eqb_eq; reflexivity. Qed.

Lemma startswith_nil (s : str) : startswith s [] = true.
Proof. destruct s; reflexivity. Qed.

Lemma startswith_length (p : str) :
  forall s, startswith s p = true -> length p <= length s.
Proof.
  induction p as [|a p IH]; intros [|b s] H; simpl in *; try lia; try discriminate.
  apply andb_true_iff in H. destruct H as [_ H]. apply IH in H. lia.
Qed.

(** ** The config table builder *)

(** C2. [build_lua_config_table] raises exactly when the two token lists
    differ in length; the error then carries the name and both counts; on
    equal lengths it returns a table together with the length of the first
    list.  No other outcome exists. *)
Theorem build_lua_config_table_fails_iff_mismatch :
  forall (name : str) (tokens_v1 tokens_v2 : list str),
    ((exists e, build_lua_config_table name tokens_v1 tokens_v2 = inl e)
       <-> length tokens_v1 <> length tokens_v2)
    /\ (length tokens_v1 <> length tokens_v2 ->
        build_lua_config_table name tokens_v1 tokens_v2
        = inl (ValueError
                 (lit "Dynamic value count mismatch for " ++ name ++ lit ": "
                    ++ str_of_nat (length tokens_v1) ++ lit " vs "
                    ++ str_of_nat (length tokens_v2))))
    /\ (length tokens_v1 = length tokens_v2 ->
        exists table,
          build_lua_config_table name tokens_v1 tokens_v2
          = inr (table, length tokens_v1)).
Proof.
  intros name l1 l2. unfold build_lua_config_table, mismatch_message.
  destruct (Nat.eqb_spec (length l1) (length l2)) as [E|N]; simpl.
  - split; [|split].
    + split; [intros [e H]; discriminate | intros H; contradiction].
    + intros H; contradiction.
    + intros _. eexists; reflexivity.
  - split; [|split].
    + split; [intros _; exact N | intros _; eexists; reflexivity].
    + intros _; reflexivity.
    + intros H; contradiction.
Qed.

(** ** The entry matcher *)

Section EntryMatcherFacts.

Variable merge : str -> str -> result str.
Variable asm_map2 : dict nat.

(** What one turn of the loop does to the counters and to the log. *)
Lemma merge_entry_log (acc : tally) (item : str * nat) :
  exists r,
    log (merge_entry merge asm_map2 acc item) = log acc ++ [r]
    /\ record_id r = fst item
    /\ merged_count (merge_entry merge asm_map2 acc item)
       = merged_count acc + (if is_merged r then 1 else 0)
    /\ error_count (merge_entry merge asm_map2 acc item)
       = error_count acc + (if is_error r then 1 else 0)
    /\ skipped_count (merge_entry merge asm_map2 acc item)
       = skipped_count acc + (if is_skipped r then 1 else 0)
    /\ (is_skipped r = true <-> dict_get asm_map2 (fst item) = None).
Proof.
  destruct item as [cheat_id e1]; unfold merge_entry; simpl.
  destruct (dict_get asm_map2 cheat_id) as [e2|].
  - destruct (merge _ _) as [e|txt];
      [exists (LogError cheat_id e) | exists (LogMerged cheat_id)]; simpl;
      repeat split; try lia; try reflexivity; try discriminate.
  - exists (LogSkipped cheat_id); simpl; repeat split; try lia; reflexivity.
Qed.

(** A turn whose merge raises leaves every text as it was and adds one
    error. *)
Lemma merge_entry_failure (acc : tally) (cheat_id : str) (e1 e2 : nat) (err : exn) :
  dict_get asm_map2 cheat_id = Some e2 ->
  merge (text_or_empty (texts acc e1)) (text_or_empty (texts acc e2)) = inl err ->
  merge_entry merge asm_map2 acc (cheat_id, e1)
  = mkTally (texts acc) (merged_count acc) (skipped_count acc)
            (error_count acc + 1) (log acc ++ [LogError cheat_id err]).
Proof.
  intros H2 Hm. unfold merge_entry. rewrite H2, Hm. reflexivity.
Qed.

(** A turn writes at most the text of its own element. *)
Lemma merge_entry_frame (acc : tally) (item : str * nat) (i : nat) :
  i <> snd item -> texts (merge_entry merge asm_map2 acc item) i = texts acc i.
Proof.
  destruct item as [cheat_id e1]; simpl; intros Hi. unfold merge_entry.
  destruct (dict_get asm_map2 cheat_id) as [e2|]; [|reflexivity].
  destruct (merge _ _) as [e|txt]; [reflexivity|]. simpl. unfold set_text.
  destruct (Nat.eqb_spec i e1); [contradiction | reflexivity].
Qed.

Lemma merge_entries_frame (items : dict nat) (acc : tally) (i : nat) :
  ~ In i (map snd items) ->
  texts (merge_entries merge items asm_map2 acc) i = texts acc i.
Proof.
  unfold merge_entries. revert acc.
  induction items as [|item items IH]; intros acc Hi; simpl; [reflexivity|].
  rewrite IH by (intros H; apply Hi; right; exact H).
  apply merge_entry_frame. intros ->. apply Hi. left; reflexivity.
Qed.

Lemma merge_entries_app (l1 l2 : dict nat) (acc : tally) :
  merge_entries merge (l1 ++ l2) asm_map2 acc
  = merge_entries merge l2 asm_map2 (merge_entries merge l1 asm_map2 acc).
Proof. unfold merge_entries. apply fold_left_app. Qed.

(** The loop as a whole: one log record per item, in order, and counters
    that count the records of each kind. *)
Lemma merge_entries_log (items : dict nat) (acc : tally) :
  exists rs,
    log (merge_entries merge items asm_map2 acc) = log acc ++ rs
    /\ map record_id rs = map fst items
    /\ merged_count (merge_entries merge items asm_map2 acc)
       = merged_count acc + count_if is_merged rs
    /\ error_count (merge_entries merge items asm_map2 acc)
       = error_count acc + count_if is_error rs
    /\ skipped_count (merge_entries merge items asm_map2 acc)
       = skipped_count acc + count_if is_skipped rs
    /\ (forall r, In r rs ->
          (is_skipped r = true <-> dict_get asm_map2 (record_id r) = None)).
Proof.
  unfold merge_entries. revert acc.
  induction items as [|item items IH]; intros acc; simpl.
  - exists []. rewrite app_nil_r. unfold count_if; simpl.
    repeat split; try lia; try contradiction.
  - destruct (merge_entry_log acc item) as (r & Hl & Hid & Hm & He & Hs & Hk).
    destruct (IH (merge_entry merge asm_map2 acc item))
      as (rs & Hl' & Hid' & Hm' & He' & Hs' & Hk').
    exists (r :: rs). rewrite Hl', Hl, <- app_assoc. simpl.
    rewrite Hid, Hid', Hm', He', Hs', Hm, He, Hs.
    unfold count_if; simpl.
    repeat split; try reflexivity.
    + destruct (is_merged r); simpl; lia.
    + destruct (is_error r); simpl; lia.
    + destruct (is_skipped r); simpl; lia.
    + destruct H as [<-|H]; [rewrite Hid; apply Hk | apply Hk'; exact H].
    + destruct H as [<-|H]; [rewrite Hid; apply Hk | apply Hk'; exact H].
Qed.

Lemma count_kinds (rs : list log_record) :
  count_if is_merged rs + count_if is_skipped rs + count_if is_error rs
  = length rs.
Proof.
  unfold count_if. induction rs as [|[i|i e|i] rs IH]; simpl; lia.
Qed.

End EntryMatcherFacts.

(** C3. Whatever the merge of an entry does (return a text or raise any
    exception), the matcher runs to the end of the first map: it logs one
    record per identifier of the first map, in order, and no other; the
    three counters add up to the size of the first map; an entry is skipped
    exactly when its identifier is missing from the second map; and no
    element outside the first map is written.  [merge_cheat_entries] is
    the instance at [merge_asm_scripts]. *)
Theorem merge_cheat_entries_counts :
  forall (merge : str -> str -> result str) (M1 M2 : dict nat) (st : store),
    let t := merge_entries merge M1 M2 (mkTally st 0 0 0 []) in
    merged_count t + skipped_count t + error_count t = length M1
    /\ map record_id (log t) = map fst M1
    /\ merged_count t = count_if is_merged (log t)
    /\ skipped_count t = count_if is_skipped (log t)
    /\ error_count t = count_if is_error (log t)
    /\ (forall r, In r (log t) ->
          (is_skipped r = true <-> dict_get M2 (record_id r) = None))
    /\ (forall i, ~ In i (map snd M1) -> texts t i = st i)
    /\ merge_cheat_entries M1 M2 st
       = merge_entries merge_asm_scripts M1 M2 (mkTally st 0 0 0 []).
Proof.
  intros merge M1 M2 st t.
  destruct (merge_entries_log merge M2 M1 (mkTally st 0 0 0 []))
    as (rs & Hl & Hid & Hm & He & Hs & Hk).
  simpl in Hl, Hm, He, Hs. subst t.
  rewrite Hl, Hm, He, Hs, Hid.
  repeat split; try reflexivity.
  - rewrite count_kinds, <- (length_map record_id), Hid, length_map. reflexivity.
  - apply Hk; assumption.
  - apply Hk; assumption.
  - intros i Hi. apply (merge_entries_frame merge M2 M1 (mkTally st 0 0 0 []) i Hi).
Qed.

(** The run over two documents with distinct elements: an entry whose
    merge raises ends with the text it had at the start, and its error is
    logged and counted. *)
Lemma merge_entries_failure (merge : str -> str -> result str)
    (M1 M2 : dict nat) (st : store) (cheat_id : str) (e1 e2 : nat) (err : exn) :
  NoDup (map snd M1) ->
  (forall k v, dict_get M2 k = Some v -> ~ In v (map snd M1)) ->
  In (cheat_id, e1) M1 ->
  dict_get M2 cheat_id = Some e2 ->
  merge (text_or_empty (st e1)) (text_or_empty (st e2)) = inl err ->
  texts (merge_entries merge M1 M2 (mkTally st 0 0 0 [])) e1 = st e1
  /\ In (LogError cheat_id err)
        (log (merge_entries merge M1 M2 (mkTally st 0 0 0 [])))
  /\ 0 < error_count (merge_entries merge M1 M2 (mkTally st 0 0 0 [])).
Proof.
  intros Hnd Hsep Hin H2 Hm.
  destruct (in_split _ _ Hin) as (l1 & l2 & ->).
  rewrite map_app in Hnd; simpl in Hnd.
  assert (Hn1 : ~ In e1 (map snd l1)).
  { intros H. apply NoDup_remove_2 in Hnd. apply Hnd.
    apply in_or_app; left; exact H. }
  assert (Hn2 : ~ In e1 (map snd l2)).
  { intros H. apply NoDup_remove_2 in Hnd. apply Hnd.
    apply in_or_app; right; exact H. }
  assert (Hn3 : ~ In e2 (map snd l1)).
  { intros H. apply (Hsep _ _ H2). rewrite map_app. apply in_or_app; left; exact H. }
  rewrite merge_entries_app.
  set (a1 := merge_entries merge l1 M2 (mkTally st 0 0 0 [])).
  assert (T1 : texts a1 e1 = st e1)
    by (apply (merge_entries_frame merge M2 l1 (mkTally st 0 0 0 []) e1 Hn1)).
  assert (T2 : texts a1 e2 = st e2)
    by (apply (merge_entries_frame merge M2 l1 (mkTally st 0 0 0 []) e2 Hn3)).
  change (merge_entries merge ((cheat_id, e1) :: l2) M2 a1)
    with (merge_entries merge l2 M2 (merge_entry merge M2 a1 (cheat_id, e1))).
  rewrite (merge_entry_failure merge M2 a1 cheat_id e1 e2 err H2)
    by (rewrite T1, T2; exact Hm).
  set (a2 := mkTally _ _ _ _ _).
  destruct (merge_entries_log merge M2 l2 a2) as (rs & Hl & _ & _ & He & _).
  split; [|split].
  - rewrite (merge_entries_frame merge M2 l2 a2 e1 Hn2). exact T1.
  - rewrite Hl. apply in_or_app; left. subst a2; simpl.
    apply in_or_app; right; left; reflexivity.
  - rewrite He. subst a2; simpl. lia.
Qed.

(** C4. For an identifier found in both maps, whatever the merge raises:
    the turn of the loop for that entry leaves every text as it was, logs
    the error and adds one to the error counter, the other counters
    unchanged; a text is written only in a turn whose merge returns.  Over
    the whole run on two documents with distinct elements, the entry ends
    with the text it had at the start. *)
Theorem failed_merge_leaves_entry_unchanged :
  forall (merge : str -> str -> result str) (M1 M2 : dict nat)
         (cheat_id : str) (e1 e2 : nat) (err : exn),
    In (cheat_id, e1) M1 ->
    dict_get M2 cheat_id = Some e2 ->
    (forall acc : tally,
        merge (text_or_empty (texts acc e1)) (text_or_empty (texts acc e2)) = inl err ->
        merge_entry merge M2 acc (cheat_id, e1)
        = mkTally (texts acc) (merged_count acc) (skipped_count acc)
                  (error_count acc + 1) (log acc ++ [LogError cheat_id err]))
    /\ (forall (acc : tally) (item : str * nat),
          texts (merge_entry merge M2 acc item) <> texts acc ->
          exists e txt,
            dict_get M2 (fst item) = Some e
            /\ merge (text_or_empty (texts acc (snd item)))
                     (text_or_empty (texts acc e)) = inr txt)
    /\ (forall st : store,
          NoDup (map snd M1) ->
          (forall k v, dict_get M2 k = Some v -> ~ In v (map snd M1)) ->
          merge (text_or_empty (st e1)) (text_or_empty (st e2)) = inl err ->
          texts (merge_entries merge M1 M2 (mkTally st 0 0 0 [])) e1 = st e1
          /\ In (LogError cheat_id err)
                (log (merge_entries merge M1 M2 (mkTally st 0 0 0 [])))
          /\ 0 < error_count (merge_entries merge M1 M2 (mkTally st 0 0 0 []))).
Proof.
  intros merge M1 M2 cheat_id e1 e2 err Hin H2. split; [|split].
  - intros acc Hm. apply (merge_entry_failure merge M2 acc cheat_id e1 e2 err H2 Hm).
  - intros acc [k e] Hne. unfold merge_entry in Hne. simpl.
    destruct (dict_get M2 k) as [e'|]; [|exfalso; apply Hne; reflexivity].
    destruct (merge _ _) as [x|txt] eqn:Em; [exfalso; apply Hne; reflexivity|].
    exists e', txt. split; [reflexivity | exact Em].
  - intros st Hnd Hsep Hm.
    apply (merge_entries_failure merge M1 M2 st cheat_id e1 e2 err Hnd Hsep Hin H2 Hm).
Qed.

(** ** The dynamic-token extractor *)

Lemma match_len_le (r : regex) (s : str) (n : nat) :
  match_len r s = Some n -> n <= length s.
Proof.
  unfold match_len. destruct (rmatch r s _); intros H; inversion H; lia.
Qed.

Lemma match_len_advancing_le (r : regex) (s : str) (n : nat) :
  match_len_advancing r s = Some n -> n <= length s.
Proof.
  unfold match_len_advancing. destruct (rmatch r s _); intros H; inversion H; lia.
Qed.

Lemma spans_ok_weaken (lo lo' hi : nat) (spans : list (nat * nat)) :
  lo' <= lo -> spans_ok lo hi spans -> spans_ok lo' hi spans.
Proof.
  destruct spans as [|[a b] more]; simpl; intros; [lia | intuition lia].
Qed.

(** The spans of [finditer] come in order, do not overlap and stay inside
    the text. *)
Lemma finditer_from_ok (r : regex) (s : str) :
  forall pos skip, skip <= length s ->
    spans_ok (pos + skip) (pos + length s) (finditer_from r s pos skip).
Proof.
  induction s as [|c rest IH]; intros pos skip Hs.
  - simpl in *. destruct (match_len r []); simpl; lia.
  - assert (Hnext : forall k, k <= length rest ->
              spans_ok (pos + S k) (pos + length (c :: rest))
                       (finditer_from r rest (S pos) k)).
    { intros k Hk. cbn [length].
      replace (pos + S k) with (S pos + k) by lia.
      replace (pos + S (length rest)) with (S pos + length rest) by lia.
      apply IH; exact Hk. }
    assert (Hstep : spans_ok (pos + 0) (pos + length (c :: rest))
                             (finditer_from r rest (S pos) 0)).
    { apply spans_ok_weaken with (lo := pos + 1); [lia|]. apply Hnext. lia. }
    cbn [finditer_from]. destruct skip as [|k].
    + destruct (match_len r (c :: rest)) as [[|n]|] eqn:E.
      * cbn [spans_ok]. split; [lia|]. split; [lia|].
        destruct (match_len_advancing r (c :: rest)) as [[|n]|] eqn:E'.
        -- rewrite <- (Nat.add_0_r pos) at 1. exact Hstep.
        -- apply match_len_advancing_le in E'. cbn [length] in E'.
           cbn [spans_ok]. split; [lia|]. split; [lia|]. apply Hnext. lia.
        -- rewrite <- (Nat.add_0_r pos) at 1. exact Hstep.
      * apply match_len_le in E. cbn [length] in E.
        cbn [spans_ok]. split; [lia|]. split; [lia|]. apply Hnext. lia.
      * exact Hstep.
    + apply Hnext. cbn [length] in Hs. lia.
Qed.

Lemma finditer_ok (r : regex) (text : str) :
  spans_ok 0 (length text) (finditer r text).
Proof. apply (finditer_from_ok r text 0 0). lia. Qed.

Lemma chunks_loop_cons (text : str) (spans : list (nat * nat)) (last_index : nat) :
  exists c more, chunks_loop text spans last_index = c :: more.
Proof. destruct spans as [|[a b] more]; simpl; eauto. Qed.

(** The loop appends the woven pieces to [result] and the tokens to
    [dyn_list]. *)
Lemma process_loop_eq (text : str) (spans : list (nat * nat)) :
  forall last_index result dyn_list,
    process_loop text spans last_index result dyn_list
    = (result ++ weave (chunks_loop text spans last_index),
       dyn_list ++ span_tokens text spans).
Proof.
  induction spans as [|[a b] more IH]; intros last_index result dyn_list; simpl.
  - rewrite app_nil_r. reflexivity.
  - rewrite IH, <- !app_assoc. simpl.
    destruct (chunks_loop_cons text more b) as (c & cs & ->). reflexivity.
Qed.

Lemma join_nil_concat (parts : list str) : join [] parts = concat parts.
Proof.
  induction parts as [|p [|p' rest] IH]; simpl in *.
  - reflexivity.
  - rewrite app_nil_r. reflexivity.
  - rewrite IH. reflexivity.
Qed.

Lemma join_weave (chunks : list str) : join [] (weave chunks) = join PCT_S chunks.
Proof.
  rewrite join_nil_concat.
  induction chunks as [|c chunks IH]; [reflexivity|].
  destruct chunks as [|d more]; [simpl; apply app_nil_r|].
  change (weave (c :: d :: more)) with (c :: PCT_S :: weave (d :: more)).
  change (join PCT_S (c :: d :: more)) with (c ++ PCT_S ++ join PCT_S (d :: more)).
  set (w := weave (d :: more)) in *. set (j := join PCT_S (d :: more)) in *.
  simpl. rewrite IH. reflexivity.
Qed.

(** The template is the pieces joined by the placeholder; the tokens are
    the matched slices. *)
Lemma process_section_eq (text : str) (pattern : regex) :
  process_section text pattern
  = (join PCT_S (literal_chunks text pattern),
     span_tokens text (finditer pattern text)).
Proof.
  unfold process_section, literal_chunks.
  rewrite process_loop_eq. simpl. rewrite join_weave. reflexivity.
Qed.

Lemma slice_skipn (text : str) (a b : nat) :
  a <= b -> slice text a b ++ skipn b text = skipn a text.
Proof.
  intros H. unfold slice.
  replace (skipn b text) with (skipn (b - a) (skipn a text)).
  - apply firstn_skipn.
  - rewrite skipn_skipn. f_equal. lia.
Qed.

Lemma option_map_app (a b : str) (o : option str) :
  option_map (app a) (option_map (app b) o) = option_map (app (a ++ b)) o.
Proof. destruct o; simpl; [rewrite app_assoc|]; reflexivity. Qed.

(** Re-substitution copies a placeholder-free piece as it is, when what
    follows is the end of the template or a percent sign. *)
Lemma resubstitute_chunk (c rest : str) (tokens : list str) :
  placeholder_free c = true ->
  (rest = [] \/ exists rest', rest = "%"%char :: rest') ->
  resubstitute_from (c ++ rest) tokens false
  = option_map (app c) (resubstitute_from rest tokens false).
Proof.
  unfold placeholder_free. rewrite negb_true_iff.
  induction c as [|x c IH]; intros Hc Hr.
  - simpl. destruct (resubstitute_from rest tokens false); reflexivity.
  - simpl in Hc. apply orb_false_iff in Hc. destruct Hc as [Hx Hc].
    change ((x :: c) ++ rest) with (x :: (c ++ rest)).
    cbn [resubstitute_from].
    assert (Hs : startswith (x :: c ++ rest) PCT_S = false).
    { unfold PCT_S, lit in *. cbn [list_ascii_of_string startswith] in *.
      destruct (Ascii.eqb "%" x); [|reflexivity]. cbn [andb] in *.
      destruct c as [|y c']; cbn [app startswith] in *.
      - destruct Hr as [->|[rest' ->]]; reflexivity.
      - rewrite startswith_nil in *. exact Hx. }
    rewrite Hs, (IH Hc Hr).
    destruct (resubstitute_from rest tokens false); reflexivity.
Qed.

Lemma resubstitute_placeholder (rest : str) (t : str) (tokens : list str) :
  resubstitute_from ("%"%char :: "s"%char :: rest) (t :: tokens) false
  = option_map (app t) (resubstitute_from rest tokens false).
Proof.
  simpl. rewrite startswith_nil. reflexivity.
Qed.

Lemma join_cons (sep c : str) (d : str) (more : list str) :
  join sep (c :: d :: more) = c ++ sep ++ join sep (d :: more).
Proof. reflexivity. Qed.

(** Putting the tokens back between placeholder-free pieces gives the
    text from [last_index] on. *)
Lemma resubstitute_chunks (text : str) (spans : list (nat * nat)) :
  forall last_index,
    spans_ok last_index (length text) spans ->
    forallb placeholder_free (chunks_loop text spans last_index) = true ->
    resubstitute (join PCT_S (chunks_loop text spans last_index))
                 (span_tokens text spans)
    = Some (skipn last_index text).
Proof.
  unfold resubstitute.
  induction spans as [|[a b] more IH]; intros last_index Hok Hfree; simpl in *.
  - rewrite andb_true_r in Hfree. unfold slice_from.
    rewrite <- (app_nil_r (skipn last_index text)) at 1.
    rewrite resubstitute_chunk by (auto). simpl. rewrite app_nil_r. reflexivity.
  - apply andb_true_iff in Hfree. destruct Hfree as [Hc Hfree].
    destruct Hok as (H1 & H2 & Hok).
    destruct (chunks_loop_cons text more b) as (d & ds & E).
    rewrite E in *. rewrite resubstitute_chunk; [|exact Hc|right; eexists; reflexivity].
    rewrite resubstitute_placeholder, <- E, (IH b Hok) by (rewrite E; exact Hfree).
    simpl. rewrite <- (slice_skipn text _ _ H1), <- (slice_skipn text _ _ H2).
    reflexivity.
Qed.

(** Re-substitution succeeds only with as many tokens as the template has
    placeholders. *)
Lemma resubstitute_counts (template : str) :
  forall tokens skip out,
    resubstitute_from template tokens skip = Some out ->
    count_placeholders template skip = length tokens.
Proof.
  induction template as [|c rest IH]; intros tokens skip out H.
  - destruct tokens; [reflexivity | discriminate].
  - cbn [resubstitute_from count_placeholders] in *.
    destruct skip; [apply (IH _ _ _ H)|].
    destruct (startswith (c :: rest) PCT_S).
    + destruct tokens as [|t tokens]; [discriminate|].
      destruct (resubstitute_from rest tokens true) eqn:E; [|discriminate].
      simpl. f_equal. apply (IH _ _ _ E).
    + destruct (resubstitute_from rest tokens false) eqn:E; [|discriminate].
      apply (IH _ _ _ E).
Qed.

Lemma startswith_pct_s_app (x : ascii) (c rest : str) :
  (rest = [] \/ exists rest', rest = "%"%char :: rest') ->
  startswith (x :: c ++ rest) PCT_S = startswith (x :: c) PCT_S.
Proof.
  intros Hr. unfold PCT_S, lit. cbn [list_ascii_of_string startswith].
  destruct (Ascii.eqb "%" x); [|reflexivity]. cbn [andb].
  destruct c as [|y c]; cbn [app startswith]; [|rewrite !startswith_nil; reflexivity].
  destruct Hr as [->|[rest' ->]]; reflexivity.
Qed.

Lemma startswith_pct_s_single (x : ascii) : startswith [x] PCT_S = false.
Proof.
  unfold PCT_S, lit. cbn [list_ascii_of_string startswith].
  apply andb_false_r.
Qed.

(** The placeholders of a piece followed by the end of the template or by
    a percent sign are counted apart from what follows. *)
Lemma count_placeholders_app (c rest : str) :
  (rest = [] \/ exists rest', rest = "%"%char :: rest') ->
  count_placeholders (c ++ rest) false
  = count_placeholders c false + count_placeholders rest false
  /\ (c <> [] ->
      count_placeholders (c ++ rest) true
      = count_placeholders c true + count_placeholders rest false).
Proof.
  intros Hr. induction c as [|x c [IH1 IH2]].
  - split; [reflexivity | intros H; contradiction].
  - change ((x :: c) ++ rest) with (x :: (c ++ rest)).
    split; [|intros _; cbn [count_placeholders]; exact IH1].
    cbn [count_placeholders]. rewrite (startswith_pct_s_app x c rest Hr).
    destruct (startswith (x :: c) PCT_S) eqn:E; [|exact IH1].
    destruct c as [|y c]; [rewrite startswith_pct_s_single in E; discriminate|].
    rewrite IH2 by discriminate. reflexivity.
Qed.

Lemma count_placeholders_here (rest : str) :
  count_placeholders (PCT_S ++ rest) false = S (count_placeholders rest false).
Proof. simpl. rewrite startswith_nil. reflexivity. Qed.

Lemma count_placeholders_zero (c : str) :
  count_placeholders c false = 0 -> placeholder_free c = true.
Proof.
  unfold placeholder_free. rewrite negb_true_iff.
  induction c as [|x c IH]; [reflexivity|].
  cbn [count_placeholders contains].
  destruct (startswith (x :: c) PCT_S); [discriminate|]. exact IH.
Qed.

(** The placeholders of a template: one per token, and those that the
    pieces of text already hold. *)
Lemma count_placeholders_template (text : str) (spans : list (nat * nat)) :
  forall last_index,
    count_placeholders (join PCT_S (chunks_loop text spans last_index)) false
    = length spans
      + list_sum (map (fun c => count_placeholders c false)
                      (chunks_loop text spans last_index)).
Proof.
  induction spans as [|[a b] more IH]; intros last_index.
  - simpl. lia.
  - cbn [chunks_loop].
    destruct (chunks_loop_cons text more b) as (d & ds & E).
    specialize (IH b). rewrite E in *. rewrite join_cons.
    destruct (count_placeholders_app (slice text last_index a)
                (PCT_S ++ join PCT_S (d :: ds))) as [-> _];
      [right; eexists; reflexivity|].
    rewrite count_placeholders_here, IH.
    cbn [map list_sum fold_right length]. lia.
Qed.

Lemma list_sum_zero (f : str -> nat) (l : list str) :
  list_sum (map f l) = 0 -> Forall (fun c => f c = 0) l.
Proof.
  induction l as [|c l IH]; simpl; intros H; constructor; [lia | apply IH; lia].
Qed.

(** The condition of the round trip is also necessary: when a piece of the
    text outside the tokens holds the placeholder, re-substitution has too
    few tokens and gives no text at all. *)
Lemma round_trip_only_if_placeholder_free (text : str) (pattern : regex) (out : str) :
  resubstitute (fst (process_section text pattern))
               (snd (process_section text pattern)) = Some out ->
  forallb placeholder_free (literal_chunks text pattern) = true.
Proof.
  rewrite process_section_eq. simpl. unfold resubstitute, literal_chunks.
  intros H. apply resubstitute_counts in H.
  rewrite count_placeholders_template in H.
  unfold span_tokens in H. rewrite length_map in H.
  assert (Hz : list_sum (map (fun c => count_placeholders c false)
                             (chunks_loop text (finditer pattern text) 0)) = 0)
    by lia.
  apply list_sum_zero in Hz. apply forallb_forall. intros c Hc.
  rewrite Forall_forall in Hz. apply count_placeholders_zero. apply Hz. exact Hc.
Qed.

(** C1, amended.  For every text and pattern: when no piece of the text
    outside the matched tokens contains the placeholder, putting the
    extracted tokens back, in order, at the placeholders of the template
    gives the text. *)
Theorem process_section_round_trip :
  forall (text : str) (pattern : regex),
    forallb placeholder_free (literal_chunks text pattern) = true ->
    resubstitute (fst (process_section text pattern))
                 (snd (process_section text pattern))
    = Some text.
Proof.
  intros text pattern Hfree. rewrite process_section_eq. simpl.
  apply (resubstitute_chunks text (finditer pattern text) 0).
  - apply finditer_ok.
  - exact Hfree.
Qed.

Lemma process_section_round_trip_witness :
  resubstitute
    (fst (process_section (lit "mov eax,[Game.exe+1A2B] ; 50% jmp Game.exe+FF00:")
            DYN_PATTERN))
    (snd (process_section (lit "mov eax,[Game.exe+1A2B] ; 50% jmp Game.exe+FF00:")
            DYN_PATTERN))
  = Some (lit "mov eax,[Game.exe+1A2B] ; 50% jmp Game.exe+FF00:").
Proof. apply process_section_round_trip. vm_compute. reflexivity. Defined.

(** C1 as stated fails: two different texts have the same template and the
    same tokens, so nothing computed from the template and the tokens can
    give back both; and re-substitution at the placeholders of the template
    does not give back the first. *)
Lemma process_section_round_trip_counterexample :
  process_section (lit "%s game.exe+1A") DYN_PATTERN
  = process_section (lit "game.exe+1A %s") DYN_PATTERN
  /\ lit "%s game.exe+1A" <> lit "game.exe+1A %s"
  /\ process_section (lit "%s game.exe+1A") DYN_PATTERN
     = (lit "%s %s", [lit "game.exe+1A"])
  /\ resubstitute (fst (process_section (lit "%s game.exe+1A") DYN_PATTERN))
                  (snd (process_section (lit "%s game.exe+1A") DYN_PATTERN))
     <> Some (lit "%s game.exe+1A").
Proof.
  repeat split; try (vm_compute; reflexivity); vm_compute; discriminate.
Qed.

(** ** The section splitter *)

Lemma ci_startswith_nil (s : str) : ci_startswith s [] = true.
Proof. destruct s; reflexivity. Qed.

Lemma ci_startswith_length (w s : str) :
  ci_startswith s w = true -> length w <= length s.
Proof.
  revert s; induction w as [|a w IH]; intros [|b s]; simpl; intros H;
    try lia; try discriminate.
  apply andb_true_iff in H. destruct H as [_ H]. apply IH in H. lia.
Qed.

(** The matcher on a case-insensitive literal is a prefix test. *)
Lemma rmatch_lit_ci (w : str) :
  forall (s : str) (k : str -> option str),
    rmatch (lit_ci w) s k
    = if ci_startswith s w then k (skipn (length w) s) else None.
Proof.
  induction w as [|a w IH]; intros s k.
  - simpl. rewrite ci_startswith_nil. reflexivity.
  - destruct s as [|b s]; simpl; [reflexivity|].
    destruct (ci_eqb a b); simpl; [apply IH | reflexivity].
Qed.

Lemma match_len_lit_ci (w s : str) :
  match_len (lit_ci w) s = if ci_startswith s w then Some (length w) else None.
Proof.
  unfold match_len. rewrite rmatch_lit_ci.
  destruct (ci_startswith s w) eqn:E; [|reflexivity].
  apply ci_startswith_length in E. rewrite length_skipn. f_equal. lia.
Qed.

Lemma header_at_cons (c : ascii) (s : str) (j : nat) :
  header_at (c :: s) (S j) <-> header_at s j.
Proof. unfold header_at; simpl. split; intros [H1 H2]; split; auto; lia. Qed.

Lemma header_at_0 (s : str) :
  header_at s 0 <-> ci_startswith s DISABLE_HEADER = true.
Proof.
  unfold header_at; simpl.
  split; [intros [_ H]; exact H | intros H; split; [lia | exact H]].
Qed.

(** [re.search] for the deactivation header finds its first occurrence. *)
Lemma re_search_first_header (s : str) :
  forall (pos : nat) (o : option nat),
    first_header s o ->
    re_search_from DISABLE_PATTERN s pos
    = match o with
      | Some i => Some (pos + i, pos + i + length DISABLE_HEADER)
      | None => None
      end.
Proof.
  unfold DISABLE_PATTERN.
  induction s as [|c rest IH]; intros pos o Ho.
  - simpl. destruct o as [i|]; [|reflexivity].
    destruct Ho as [[Hi H] _]. destruct i; simpl in H; discriminate.
  - cbn [re_search_from]. rewrite match_len_lit_ci.
    destruct (ci_startswith (c :: rest) DISABLE_HEADER) eqn:E.
    + assert (H0 : header_at (c :: rest) 0) by (apply header_at_0; exact E).
      destruct o as [[|i]|].
      * rewrite !Nat.add_0_r. reflexivity.
      * destruct Ho as [_ Hmin]. exfalso. apply (Hmin 0); [lia | exact H0].
      * exfalso. apply (Ho 0). exact H0.
    + assert (H0 : ~ header_at (c :: rest) 0)
        by (rewrite header_at_0, E; discriminate).
      destruct o as [[|i]|].
      * destruct Ho as [Hat _]. contradiction.
      * destruct Ho as [Hat Hmin].
        rewrite (IH (S pos) (Some i)).
        -- f_equal. f_equal; lia.
        -- split; [apply (header_at_cons c); exact Hat|].
           intros j Hj Hc. apply (Hmin (S j)); [lia|].
           apply header_at_cons; exact Hc.
      * apply (IH (S pos) None). intros j Hc.
        apply (Ho (S j)). apply header_at_cons; exact Hc.
Qed.



(** What [lstrip] removes is a run of whitespace. *)
Lemma lstrip_split (s : str) :
  exists w, s = w ++ lstrip s /\ forallb isspace w = true.
Proof.
  induction s as [|c s (w & E & H)].
  - exists []. split; reflexivity.
  - cbn [lstrip]. destruct (isspace c) eqn:Ec.
    + exists (c :: w). split; [cbn [app]; f_equal; exact E|].
      cbn [forallb]. rewrite Ec, H. reflexivity.
    + exists []. split; reflexivity.
Qed.















(** C5 fails on the activation header: written in lower case it is not
    consumed and stays in the activation body, while the deactivation
    header in lower case does split the text. *)
Theorem split_asm_sections_lowercase_enable :
  split_asm_sections (lit "[enable] mov eax,1 [disable] mov eax,0")
  = (lit "[enable] mov eax,1", lit "mov eax,0")
  /\ split_asm_sections (lit "[ENABLE] mov eax,1 [disable] mov eax,0")
     = (lit "mov eax,1", lit "mov eax,0").
Proof. split; vm_compute; reflexivity. Qed.

(** In [merge_script.py] both headers are matched in upper case only, and
    what follows a second deactivation header is dropped. *)
Lemma merge_script_split_asm_sections_examples :
  MergeScript.split_asm_sections (lit "[ENABLE] a [disable] b")
  = (lit "a [disable] b", [])
  /\ MergeScript.split_asm_sections (lit "[ENABLE] a [DISABLE] b [DISABLE] c")
     = (lit "a", lit "b")
  /\ split_asm_sections (lit "[ENABLE] a [DISABLE] b [DISABLE] c")
     = (lit "a", lit "b [DISABLE] c").
Proof. repeat split; vm_compute; reflexivity. Qed.

(** ** The script assembler *)

Lemma startswith_app (p rest : str) : startswith (p ++ rest) p = true.
Proof.
  induction p as [|a p IH]; simpl; [apply startswith_nil|].
  rewrite Ascii.eqb_refl, IH. reflexivity.
Qed.

Lemma skipn_length_app (p rest : str) : skipn (length p) (p ++ rest) = rest.
Proof. induction p as [|a p IH]; simpl; auto. Qed.

(** A closing bracket cannot begin in [s] and run over a line feed. *)
Lemma startswith_close_before_nl (s rest : str) :
  startswith (s ++ nl :: rest) LONG_CLOSE = startswith s LONG_CLOSE.
Proof.
  unfold LONG_CLOSE, lit; cbn [list_ascii_of_string].
  destruct s as [|c1 [|c2 [|c3 [|c4 s]]]]; cbn [app startswith];
    rewrite ?startswith_nil; try reflexivity;
    repeat match goal with
           | |- context [Ascii.eqb ?a nl] =>
               replace (Ascii.eqb a nl) with false by reflexivity
           end; rewrite ?andb_false_r; reflexivity.
Qed.

Lemma is_newline_no_cr (c : ascii) :
  negb (is_char Lua.cr c) = true -> Lua.is_newline c = true -> c = nl.
Proof.
  unfold Lua.is_newline, is_char. intros H1 H2.
  apply negb_true_iff in H1. rewrite H1, orb_false_r in H2.
  apply Ascii.eqb_eq in H2. symmetry; exact H2.
Qed.

(** The reader of long literals copies a text without carriage return and
    without closing bracket, up to the bracket that the fragment puts on
    the next line. *)
Lemma long_body_plain (t : str) :
  forall pending,
    pending = None \/ pending = Some nl ->
    no_cr t = true ->
    contains LONG_CLOSE t = false ->
    Lua.long_body (t ++ nl :: LONG_CLOSE) pending = Some (t ++ [nl], []).
Proof.
  induction t as [|x t IH]; intros pending Hp Hcr Hclose.
  - destruct Hp as [-> | ->]; vm_compute; reflexivity.
  - unfold no_cr in Hcr. cbn [forallb] in Hcr. fold (no_cr t) in Hcr.
    apply andb_true_iff in Hcr. destruct Hcr as [Hx Hcr].
    cbn [contains] in Hclose.
    apply orb_false_iff in Hclose. destruct Hclose as [Hs Hclose].
    change ((x :: t) ++ nl :: LONG_CLOSE) with (x :: (t ++ nl :: LONG_CLOSE)).
    cbn [Lua.long_body].
    assert (Hpartner :
              match pending with
              | Some p => Lua.is_newline x && negb (Ascii.eqb x p)
              | None => false
              end = false).
    { destruct Hp as [-> | ->]; [reflexivity|].
      destruct (Lua.is_newline x) eqn:En; [|reflexivity].
      rewrite (is_newline_no_cr x Hx En). reflexivity. }
    rewrite Hpartner.
    change (x :: t ++ nl :: LONG_CLOSE) with ((x :: t) ++ nl :: LONG_CLOSE).
    rewrite startswith_close_before_nl, Hs.
    destruct (Lua.is_newline x) eqn:En.
    + rewrite (IH (Some x)); auto.
      * rewrite (is_newline_no_cr x Hx En). reflexivity.
      * right. rewrite (is_newline_no_cr x Hx En). reflexivity.
    + rewrite (IH None); auto.
Qed.

(** With no dynamic value the fragment is the binding of the script
    variable to a long literal that holds the template as it is, with no
    escaping and no formatting call; and when the template contains
    neither the closing bracket of the literal nor a carriage return,
    evaluating the literal gives the template followed by one line feed. *)
Theorem fast_path_binds_template :
  forall (template script_var addr_prefix : str),
    build_script_part template 0 script_var addr_prefix
    = lit "local " ++ script_var ++ lit " = "
        ++ lit "[==[" ++ [nl] ++ template ++ [nl] ++ lit "]==]"
    /\ (contains LONG_CLOSE template = false ->
        no_cr template = true ->
        eval_local_literal script_var
          (build_script_part template 0 script_var addr_prefix)
        = Some (template ++ [nl])).
Proof.
  intros template script_var addr_prefix.
  split; [reflexivity|]. intros Hclose Hcr.
  unfold eval_local_literal, build_script_part.
  change (0 <? 0) with false. cbv iota.
  replace (lit "local " ++ script_var ++ lit " = "
             ++ LONG_OPEN ++ [nl] ++ template ++ [nl] ++ LONG_CLOSE)
    with ((lit "local " ++ script_var ++ lit " = ")
            ++ LONG_OPEN ++ [nl] ++ template ++ [nl] ++ LONG_CLOSE)
    by (rewrite <- !app_assoc; reflexivity).
  rewrite startswith_app, skipn_length_app.
  unfold Lua.long_string. rewrite startswith_app, skipn_length_app.
  change ([nl] ++ template ++ [nl] ++ LONG_CLOSE)
    with (nl :: (template ++ nl :: LONG_CLOSE)).
  cbv iota. replace (Lua.is_newline nl) with true by reflexivity.
  rewrite (long_body_plain template (Some nl)); auto.
Qed.

Lemma fast_path_binds_template_witness :
  eval_local_literal (lit "enableScript")
    (build_script_part (lit "mov eax,[ebx+10]") 0 (lit "enableScript") (lit "addrE"))
  = Some (lit "mov eax,[ebx+10]" ++ [nl]).
Proof.
  apply (fast_path_binds_template (lit "mov eax,[ebx+10]")
           (lit "enableScript") (lit "addrE")); reflexivity.
Defined.

(** A template that holds the closing bracket ends the literal early, so
    that the fragment is no binding of the template; and a template
    without it evaluates to itself plus a line feed, not to itself. *)
Lemma fast_path_counterexample :
  eval_local_literal (lit "enableScript")
    (build_script_part (lit "db 5D ]==] 90") 0 (lit "enableScript") (lit "addrE"))
  <> Some (lit "db 5D ]==] 90")
  /\ Lua.long_string (LONG_OPEN ++ [nl] ++ lit "db 5D ]==] 90" ++ [nl] ++ LONG_CLOSE)
     = Some (lit "db 5D ", lit " 90" ++ [nl] ++ LONG_CLOSE)
  /\ eval_local_literal (lit "enableScript")
       (build_script_part (lit "nop") 0 (lit "enableScript") (lit "addrE"))
     <> Some (lit "nop").
Proof. repeat split; vm_compute; try reflexivity; discriminate. Qed.

Lemma newline_not_close (x : ascii) (t : str) :
  Lua.is_newline x = true -> startswith (x :: t) LONG_CLOSE = false.
Proof.
  unfold Lua.is_newline, is_char. intros H.
  apply orb_true_iff in H. destruct H as [H|H]; apply Ascii.eqb_eq in H; subst x;
    reflexivity.
Qed.

Lemma long_body_at_close (after : str) (pending : option ascii) :
  Lua.long_body (LONG_CLOSE ++ after) pending = Some ([], after).
Proof.
  assert (E : LONG_CLOSE ++ after = "]"%char :: (lit "==]" ++ after)) by reflexivity.
  rewrite E. cbn [Lua.long_body]. rewrite <- E.
  replace (match pending with
           | Some p => Lua.is_newline "]" && negb (Ascii.eqb "]" p)
           | None => false
           end) with false by (destruct pending; reflexivity).
  rewrite startswith_app, skipn_length_app. reflexivity.
Qed.

(** The reader of long literals, as [long_body_plain], with source left
    after the closing bracket. *)
Lemma long_body_plain_then (t after : str) :
  forall pending,
    pending = None \/ pending = Some nl ->
    no_cr t = true ->
    contains LONG_CLOSE t = false ->
    Lua.long_body (t ++ nl :: LONG_CLOSE ++ after) pending = Some (t ++ [nl], after).
Proof.
  induction t as [|x t IH]; intros pending Hp Hcr Hclose.
  - cbn [app Lua.long_body].
    replace (match pending with
             | Some p => Lua.is_newline nl && negb (Ascii.eqb nl p)
             | None => false
             end) with false by (destruct Hp as [-> | ->]; reflexivity).
    rewrite (newline_not_close nl _ eq_refl).
    replace (Lua.is_newline nl) with true by reflexivity.
    rewrite long_body_at_close. reflexivity.
  - unfold no_cr in Hcr. cbn [forallb] in Hcr. fold (no_cr t) in Hcr.
    apply andb_true_iff in Hcr. destruct Hcr as [Hx Hcr].
    cbn [contains] in Hclose.
    apply orb_false_iff in Hclose. destruct Hclose as [Hs Hclose].
    change ((x :: t) ++ nl :: LONG_CLOSE ++ after)
      with (x :: (t ++ nl :: LONG_CLOSE ++ after)).
    cbn [Lua.long_body].
    assert (Hpartner :
              match pending with
              | Some p => Lua.is_newline x && negb (Ascii.eqb x p)
              | None => false
              end = false).
    { destruct Hp as [-> | ->]; [reflexivity|].
      destruct (Lua.is_newline x) eqn:En; [|reflexivity].
      rewrite (is_newline_no_cr x Hx En). reflexivity. }
    rewrite Hpartner.
    change (x :: t ++ nl :: LONG_CLOSE ++ after)
      with ((x :: t) ++ nl :: LONG_CLOSE ++ after).
    rewrite startswith_close_before_nl, Hs.
    destruct (Lua.is_newline x) eqn:En.
    + rewrite (IH (Some x)); auto.
      * rewrite (is_newline_no_cr x Hx En). reflexivity.
      * right. rewrite (is_newline_no_cr x Hx En). reflexivity.
    + rewrite (IH None); auto.
Qed.

(** The reader of long literals stops at a closing bracket that the text
    holds: the value is read from before it, and what follows it in the
    text is left as source. *)
Lemma long_body_closed_early (t : str) :
  forall pending,
    contains LONG_CLOSE t = true ->
    exists v i,
      i + length LONG_CLOSE <= length t
      /\ startswith (skipn i t) LONG_CLOSE = true
      /\ length v <= i
      /\ Lua.long_body (t ++ nl :: LONG_CLOSE) pending
         = Some (v, skipn (i + length LONG_CLOSE) t ++ nl :: LONG_CLOSE).
Proof.
  induction t as [|x t IH]; intros pending Hc; [discriminate|].
  cbn [contains] in Hc.
  change ((x :: t) ++ nl :: LONG_CLOSE) with (x :: (t ++ nl :: LONG_CLOSE)).
  cbn [Lua.long_body].
  change (x :: t ++ nl :: LONG_CLOSE) with ((x :: t) ++ nl :: LONG_CLOSE).
  rewrite startswith_close_before_nl.
  destruct (match pending with
            | Some p => Lua.is_newline x && negb (Ascii.eqb x p)
            | None => false
            end) eqn:Ep.
  - assert (Hx : Lua.is_newline x = true).
    { destruct pending as [p|]; [|discriminate].
      apply andb_true_iff in Ep. tauto. }
    rewrite (newline_not_close x t Hx) in Hc. cbn [orb] in Hc.
    destruct (IH None Hc) as (v & i & H1 & H2 & H3 & H4).
    exists v, (S i). cbn [length skipn plus] in *.
    repeat split; try lia; assumption.
  - destruct (startswith (x :: t) LONG_CLOSE) eqn:Es.
    + exists [], 0. pose proof (startswith_length _ _ Es) as Hl.
      repeat split; try assumption; try (simpl; lia).
      rewrite skipn_app.
      replace (length LONG_CLOSE - length (x :: t)) with 0 by lia.
      reflexivity.
    + cbn [orb] in Hc.
      destruct (Lua.is_newline x).
      * destruct (IH (Some x) Hc) as (v & i & H1 & H2 & H3 & H4).
        rewrite H4. exists (nl :: v), (S i). cbn [length skipn plus] in *.
        repeat split; try lia; assumption.
      * destruct (IH None Hc) as (v & i & H1 & H2 & H3 & H4).
        rewrite H4. exists (x :: v), (S i). cbn [length skipn plus] in *.
        repeat split; try lia; assumption.
Qed.

(** C7 fails on a template that holds the closing bracket of the long
    literal.  The fast path of [build_script_part], and the same lines of
    [merge_script.py], write the template between the brackets as it is;
    the literal then ends at a closing bracket inside the template, what
    follows it in the template is left over as Lua source, and the
    fragment is no binding of the script variable to a literal. *)
Theorem fast_path_cut_at_closing_bracket :
  forall (template script_var addr_prefix : str),
    contains LONG_CLOSE template = true ->
    build_script_part template 0 script_var addr_prefix
    = lit "local " ++ script_var ++ lit " = "
        ++ lit "[==[" ++ [nl] ++ template ++ [nl] ++ lit "]==]"
    /\ MergeScript.script_part template 0 script_var addr_prefix
       = build_script_part template 0 script_var addr_prefix
    /\ (exists v i,
          i + length LONG_CLOSE <= length template
          /\ startswith (skipn i template) LONG_CLOSE = true
          /\ length v <= i
          /\ Lua.long_string (LONG_OPEN ++ [nl] ++ template ++ [nl] ++ LONG_CLOSE)
             = Some (v, skipn (i + length LONG_CLOSE) template ++ [nl] ++ LONG_CLOSE))
    /\ eval_local_literal script_var
         (build_script_part template 0 script_var addr_prefix)
       = None.
Proof.
  intros template script_var addr_prefix Hc.
  destruct (long_body_closed_early template (Some nl) Hc)
    as (v & i & H1 & H2 & H3 & H4).
  assert (Hl : Lua.long_string (LONG_OPEN ++ [nl] ++ template ++ [nl] ++ LONG_CLOSE)
               = Some (v, skipn (i + length LONG_CLOSE) template ++ [nl] ++ LONG_CLOSE)).
  { unfold Lua.long_string. rewrite startswith_app, skipn_length_app.
    change ([nl] ++ template ++ [nl] ++ LONG_CLOSE)
      with (nl :: (template ++ nl :: LONG_CLOSE)).
    cbv iota. replace (Lua.is_newline nl) with true by reflexivity.
    exact H4. }
  split; [reflexivity|]. split; [reflexivity|].
  split; [exists v, i; repeat split; assumption|].
  unfold eval_local_literal, build_script_part.
  change (0 <? 0) with false. cbv iota.
  replace (lit "local " ++ script_var ++ lit " = "
             ++ LONG_OPEN ++ [nl] ++ template ++ [nl] ++ LONG_CLOSE)
    with ((lit "local " ++ script_var ++ lit " = ")
            ++ LONG_OPEN ++ [nl] ++ template ++ [nl] ++ LONG_CLOSE)
    by (rewrite <- !app_assoc; reflexivity).
  rewrite startswith_app, skipn_length_app, Hl.
  destruct (skipn (i + length LONG_CLOSE) template); reflexivity.
Qed.

Lemma fast_path_cut_at_closing_bracket_witness :
  eval_local_literal (lit "enableScript")
    (build_script_part (lit "db 5D ]==] 90") 0 (lit "enableScript") (lit "addrE"))
  = None.
Proof.
  apply (fast_path_cut_at_closing_bracket (lit "db 5D ]==] 90")
           (lit "enableScript") (lit "addrE")).
  reflexivity.
Defined.

(** The merge itself writes the closing bracket into its output: merged
    once more, the output of a merge of two scripts without addresses
    takes the fast path with a template that holds the bracket, and the
    merge returns a script all the same. *)
Lemma fast_path_remerge_example :
  match merge_asm_scripts
          (lit "[ENABLE]" ++ [nl] ++ lit "nop" ++ [nl]
             ++ lit "[DISABLE]" ++ [nl] ++ lit "nop")
          (lit "[ENABLE]" ++ [nl] ++ lit "nop" ++ [nl]
             ++ lit "[DISABLE]" ++ [nl] ++ lit "nop")
  with
  | inr merged =>
      enable_tokens merged = []
      /\ contains LONG_CLOSE (enable_template merged) = true
      /\ (exists again, merge_asm_scripts merged merged = inr again)
      /\ eval_local_literal (lit "enableScript")
           (build_script_part (enable_template merged) 0
              (lit "enableScript") (lit "addrE"))
         = None
  | inl _ => False
  end.
Proof.
  vm_compute. repeat split. eexists. reflexivity.
Qed.

(** A carriage return in the template is read as a line feed. *)
Lemma fast_path_carriage_return_example :
  eval_local_literal (lit "enableScript")
    (build_script_part (lit "a" ++ [Lua.cr] ++ lit "b") 0
       (lit "enableScript") (lit "addrE"))
  = Some (lit "a" ++ [nl] ++ lit "b" ++ [nl]).
Proof. vm_compute. reflexivity. Qed.

(** C8 fails on a placeholder that the source text already contains: the
    escaping of [build_script_part] leaves it in place, the format string
    has two conversions for one dynamic value, and [string.format] finds no
    value for the second. *)
Theorem preexisting_placeholder_not_neutralized :
  process_section (lit "%s game.exe+1A") DYN_PATTERN
  = (lit "%s %s", [lit "game.exe+1A"])
  /\ template_escaped (lit "%s %s") = lit "%s %s"
  /\ build_script_part (lit "%s %s") 1 (lit "enableScript") (lit "addrE")
     = lit "local enableScript = string.format([==[" ++ [nl]
         ++ lit "%s %s" ++ [nl] ++ lit "]==], addrE.dynamic1)"
  /\ Lua.slots (template_escaped (lit "%s %s")) = 2
  /\ Lua.format (template_escaped (lit "%s %s") ++ [nl]) [lit "game.exe+1A"]
     = Lua.NoValue.
Proof. repeat split; vm_compute; reflexivity. Qed.

(** What the escaping does achieve: a percent sign that is not part of the
    placeholder is doubled; and a text that already holds the marker of
    [build_script_part] gets one more conversion. *)
Lemma template_escaped_examples :
  template_escaped (lit "50% of %s") = lit "50%% of %s"
  /\ Lua.format (template_escaped (lit "50% of %s") ++ [nl]) [lit "game.exe+1A"]
     = Lua.Formatted (lit "50% of game.exe+1A" ++ [nl])
  /\ template_escaped (lit "__TEMP_PLACEHOLDER__ %s") = lit "%s %s".
Proof. repeat split; vm_compute; reflexivity. Qed.

(** [merge_script.py] passes the template to [string.format] as it is. *)
Lemma merge_script_script_part_example :
  MergeScript.script_part (lit "50% of %s") 1 (lit "enableScript") (lit "addrE")
  = lit "local enableScript = string.format([==[" ++ [nl]
      ++ lit "50% of %s" ++ [nl] ++ lit "]==], addrE.dynamic1)"
  /\ Lua.format (lit "50% of %s" ++ [nl]) [lit "game.exe+1A"]
     = Lua.OtherConversion.
Proof. split; vm_compute; reflexivity. Qed.

(** ** Escaping in the config table *)

(** Replacing a single character is a character-wise map. *)
Lemma replace_char (a : ascii) (new s : str) :
  replace s [a] new = flat_map (fun c => if Ascii.eqb a c then new else [c]) s.
Proof.
  unfold replace. induction s as [|c s IH]; [reflexivity|].
  cbn [replace_from flat_map startswith]. rewrite startswith_nil, andb_true_r.
  change (length [a] - 1) with 0.
  destruct (Ascii.eqb a c); rewrite IH; reflexivity.
Qed.

(** The two replacements of [safe_val] escape each backslash and each
    double quote of the token once, and change nothing else. *)
Lemma safe_val_escapes (val : str) : safe_val val = lua_escape val.
Proof.
  unfold safe_val, lua_escape. rewrite !replace_char.
  induction val as [|c val IH]; [reflexivity|].
  cbn [flat_map]. rewrite flat_map_app, IH. f_equal. unfold is_char.
  destruct (Ascii.eqb backslash c) eqn:Eb.
  - reflexivity.
  - cbn [flat_map]. rewrite app_nil_r. reflexivity.
Qed.

Lemma version_lines_nth (values : list str) :
  forall i j tok,
    nth_error values j = Some tok ->
    nth_error (version_lines i values) j = Some (table_entry (i + j) tok).
Proof.
  induction values as [|v values IH]; intros i [|j] tok H; simpl in H;
    try discriminate.
  - inversion H; subst. cbn [version_lines nth_error].
    unfold table_entry. rewrite safe_val_escapes, Nat.add_0_r. reflexivity.
  - cbn [version_lines nth_error]. rewrite (IH (S i) j tok H).
    do 2 f_equal. lia.
Qed.

Lemma version_lines_length (values : list str) :
  forall i, length (version_lines i values) = length values.
Proof. induction values as [|v values IH]; intros i; simpl; auto. Qed.

(** The reader of literals between double quotes undoes the escaping of
    a token without line break. *)
Lemma short_body_lua_escape (tok rest : str) :
  no_line_break tok = true ->
  Lua.short_body (lua_escape tok ++ dquote :: rest) false = Some (tok, rest).
Proof.
  unfold no_line_break, lua_escape.
  induction tok as [|c tok IH]; intros H.
  - simpl. replace (is_char dquote dquote) with true by reflexivity. reflexivity.
  - cbn [forallb] in H. apply andb_true_iff in H. destruct H as [Hc H].
    apply negb_true_iff in Hc. specialize (IH H).
    cbn [flat_map]. unfold is_char in *.
    destruct (Ascii.eqb backslash c) eqn:Eb.
    + apply Ascii.eqb_eq in Eb. subst c.
      change (([backslash; backslash] ++ flat_map _ tok) ++ dquote :: rest)
        with (backslash :: backslash :: (flat_map
                (fun c => if Ascii.eqb backslash c then [backslash; backslash]
                          else if Ascii.eqb dquote c then [backslash; dquote]
                          else [c]) tok ++ dquote :: rest)).
      cbn [Lua.short_body]. unfold is_char.
      replace (Ascii.eqb dquote backslash) with false by reflexivity.
      replace (Ascii.eqb backslash backslash) with true by reflexivity.
      cbn [orb]. rewrite IH. reflexivity.
    + destruct (Ascii.eqb dquote c) eqn:Eq.
      * apply Ascii.eqb_eq in Eq. subst c.
        change (([backslash; dquote] ++ flat_map _ tok) ++ dquote :: rest)
          with (backslash :: dquote :: (flat_map
                  (fun c => if Ascii.eqb backslash c then [backslash; backslash]
                            else if Ascii.eqb dquote c then [backslash; dquote]
                            else [c]) tok ++ dquote :: rest)).
        cbn [Lua.short_body]. unfold is_char.
        replace (Ascii.eqb dquote backslash) with false by reflexivity.
        replace (Ascii.eqb backslash backslash) with true by reflexivity.
        replace (Ascii.eqb backslash dquote) with false by reflexivity.
        replace (Ascii.eqb dquote dquote) with true by reflexivity.
        cbn [orb]. rewrite IH. reflexivity.
      * change (([c] ++ flat_map _ tok) ++ dquote :: rest)
          with (c :: (flat_map
                  (fun c => if Ascii.eqb backslash c then [backslash; backslash]
                            else if Ascii.eqb dquote c then [backslash; dquote]
                            else [c]) tok ++ dquote :: rest)).
        cbn [Lua.short_body]. unfold is_char. rewrite Eq, Eb, Hc, IH. reflexivity.
Qed.

(** An escaped token between double quotes reads back in Lua as the
    token, when the token holds no line break. *)
Lemma escaped_token_reads_back (tok rest : str) :
  forallb (fun c => negb (Lua.is_newline c)) tok = true ->
  Lua.short_body (safe_val tok ++ dquote :: rest) false = Some (tok, rest).
Proof.
  intros H. rewrite safe_val_escapes. apply short_body_lua_escape. exact H.
Qed.

(** A token with a line break, which the quoted form of the pattern can
    match, is written with the line break as it is: the literal of the
    table does not read back. *)
Lemma token_with_line_break_example :
  snd (process_section ([dquote] ++ lit "My" ++ [nl] ++ lit "Game.exe" ++ [dquote]
                          ++ lit "+1A") DYN_PATTERN)
  = [[dquote] ++ lit "My" ++ [nl] ++ lit "Game.exe" ++ [dquote] ++ lit "+1A"]
  /\ Lua.short_body
       (safe_val ([dquote] ++ lit "My" ++ [nl] ++ lit "Game.exe" ++ [dquote]
                    ++ lit "+1A") ++ [dquote]) false
     = None.
Proof. split; vm_compute; reflexivity. Qed.

(** [merge_script.py] escapes the double quote only: a backslash of the
    token is written as it is. *)
Lemma merge_script_safe_val_example :
  MergeScript.safe_val (lit "C:" ++ [backslash] ++ lit "Game.exe+FF00")
  = lit "C:" ++ [backslash] ++ lit "Game.exe+FF00"
  /\ safe_val (lit "C:" ++ [backslash] ++ lit "Game.exe+FF00")
     = lit "C:" ++ [backslash; backslash] ++ lit "Game.exe+FF00".
Proof. split; vm_compute; reflexivity. Qed.

(** ** The map builder *)

Lemma grows_refl (st : store) : grows st st.
Proof. intros i; left; reflexivity. Qed.

Lemma grows_trans (a b c : store) : grows a b -> grows b c -> grows a c.
Proof.
  intros H1 H2 i. destruct (H1 i) as [E1|[N1 E1]], (H2 i) as [E2|[N2 E2]].
  - left; congruence.
  - right; split; congruence.
  - right; split; congruence.
  - rewrite E1 in N2; discriminate.
Qed.

(** One turn of the loop writes at most one text, the empty string, where
    there was none. *)
Lemma scan_cheat_grows (m : dict nat) (st : store) (cheat : Element) :
  grows st (snd (scan_cheat (m, st) cheat)).
Proof.
  unfold scan_cheat.
  destruct (find_child ID_TAG cheat) as [idn|]; [|apply grows_refl].
  destruct (st (ident idn)) as [[|c t]|]; try apply grows_refl.
  destruct (find_child ASM_TAG cheat) as [asm|]; [|apply grows_refl].
  destruct (st (ident asm)) eqn:E; [apply grows_refl|].
  intros i. simpl. unfold set_text.
  destruct (Nat.eqb_spec i (ident asm)) as [->|N]; [right; auto | left; reflexivity].
Qed.

(** The entry recorded for a [CheatEntry] does not depend on the texts
    that the loop has set so far. *)
Lemma entry_key_grows (st st' : store) (cheat : Element) :
  grows st st' -> entry_key st' cheat = entry_key st cheat.
Proof.
  intros G. unfold entry_key.
  destruct (find_child ID_TAG cheat) as [idn|]; [|reflexivity].
  destruct (G (ident idn)) as [->|[-> ->]]; reflexivity.
Qed.

Lemma scan_cheat_key (m : dict nat) (st : store) (cheat : Element) :
  fst (scan_cheat (m, st) cheat)
  = match entry_key st cheat with
    | Some (k, v) => dict_set m k v
    | None => m
    end.
Proof.
  unfold scan_cheat, entry_key.
  destruct (find_child ID_TAG cheat) as [idn|]; [|reflexivity].
  destruct (st (ident idn)) as [[|c t]|]; try reflexivity.
  destruct (find_child ASM_TAG cheat) as [asm|]; [|reflexivity].
  destruct (st (ident asm)); reflexivity.
Qed.

(** After the turn of a recorded entry its script element has a text. *)
Lemma scan_cheat_text (m : dict nat) (st : store) (cheat : Element) (k : str) (v : nat) :
  entry_key st cheat = Some (k, v) ->
  (st v = None -> snd (scan_cheat (m, st) cheat) v = Some [])
  /\ (forall x, st v = Some x -> snd (scan_cheat (m, st) cheat) v = Some x).
Proof.
  unfold scan_cheat, entry_key.
  destruct (find_child ID_TAG cheat) as [idn|]; [|discriminate].
  destruct (st (ident idn)) as [[|c t]|]; try discriminate.
  destruct (find_child ASM_TAG cheat) as [asm|]; [|discriminate].
  intros H; inversion H; subst. split.
  - intros ->. simpl. unfold set_text. rewrite Nat.eqb_refl. reflexivity.
  - intros x E. rewrite E. exact E.
Qed.

#[local] Arguments scan_cheat : simpl never.
#[local] Arguments entry_key : simpl never.

Lemma fold_scan_grows (cheats : list Element) :
  forall m st, grows st (snd (fold_left scan_cheat cheats (m, st))).
Proof.
  induction cheats as [|c cheats IH]; intros m st; simpl; [apply grows_refl|].
  destruct (scan_cheat (m, st) c) as [m1 st1] eqn:E.
  apply grows_trans with st1; [|apply IH].
  pose proof (scan_cheat_grows m st c) as G. rewrite E in G. exact G.
Qed.

(** The map that the loop builds, from the texts at the start. *)
Lemma fold_scan_keys (st0 : store) (cheats : list Element) :
  forall m st,
    grows st0 st ->
    fst (fold_left scan_cheat cheats (m, st))
    = fold_left (record_entry st0) cheats m.
Proof.
  induction cheats as [|c cheats IH]; intros m st G; simpl; [reflexivity|].
  destruct (scan_cheat (m, st) c) as [m1 st1] eqn:E.
  pose proof (scan_cheat_key m st c) as K. rewrite E in K. simpl in K.
  pose proof (scan_cheat_grows m st c) as G1. rewrite E in G1. simpl in G1.
  rewrite (IH m1 st1 (grows_trans _ _ _ G G1)), K. unfold record_entry at 2.
  rewrite (entry_key_grows _ _ c G). reflexivity.
Qed.

Lemma dict_get_set_same {V : Type} (d : dict V) (k : str) (v : V) :
  dict_get (dict_set d k v) k = Some v.
Proof.
  induction d as [|[k' v'] d IH]; simpl.
  - rewrite str_eqb_refl. reflexivity.
  - destruct (str_eqb k' k) eqn:E; simpl; rewrite E; [reflexivity | exact IH].
Qed.

Lemma dict_get_set_other {V : Type} (d : dict V) (k k' : str) (v : V) :
  k <> k' -> dict_get (dict_set d k v) k' = dict_get d k'.
Proof.
  intros N. induction d as [|[k0 v0] d IH]; simpl.
  - destruct (str_eqb k k') eqn:E; [apply str_eqb_eq in E; contradiction | reflexivity].
  - destruct (str_eqb k0 k) eqn:E; simpl.
    + apply str_eqb_eq in E; subst k0.
      destruct (str_eqb k k') eqn:E'; [apply str_eqb_eq in E'; contradiction | reflexivity].
    + destruct (str_eqb k0 k'); [reflexivity | exact IH].
Qed.

(** A key set by the loop stays in the map; it keeps its element when the
    later entries with that key record the same element. *)
Lemma fold_keys_get (st0 : store) (k : str) (v : nat) (cheats : list Element) :
  forall m,
    dict_get m k = Some v ->
    (exists w, dict_get (fold_left (record_entry st0) cheats m) k = Some w)
    /\ ((forall c w, In c cheats -> entry_key st0 c = Some (k, w) -> w = v) ->
        dict_get (fold_left (record_entry st0) cheats m) k = Some v).
Proof.
  revert v. induction cheats as [|c cheats IH]; intros v m Hm; simpl.
  - split; [exists v; exact Hm | intros _; exact Hm].
  - unfold record_entry at 2 4.
    destruct (entry_key st0 c) as [[k1 v1]|] eqn:E.
    + destruct (list_eq_dec ascii_dec k1 k) as [->|N].
      * destruct (IH v1 (dict_set m k v1) (dict_get_set_same m k v1)) as [Hex Hsame].
        split; [exact Hex|]. intros U.
        assert (v1 = v) by (apply (U c v1); [left; reflexivity | exact E]).
        subst v1. apply Hsame. intros c' w Hin. apply U. right; exact Hin.
      * assert (Hm' : dict_get (dict_set m k1 v1) k = Some v)
          by (rewrite dict_get_set_other; [exact Hm | exact N]).
        destruct (IH v (dict_set m k1 v1) Hm') as [Hex Hsame].
        split; [exact Hex|]. intros U. apply Hsame.
        intros c' w Hin. apply U. right; exact Hin.
    + destruct (IH v m Hm) as [Hex Hsame].
      split; [exact Hex|]. intros U. apply Hsame.
      intros c' w Hin. apply U. right; exact Hin.
Qed.

Lemma fold_left_scan_app (l1 l2 : list Element) (acc : dict nat * store) :
  fold_left scan_cheat (l1 ++ l2) acc
  = fold_left scan_cheat l2 (fold_left scan_cheat l1 acc).
Proof. apply fold_left_app. Qed.

(** The entry of a [CheatEntry] with an identifier and a script element:
    after the loop the element has a text and the identifier is a key. *)
Lemma get_assembler_scripts_records (tree : Element) (st : store)
    (cheat : Element) (k : str) (v : nat) :
  In cheat (iter CHEAT_TAG tree) ->
  entry_key st cheat = Some (k, v) ->
  (st v = None \/ st v = Some []) ->
  snd (get_assembler_scripts tree st) v = Some []
  /\ (exists w, dict_get (fst (get_assembler_scripts tree st)) k = Some w)
  /\ ((forall c w, In c (iter CHEAT_TAG tree) -> entry_key st c = Some (k, w) -> w = v) ->
      dict_get (fst (get_assembler_scripts tree st)) k = Some v).
Proof.
  intros Hin Hkey Hv.
  assert (K : fst (get_assembler_scripts tree st)
              = fold_left (record_entry st) (iter CHEAT_TAG tree) [])
    by (apply (fold_scan_keys st _ [] st (grows_refl st))).
  rewrite K. clear K. unfold get_assembler_scripts.
  destruct (in_split _ _ Hin) as (l1 & l2 & E). rewrite E.
  split.
  - rewrite fold_left_scan_app.
    destruct (fold_left scan_cheat l1 _) as [m1 st1] eqn:E1.
    assert (G1 : grows st st1).
    { change st1 with (snd (m1, st1)). rewrite <- E1. apply fold_scan_grows. }
    cbn [fold_left].
    destruct (scan_cheat (m1, st1) cheat) as [m2 st2] eqn:E2.
    assert (T2 : st2 v = Some []).
    { pose proof (scan_cheat_text m1 st1 cheat k v) as [Hn Hs].
      - rewrite (entry_key_grows st st1 cheat G1). exact Hkey.
      - rewrite E2 in Hn, Hs. simpl in Hn, Hs.
        destruct (G1 v) as [Ev|[_ Ev]].
        + destruct Hv as [Hv|Hv]; rewrite Hv in Ev; [apply Hn | apply Hs]; exact Ev.
        + apply Hs; exact Ev. }
    pose proof (fold_scan_grows l2 m2 st2) as G2.
    destruct (G2 v) as [Ev|[N _]]; [rewrite Ev; exact T2 | congruence].
  - rewrite fold_left_app. cbn [fold_left]. unfold record_entry at 2 5.
    rewrite Hkey. set (m1 := fold_left (record_entry st) l1 []).
    destruct (fold_keys_get st k v l2 (dict_set m1 k v) (dict_get_set_same m1 k v))
      as [Hex Hsame].
    split; [exact Hex|]. intros U. apply Hsame.
    intros c w Hc. apply U. apply in_or_app; right; right; exact Hc.
Qed.

(** C10, amended.  A [CheatEntry] of the document that has an [ID] child
    with a non-empty text and whose [AssemblerScript] child has no text:
    building the map sets the text of that child to the empty string and
    makes the stripped identifier a key of the map, with that child as its
    element when the entries of the document with this identifier all
    record that child.  Building the map changes no other kind of text;
    and the same holds when the document is the second of the two that
    [main] builds maps for, before any merge. *)
Theorem get_assembler_scripts_sets_empty_text :
  forall (tree : Element) (st : store) (cheat id_elem asm_elem : Element)
         (c : ascii) (t : str),
    In cheat (iter CHEAT_TAG tree) ->
    find_child ID_TAG cheat = Some id_elem ->
    st (ident id_elem) = Some (c :: t) ->
    find_child ASM_TAG cheat = Some asm_elem ->
    st (ident asm_elem) = None ->
    snd (get_assembler_scripts tree st) (ident asm_elem) = Some []
    /\ (exists e, dict_get (fst (get_assembler_scripts tree st)) (strip (c :: t)) = Some e)
    /\ ((forall cheat' e, In cheat' (iter CHEAT_TAG tree) ->
                          entry_key st cheat' = Some (strip (c :: t), e) ->
                          e = ident asm_elem) ->
        dict_get (fst (get_assembler_scripts tree st)) (strip (c :: t))
        = Some (ident asm_elem))
    /\ grows st (snd (get_assembler_scripts tree st))
    /\ (forall tree1, snd (build_maps tree1 tree st) (ident asm_elem) = Some []).
Proof.
  intros tree st cheat id_elem asm_elem c t Hin Hid Htext Hasm Hnone.
  assert (Hkey : entry_key st cheat = Some (strip (c :: t), ident asm_elem)).
  { unfold entry_key. rewrite Hid, Htext, Hasm. reflexivity. }
  destruct (get_assembler_scripts_records tree st cheat _ _ Hin Hkey (or_introl Hnone))
    as (H1 & H2 & H3).
  split; [exact H1|]. split; [exact H2|]. split; [exact H3|]. split.
  - apply fold_scan_grows.
  - intros tree1. unfold build_maps.
    destruct (get_assembler_scripts tree1 st) as [m1 st1] eqn:E1.
    assert (G1 : grows st st1).
    { change st1 with (snd (m1, st1)). rewrite <- E1. apply fold_scan_grows. }
    destruct (get_assembler_scripts tree st1) as [m2 st2] eqn:E2. simpl.
    assert (Hkey1 : entry_key st1 cheat = Some (strip (c :: t), ident asm_elem))
      by (rewrite (entry_key_grows st st1 cheat G1); exact Hkey).
    assert (Hv : st1 (ident asm_elem) = None \/ st1 (ident asm_elem) = Some []).
    { destruct (G1 (ident asm_elem)) as [Ev|[_ Ev]];
        [left; rewrite Ev; exact Hnone | right; exact Ev]. }
    destruct (get_assembler_scripts_records tree st1 cheat _ _ Hin Hkey1 Hv)
      as (H1' & _). rewrite E2 in H1'. exact H1'.
Qed.

Lemma get_assembler_scripts_sets_empty_text_witness :
  snd (get_assembler_scripts
         (Elem 0 (lit "CheatTable")
            [Elem 1 CHEAT_TAG [Elem 2 ID_TAG []; Elem 3 ASM_TAG []]])
         (fun i => if i =? 2 then Some (lit "7") else None)) 3
  = Some [].
Proof.
  apply (get_assembler_scripts_sets_empty_text
           (Elem 0 (lit "CheatTable")
              [Elem 1 CHEAT_TAG [Elem 2 ID_TAG []; Elem 3 ASM_TAG []]])
           (fun i => if i =? 2 then Some (lit "7") else None)
           (Elem 1 CHEAT_TAG [Elem 2 ID_TAG []; Elem 3 ASM_TAG []])
           (Elem 2 ID_TAG []) (Elem 3 ASM_TAG []) "7"%char []).
  - vm_compute. left. reflexivity.
  - reflexivity.
  - reflexivity.
  - reflexivity.
  - reflexivity.
Defined.

(** C10 as stated fails for a [CheatEntry] whose [ID] child has no text (or
    that has no [ID] child): its script element is left without text and
    the map stays empty. *)
Lemma get_assembler_scripts_counterexample :
  In (Elem 1 CHEAT_TAG [Elem 2 ID_TAG []; Elem 3 ASM_TAG []])
     (iter CHEAT_TAG
        (Elem 0 (lit "CheatTable")
           [Elem 1 CHEAT_TAG [Elem 2 ID_TAG []; Elem 3 ASM_TAG []]]))
  /\ find_child ASM_TAG (Elem 1 CHEAT_TAG [Elem 2 ID_TAG []; Elem 3 ASM_TAG []])
     = Some (Elem 3 ASM_TAG [])
  /\ get_assembler_scripts
       (Elem 0 (lit "CheatTable")
          [Elem 1 CHEAT_TAG [Elem 2 ID_TAG []; Elem 3 ASM_TAG []]])
       (fun _ => None)
     = ([], fun _ => None)
  /\ fst (get_assembler_scripts
            (Elem 0 (lit "CheatTable") [Elem 1 CHEAT_TAG [Elem 3 ASM_TAG []]])
            (fun _ => None))
     = []
  /\ snd (get_assembler_scripts
            (Elem 0 (lit "CheatTable") [Elem 1 CHEAT_TAG [Elem 3 ASM_TAG []]])
            (fun _ => None)) 3
     = None.
Proof.
  repeat split; try (vm_compute; reflexivity).
  vm_compute. left. reflexivity.
Qed.

Lemma failed_merge_leaves_entry_unchanged_witness :
  let st : store :=
    fun i => if i =? 1 then Some (lit "[ENABLE] jmp game.exe+1A")
             else if i =? 2 then Some (lit "[ENABLE] jmp game.exe+2B game.exe+2C")
             else None in
  merge_entry merge_asm_scripts [(lit "7", 2)] (mkTally st 0 0 0 []) (lit "7", 1)
  = mkTally st 0 0 1
      [LogError (lit "7")
         (ValueError
            (lit "Mismatch in dynamic values count in ENABLE sections (1 vs 2)"))].
Proof.
  intros st.
  apply (failed_merge_leaves_entry_unchanged merge_asm_scripts
           [(lit "7", 1)] [(lit "7", 2)] (lit "7") 1 2
           (ValueError
              (lit "Mismatch in dynamic values count in ENABLE sections (1 vs 2)"))
           (or_introl eq_refl) eq_refl).
  vm_compute. reflexivity.
Defined.

(** * Further properties *)

(** ** The merge orchestrator *)

(** [merge_asm_scripts] in terms of the tokens and templates of the
    sections. *)
Lemma merge_asm_scripts_eq (asm1 asm2 : str) :
  merge_asm_scripts asm1 asm2
  = if negb (length (enable_tokens asm1) =? length (enable_tokens asm2))
    then inl (ValueError (section_mismatch (lit "ENABLE")
                            (length (enable_tokens asm1))
                            (length (enable_tokens asm2))))
    else if negb (length (disable_tokens asm1) =? length (disable_tokens asm2))
    then inl (ValueError (section_mismatch (lit "DISABLE")
                            (length (disable_tokens asm1))
                            (length (disable_tokens asm2))))
    else
      match build_lua_config_table (lit "config_enable")
              (enable_tokens asm1) (enable_tokens asm2),
            build_lua_config_table (lit "config_disable")
              (disable_tokens asm1) (disable_tokens asm2) with
      | inr (cfg_e, n_e), inr (cfg_d, n_d) =>
          inr (merged_script cfg_e
                 (build_script_part (enable_template asm1) n_e
                    (lit "enableScript") (lit "addrE"))
                 cfg_d
                 (build_script_part (disable_template asm1) n_d
                    (lit "disableScript") (lit "addrD"))
                 (disable_logic (disable_template asm1) n_d))
      | inl e, _ => inl e
      | _, inl e => inl e
      end.
Proof.
  unfold merge_asm_scripts, enable_tokens, disable_tokens,
    enable_template, disable_template.
  destruct (split_asm_sections asm1) as [e1 d1].
  destruct (split_asm_sections asm2) as [e2 d2]. cbn [fst snd].
  destruct (process_section e1 DYN_PATTERN) as [te1 de1].
  destruct (process_section e2 DYN_PATTERN) as [te2 de2].
  destruct (process_section d1 DYN_PATTERN) as [td1 dd1].
  destruct (process_section d2 DYN_PATTERN) as [td2 dd2]. cbn [fst snd].
  destruct (negb (length de1 =? length de2)); [reflexivity|].
  destruct (negb (length dd1 =? length dd2)); [reflexivity|].
  destruct (build_lua_config_table (lit "config_enable") de1 de2) as [x|[cfg_e n_e]];
    [reflexivity|].
  destruct (build_lua_config_table (lit "config_disable") dd1 dd2) as [x|[cfg_d n_d]];
    reflexivity.
Qed.

(** [merge_asm_scripts] raises exactly when the two versions differ in the
    number of tokens of the activation section or of the deactivation
    section.  The activation section is checked first; the error names the
    section and gives both counts; the check of [build_lua_config_table]
    never fires here.  A script merges with itself. *)
Theorem merge_asm_scripts_fails_iff_section_mismatch :
  forall (asm1 asm2 : str),
    (length (enable_tokens asm1) <> length (enable_tokens asm2) ->
     merge_asm_scripts asm1 asm2
     = inl (ValueError
              (lit "Mismatch in dynamic values count in ENABLE sections ("
                 ++ str_of_nat (length (enable_tokens asm1)) ++ lit " vs "
                 ++ str_of_nat (length (enable_tokens asm2)) ++ lit ")")))
    /\ (length (enable_tokens asm1) = length (enable_tokens asm2) ->
        length (disable_tokens asm1) <> length (disable_tokens asm2) ->
        merge_asm_scripts asm1 asm2
        = inl (ValueError
                 (lit "Mismatch in dynamic values count in DISABLE sections ("
                    ++ str_of_nat (length (disable_tokens asm1)) ++ lit " vs "
                    ++ str_of_nat (length (disable_tokens asm2)) ++ lit ")")))
    /\ ((exists e, merge_asm_scripts asm1 asm2 = inl e)
        <-> (length (enable_tokens asm1) <> length (enable_tokens asm2)
             \/ length (disable_tokens asm1) <> length (disable_tokens asm2)))
    /\ (exists merged, merge_asm_scripts asm1 asm1 = inr merged).
Proof.
  intros asm1 asm2.
  assert (Hself : exists merged, merge_asm_scripts asm1 asm1 = inr merged).
  { rewrite merge_asm_scripts_eq. unfold build_lua_config_table.
    rewrite !Nat.eqb_refl. cbn [negb]. eexists; reflexivity. }
  rewrite merge_asm_scripts_eq. unfold build_lua_config_table, section_mismatch.
  destruct (Nat.eqb_spec (length (enable_tokens asm1)) (length (enable_tokens asm2)))
    as [Ee|Ne]; cbn [negb].
  - destruct (Nat.eqb_spec (length (disable_tokens asm1)) (length (disable_tokens asm2)))
      as [Ed|Nd]; cbn [negb].
    + repeat split; try (intros; contradiction); try exact Hself.
      * intros [e H]; discriminate.
      * intros [H|H]; contradiction.
    + repeat split; try (intros; contradiction); try exact Hself;
        try (intros; reflexivity).
      * intros _; right; exact Nd.
      * intros _; eexists; reflexivity.
  - repeat split; try (intros; contradiction); try exact Hself;
      try (intros; reflexivity).
    + intros _; left; exact Ne.
    + intros _; eexists; reflexivity.
Qed.

(** The second version enters the merged script through its tokens only:
    two second versions with the same tokens in both sections give the
    same result, whatever else their texts hold. *)
Theorem merge_asm_scripts_second_version_tokens_only :
  forall (asm1 asm2 asm2' : str),
    enable_tokens asm2 = enable_tokens asm2' ->
    disable_tokens asm2 = disable_tokens asm2' ->
    merge_asm_scripts asm1 asm2 = merge_asm_scripts asm1 asm2'.
Proof.
  intros asm1 asm2 asm2' He Hd. rewrite !merge_asm_scripts_eq, He, Hd. reflexivity.
Qed.

Lemma merge_asm_scripts_second_version_tokens_only_witness :
  merge_asm_scripts (lit "[ENABLE] jmp game.exe+1A [DISABLE] db 90")
                    (lit "[ENABLE] jmp game.exe+2B [DISABLE] db 90")
  = merge_asm_scripts (lit "[ENABLE] jmp game.exe+1A [DISABLE] db 90")
                      (lit "call game.exe+2B ; other text [disable] nop").
Proof.
  apply merge_asm_scripts_second_version_tokens_only; vm_compute; reflexivity.
Defined.

Lemma build_lua_config_table_equal (name : str) (l1 l2 : list str) :
  length l1 = length l2 ->
  exists table, build_lua_config_table name l1 l2 = inr (table, length l1).
Proof.
  intros H. unfold build_lua_config_table. rewrite H, Nat.eqb_refl.
  eexists; reflexivity.
Qed.

(** A pair of scripts without deactivation header and with as many tokens
    in one activation section as in the other merges into a script whose
    deactivation phase binds an empty literal and only clears the saved
    state. *)
Theorem merge_asm_scripts_without_deactivation :
  forall (asm1 asm2 : str),
    first_header (strip_header asm1) None ->
    first_header (strip_header asm2) None ->
    length (enable_tokens asm1) = length (enable_tokens asm2) ->
    exists cfg_e,
      build_lua_config_table (lit "config_enable")
        (enable_tokens asm1) (enable_tokens asm2)
      = inr (cfg_e, length (enable_tokens asm1))
      /\ merge_asm_scripts asm1 asm2
         = inr (merged_script cfg_e
                  (build_script_part (enable_template asm1)
                     (length (enable_tokens asm1))
                     (lit "enableScript") (lit "addrE"))
                  (lit "local config_disable = {" ++ [nl]
                     ++ lit "    [1] = {" ++ [nl] ++ [nl] ++ lit "    }," ++ [nl]
                     ++ lit "    [2] = {" ++ [nl] ++ [nl] ++ lit "    }" ++ [nl]
                     ++ lit "}")
                  (lit "local disableScript = [==[" ++ [nl] ++ [nl] ++ lit "]==]")
                  (lit "disableInfo = nil -- No disable script")).
Proof.
  intros asm1 asm2 H1 H2 Hlen.
  assert (D1 : snd (split_asm_sections asm1) = []).
  { unfold split_asm_sections, re_split_1.
    rewrite (re_search_first_header _ 0 None H1). reflexivity. }
  assert (D2 : snd (split_asm_sections asm2) = []).
  { unfold split_asm_sections, re_split_1.
    rewrite (re_search_first_header _ 0 None H2). reflexivity. }
  destruct (build_lua_config_table_equal (lit "config_enable") _ _ Hlen)
    as [cfg_e Hcfg].
  exists cfg_e. split; [exact Hcfg|].
  rewrite merge_asm_scripts_eq, Hcfg.
  unfold disable_tokens, disable_template. rewrite D1, D2.
  change (process_section [] DYN_PATTERN) with (@pair str (list str) [] []).
  cbn [fst snd length]. rewrite Hlen, !Nat.eqb_refl. cbn [negb].
  reflexivity.
Qed.

Lemma merge_asm_scripts_without_deactivation_witness :
  exists merged,
    merge_asm_scripts (lit "[ENABLE] jmp game.exe+1A") (lit "jmp game.exe+2B")
    = inr merged.
Proof.
  destruct (merge_asm_scripts_without_deactivation
              (lit "[ENABLE] jmp game.exe+1A") (lit "jmp game.exe+2B"))
    as (cfg & _ & H).
  - intros j [Hj H]. vm_compute in Hj.
    do 16 (destruct j as [|j]; [vm_compute in H; discriminate|]). lia.
  - intros j [Hj H]. vm_compute in Hj.
    do 16 (destruct j as [|j]; [vm_compute in H; discriminate|]). lia.
  - vm_compute. reflexivity.
  - eexists. exact H.
Defined.

(** ** The entry matcher, continued *)

Section EntryMatcherRun.

Variable merge : str -> str -> result str.
Variable M2 : dict nat.

Lemma merge_entry_success (acc : tally) (cheat_id : str) (e1 e2 : nat) (txt : str) :
  dict_get M2 cheat_id = Some e2 ->
  merge (text_or_empty (texts acc e1)) (text_or_empty (texts acc e2)) = inr txt ->
  merge_entry merge M2 acc (cheat_id, e1)
  = mkTally (set_text (texts acc) e1 (Some txt)) (merged_count acc + 1)
            (skipped_count acc) (error_count acc)
            (log acc ++ [LogMerged cheat_id]).
Proof. intros H2 Hm. unfold merge_entry. rewrite H2, Hm. reflexivity. Qed.

Lemma merge_entry_skip (acc : tally) (cheat_id : str) (e1 : nat) :
  dict_get M2 cheat_id = None ->
  merge_entry merge M2 acc (cheat_id, e1)
  = mkTally (texts acc) (merged_count acc) (skipped_count acc + 1)
            (error_count acc) (log acc ++ [LogSkipped cheat_id]).
Proof. intros H2. unfold merge_entry. rewrite H2. reflexivity. Qed.

(** The run cut at one of its entries. *)
Lemma merge_entries_at (l1 l2 : dict nat) (item : str * nat) (start : tally) :
  merge_entries merge (l1 ++ item :: l2) M2 start
  = merge_entries merge l2 M2
      (merge_entry merge M2 (merge_entries merge l1 M2 start) item).
Proof. rewrite merge_entries_app. reflexivity. Qed.

End EntryMatcherRun.

Lemma merge_entries_success :
  forall (merge : str -> str -> result str) (M1 M2 : dict nat) (st : store)
         (cheat_id : str) (e1 e2 : nat) (txt : str),
    NoDup (map snd M1) ->
    (forall k v, dict_get M2 k = Some v -> ~ In v (map snd M1)) ->
    In (cheat_id, e1) M1 ->
    dict_get M2 cheat_id = Some e2 ->
    merge (text_or_empty (st e1)) (text_or_empty (st e2)) = inr txt ->
    texts (merge_entries merge M1 M2 (mkTally st 0 0 0 [])) e1 = Some txt
    /\ In (LogMerged cheat_id)
          (log (merge_entries merge M1 M2 (mkTally st 0 0 0 [])))
    /\ 0 < merged_count (merge_entries merge M1 M2 (mkTally st 0 0 0 [])).
Proof.
  intros merge M1 M2 st cheat_id e1 e2 txt Hnd Hsep Hin H2 Hm.
  destruct (in_split _ _ Hin) as (l1 & l2 & ->).
  rewrite map_app in Hnd; simpl in Hnd.
  assert (Hn1 : ~ In e1 (map snd l1)).
  { intros H. apply NoDup_remove_2 in Hnd. apply Hnd.
    apply in_or_app; left; exact H. }
  assert (Hn2 : ~ In e1 (map snd l2)).
  { intros H. apply NoDup_remove_2 in Hnd. apply Hnd.
    apply in_or_app; right; exact H. }
  assert (Hn3 : ~ In e2 (map snd l1)).
  { intros H. apply (Hsep _ _ H2). rewrite map_app. apply in_or_app; left; exact H. }
  rewrite merge_entries_at.
  set (a1 := merge_entries merge l1 M2 (mkTally st 0 0 0 [])).
  assert (T1 : texts a1 e1 = st e1)
    by (apply (merge_entries_frame merge M2 l1 (mkTally st 0 0 0 []) e1 Hn1)).
  assert (T2 : texts a1 e2 = st e2)
    by (apply (merge_entries_frame merge M2 l1 (mkTally st 0 0 0 []) e2 Hn3)).
  rewrite (merge_entry_success merge M2 a1 cheat_id e1 e2 txt H2)
    by (rewrite T1, T2; exact Hm).
  set (a2 := mkTally _ _ _ _ _).
  destruct (merge_entries_log merge M2 l2 a2) as (rs & Hl & _ & Hmc & _).
  split; [|split].
  - rewrite (merge_entries_frame merge M2 l2 a2 e1 Hn2). subst a2. simpl.
    unfold set_text. rewrite Nat.eqb_refl. reflexivity.
  - rewrite Hl. apply in_or_app; left. subst a2; simpl.
    apply in_or_app; right; left; reflexivity.
  - rewrite Hmc. subst a2; simpl. lia.
Qed.

(** Two documents with distinct elements: an entry whose merge returns
    ends the run with the merged text as its script, and is logged and
    counted as merged. *)
Theorem merged_entry_holds_merged_text :
  forall (merge : str -> str -> result str) (M1 M2 : dict nat) (st : store)
         (cheat_id : str) (e1 e2 : nat) (txt : str),
    NoDup (map snd M1) ->
    (forall k v, dict_get M2 k = Some v -> ~ In v (map snd M1)) ->
    In (cheat_id, e1) M1 ->
    dict_get M2 cheat_id = Some e2 ->
    merge (text_or_empty (st e1)) (text_or_empty (st e2)) = inr txt ->
    texts (merge_entries merge M1 M2 (mkTally st 0 0 0 [])) e1 = Some txt
    /\ In (LogMerged cheat_id)
          (log (merge_entries merge M1 M2 (mkTally st 0 0 0 [])))
    /\ 0 < merged_count (merge_entries merge M1 M2 (mkTally st 0 0 0 [])).
Proof.
  intros merge M1 M2 st cheat_id e1 e2 txt Hnd Hsep Hin H2 Hm.
  apply (merge_entries_success merge M1 M2 st cheat_id e1 e2 txt Hnd Hsep Hin H2 Hm).
Qed.

Lemma merged_entry_holds_merged_text_witness :
  let st : store :=
    fun i => if i =? 1 then Some (lit "[ENABLE] nop") else
             if i =? 2 then Some (lit "[ENABLE] nop") else None in
  exists txt,
    merge_asm_scripts (lit "[ENABLE] nop") (lit "[ENABLE] nop") = inr txt
    /\ texts (merge_entries merge_asm_scripts [(lit "7", 1)] [(lit "7", 2)]
                (mkTally st 0 0 0 [])) 1 = Some txt.
Proof.
  intros st.
  destruct (merge_asm_scripts (lit "[ENABLE] nop") (lit "[ENABLE] nop"))
    as [e|txt] eqn:E; [vm_compute in E; discriminate|].
  exists txt. split; [reflexivity|].
  apply (merged_entry_holds_merged_text merge_asm_scripts
           [(lit "7", 1)] [(lit "7", 2)] st (lit "7") 1 2 txt).
  - repeat constructor. simpl. intros [].
  - intros k v H. cbn [dict_get] in H.
    destruct (str_eqb (lit "7") k); [|discriminate].
    inversion H; subst. simpl. intros [H1|[]]. lia.
  - left. reflexivity.
  - reflexivity.
  - exact E.
Defined.

Lemma merge_entries_skipped :
  forall (merge : str -> str -> result str) (M1 M2 : dict nat) (st : store)
         (cheat_id : str) (e1 : nat),
    NoDup (map snd M1) ->
    In (cheat_id, e1) M1 ->
    dict_get M2 cheat_id = None ->
    texts (merge_entries merge M1 M2 (mkTally st 0 0 0 [])) e1 = st e1
    /\ In (LogSkipped cheat_id)
          (log (merge_entries merge M1 M2 (mkTally st 0 0 0 [])))
    /\ 0 < skipped_count (merge_entries merge M1 M2 (mkTally st 0 0 0 [])).
Proof.
  intros merge M1 M2 st cheat_id e1 Hnd Hin H2.
  destruct (in_split _ _ Hin) as (l1 & l2 & ->).
  rewrite map_app in Hnd; simpl in Hnd.
  assert (Hn1 : ~ In e1 (map snd l1)).
  { intros H. apply NoDup_remove_2 in Hnd. apply Hnd.
    apply in_or_app; left; exact H. }
  assert (Hn2 : ~ In e1 (map snd l2)).
  { intros H. apply NoDup_remove_2 in Hnd. apply Hnd.
    apply in_or_app; right; exact H. }
  rewrite merge_entries_at.
  set (a1 := merge_entries merge l1 M2 (mkTally st 0 0 0 [])).
  assert (T1 : texts a1 e1 = st e1)
    by (apply (merge_entries_frame merge M2 l1 (mkTally st 0 0 0 []) e1 Hn1)).
  rewrite (merge_entry_skip merge M2 a1 cheat_id e1 H2).
  set (a2 := mkTally _ _ _ _ _).
  destruct (merge_entries_log merge M2 l2 a2) as (rs & Hl & _ & _ & _ & Hs & _).
  split; [|split].
  - rewrite (merge_entries_frame merge M2 l2 a2 e1 Hn2). exact T1.
  - rewrite Hl. apply in_or_app; left. subst a2; simpl.
    apply in_or_app; right; left; reflexivity.
  - rewrite Hs. subst a2; simpl. lia.
Qed.

(** An entry of the first document whose identifier is missing from the
    second map keeps its text to the end of the run and is logged as
    skipped, when no other identifier of the first map shares its element. *)
Theorem skipped_entry_untouched :
  forall (merge : str -> str -> result str) (M1 M2 : dict nat) (st : store)
         (cheat_id : str) (e1 : nat),
    NoDup (map snd M1) ->
    In (cheat_id, e1) M1 ->
    dict_get M2 cheat_id = None ->
    texts (merge_entries merge M1 M2 (mkTally st 0 0 0 [])) e1 = st e1
    /\ In (LogSkipped cheat_id)
          (log (merge_entries merge M1 M2 (mkTally st 0 0 0 [])))
    /\ 0 < skipped_count (merge_entries merge M1 M2 (mkTally st 0 0 0 [])).
Proof.
  intros merge M1 M2 st cheat_id e1 Hnd Hin H2.
  apply (merge_entries_skipped merge M1 M2 st cheat_id e1 Hnd Hin H2).
Qed.

Lemma skipped_entry_untouched_witness :
  texts (merge_entries merge_asm_scripts [(lit "7", 1)] [(lit "8", 2)]
           (mkTally (fun _ => Some (lit "[ENABLE] nop")) 0 0 0 [])) 1
  = Some (lit "[ENABLE] nop").
Proof.
  apply (skipped_entry_untouched merge_asm_scripts
           [(lit "7", 1)] [(lit "8", 2)] (fun _ => Some (lit "[ENABLE] nop"))
           (lit "7") 1).
  - repeat constructor. simpl. intros [].
  - left. reflexivity.
  - reflexivity.
Defined.

(** The merged document is written exactly when the first map is not
    empty: the number of merged entries never exceeds the size of the
    first map, so that the first half of the test of [main] adds nothing,
    and a run in which every entry failed or was skipped still writes. *)
Theorem writes_output_iff_first_map_not_empty :
  forall (M1 M2 : dict nat) (st : store),
    merged_count (merge_cheat_entries M1 M2 st) <= length M1
    /\ writes_output (merged_count (merge_cheat_entries M1 M2 st)) M1
       = negb (length M1 =? 0).
Proof.
  intros M1 M2 st. unfold merge_cheat_entries.
  destruct (merge_entries_log merge_asm_scripts M2 M1 (mkTally st 0 0 0 []))
    as (rs & _ & Hid & Hm & _).
  assert (Hle : merged_count
                  (merge_entries merge_asm_scripts M1 M2 (mkTally st 0 0 0 []))
                <= length M1).
  { rewrite Hm. simpl. rewrite <- (length_map fst M1), <- Hid, length_map.
    pose proof (count_kinds rs). lia. }
  split; [exact Hle|]. unfold writes_output.
  destruct (length M1) as [|n].
  - replace (merged_count _) with 0 by lia. reflexivity.
  - simpl. apply orb_true_r.
Qed.

(** ** The map builder, continued *)

Lemma dict_set_keys {V : Type} (d : dict V) (k : str) (v : V) (k' : str) :
  In k' (map fst (dict_set d k v)) <-> k' = k \/ In k' (map fst d).
Proof.
  induction d as [|[k0 v0] d IH]; simpl.
  - split; [intros [H|[]]; left; auto | intros [H|[]]; left; auto].
  - destruct (str_eqb k0 k) eqn:E; simpl.
    + apply str_eqb_eq in E. subst k0. intuition (subst; auto).
    + rewrite IH. intuition (subst; auto).
Qed.

Lemma dict_set_nodup {V : Type} (d : dict V) (k : str) (v : V) :
  NoDup (map fst d) -> NoDup (map fst (dict_set d k v)).
Proof.
  induction d as [|[k0 v0] d IH]; simpl; intros H.
  - constructor; [intros [] | constructor].
  - inversion H as [|? ? Hn Hd]; subst.
    destruct (str_eqb k0 k) eqn:E; simpl.
    + constructor; assumption.
    + constructor; [|apply IH; exact Hd].
      rewrite dict_set_keys. intros [->|Hin]; [|contradiction].
      rewrite str_eqb_refl in E. discriminate.
Qed.

Lemma dict_get_set_inv {V : Type} (d : dict V) (k k' : str) (v v' : V) :
  dict_get (dict_set d k v) k' = Some v' ->
  (k' = k /\ v' = v) \/ dict_get d k' = Some v'.
Proof.
  destruct (list_eq_dec ascii_dec k k') as [->|N].
  - rewrite dict_get_set_same. intros H; inversion H; auto.
  - rewrite dict_get_set_other by exact N. auto.
Qed.

(** What the recorded map holds: keys without repetition, each with the
    element recorded for some entry of the list. *)
Lemma fold_record_entry_inv (st : store) (cheats : list Element) :
  forall m,
    NoDup (map fst m) ->
    NoDup (map fst (fold_left (record_entry st) cheats m))
    /\ (forall k v,
          dict_get (fold_left (record_entry st) cheats m) k = Some v ->
          dict_get m k = Some v
          \/ exists c, In c cheats /\ entry_key st c = Some (k, v)).
Proof.
  induction cheats as [|c cheats IH]; intros m Hm; cbn [fold_left].
  - split; [exact Hm | intros k v H; left; exact H].
  - assert (Hm' : NoDup (map fst (record_entry st m c))).
    { unfold record_entry. destruct (entry_key st c) as [[k v]|];
        [apply dict_set_nodup|]; exact Hm. }
    destruct (IH _ Hm') as [Hn Hget]. split; [exact Hn|].
    intros k v H. destruct (Hget k v H) as [H1|(c' & Hin & Hk)].
    + unfold record_entry in H1. destruct (entry_key st c) as [[k1 v1]|] eqn:E.
      * destruct (dict_get_set_inv _ _ _ _ _ H1) as [[-> ->]|H2].
        -- right. exists c. split; [left; reflexivity | exact E].
        -- left; exact H2.
      * left; exact H1.
    + right. exists c'. split; [right; exact Hin | exact Hk].
Qed.

Lemma entry_key_inv (st : store) (cheat : Element) (k : str) (v : nat) :
  entry_key st cheat = Some (k, v) ->
  exists id_elem asm_elem c t,
    find_child ID_TAG cheat = Some id_elem
    /\ st (ident id_elem) = Some (c :: t)
    /\ k = strip (c :: t)
    /\ find_child ASM_TAG cheat = Some asm_elem
    /\ v = ident asm_elem.
Proof.
  unfold entry_key.
  destruct (find_child ID_TAG cheat) as [idn|]; [|discriminate].
  destruct (st (ident idn)) as [[|c t]|] eqn:Et; try discriminate.
  destruct (find_child ASM_TAG cheat) as [asm|]; [|discriminate].
  intros H; inversion H; subst. exists idn, asm, c, t. auto.
Qed.

(** The element recorded for an entry has a text once the map is built. *)
Lemma recorded_element_has_text (tree : Element) (st : store)
    (cheat : Element) (k : str) (v : nat) :
  In cheat (iter CHEAT_TAG tree) ->
  entry_key st cheat = Some (k, v) ->
  snd (get_assembler_scripts tree st) v <> None.
Proof.
  intros Hin Hkey. destruct (st v) as [x|] eqn:Ev.
  - pose proof (fold_scan_grows (iter CHEAT_TAG tree) [] st) as G.
    fold (get_assembler_scripts tree st) in G.
    destruct (G v) as [E|[E _]]; [rewrite E, Ev; discriminate | congruence].
  - destruct (get_assembler_scripts_records tree st cheat k v Hin Hkey (or_introl Ev))
      as [E _]. rewrite E. discriminate.
Qed.

(** The map that [get_assembler_scripts] returns has no key twice; each of
    its elements is the [AssemblerScript] child of a [CheatEntry] of the
    document whose [ID] child has a non-empty text that strips to the key;
    and each of its elements has a text (not [None]) in the store that the
    function leaves. *)
Theorem get_assembler_scripts_map_sound :
  forall (tree : Element) (st : store),
    NoDup (map fst (fst (get_assembler_scripts tree st)))
    /\ (forall k v,
          dict_get (fst (get_assembler_scripts tree st)) k = Some v ->
          (exists cheat id_elem asm_elem c t,
              In cheat (iter CHEAT_TAG tree)
              /\ find_child ID_TAG cheat = Some id_elem
              /\ st (ident id_elem) = Some (c :: t)
              /\ k = strip (c :: t)
              /\ find_child ASM_TAG cheat = Some asm_elem
              /\ v = ident asm_elem)
          /\ snd (get_assembler_scripts tree st) v <> None).
Proof.
  intros tree st.
  assert (K : fst (get_assembler_scripts tree st)
              = fold_left (record_entry st) (iter CHEAT_TAG tree) [])
    by (apply (fold_scan_keys st _ [] st (grows_refl st))).
  rewrite K.
  destruct (fold_record_entry_inv st (iter CHEAT_TAG tree) [] (NoDup_nil _))
    as [Hn Hget].
  split; [exact Hn|]. intros k v H.
  destruct (Hget k v H) as [H0|(cheat & Hin & Hkey)]; [discriminate|].
  split.
  - destruct (entry_key_inv st cheat k v Hkey)
      as (idn & asm & c & t & H1 & H2 & H3 & H4 & H5).
    exists cheat, idn, asm, c, t. auto 10.
  - apply (recorded_element_has_text tree st cheat k v Hin Hkey).
Qed.

Lemma scan_cheat_same_store (m : dict nat) (s : store) (cheat : Element) :
  (forall k v, entry_key s cheat = Some (k, v) -> s v <> None) ->
  snd (scan_cheat (m, s) cheat) = s.
Proof.
  unfold scan_cheat, entry_key.
  destruct (find_child ID_TAG cheat) as [idn|]; [|reflexivity].
  destruct (s (ident idn)) as [[|c t]|]; try reflexivity.
  destruct (find_child ASM_TAG cheat) as [asm|]; [|reflexivity].
  intros H. destruct (s (ident asm)) eqn:E; [reflexivity|].
  exfalso. apply (H _ _ eq_refl). exact E.
Qed.

Lemma fold_scan_same_store (s : store) (cheats : list Element) :
  (forall c k v, In c cheats -> entry_key s c = Some (k, v) -> s v <> None) ->
  forall m, snd (fold_left scan_cheat cheats (m, s)) = s.
Proof.
  induction cheats as [|c cheats IH]; intros H m; cbn [fold_left]; [reflexivity|].
  destruct (scan_cheat (m, s) c) as [m1 s1] eqn:E.
  assert (Es : s1 = s).
  { change s1 with (snd (m1, s1)). rewrite <- E. apply scan_cheat_same_store.
    intros k v. apply H. left; reflexivity. }
  subst s1. apply IH. intros c' k v Hin. apply H. right; exact Hin.
Qed.

Lemma fold_left_record_entry_ext (st st' : store) (cheats : list Element) :
  grows st st' ->
  forall m, fold_left (record_entry st') cheats m
            = fold_left (record_entry st) cheats m.
Proof.
  intros G. induction cheats as [|c cheats IH]; intros m; cbn [fold_left];
    [reflexivity|].
  unfold record_entry at 2 4. rewrite (entry_key_grows st st' c G). apply IH.
Qed.

(** Building the map a second time, from the store that the first
    construction has left, returns the same map and writes nothing. *)
Theorem get_assembler_scripts_idempotent :
  forall (tree : Element) (st : store),
    get_assembler_scripts tree (snd (get_assembler_scripts tree st))
    = get_assembler_scripts tree st.
Proof.
  intros tree st.
  set (st' := snd (get_assembler_scripts tree st)).
  assert (G : grows st st') by apply fold_scan_grows.
  assert (Hs : snd (get_assembler_scripts tree st') = st').
  { apply fold_scan_same_store. intros c k v Hin Hkey.
    rewrite (entry_key_grows st st' c G) in Hkey.
    apply (recorded_element_has_text tree st c k v Hin Hkey). }
  assert (Hm : fst (get_assembler_scripts tree st')
               = fst (get_assembler_scripts tree st)).
  { assert (K' : fst (get_assembler_scripts tree st')
                 = fold_left (record_entry st') (iter CHEAT_TAG tree) [])
      by (apply (fold_scan_keys st' _ [] st' (grows_refl st'))).
    assert (K : fst (get_assembler_scripts tree st)
                = fold_left (record_entry st) (iter CHEAT_TAG tree) [])
      by (apply (fold_scan_keys st _ [] st (grows_refl st))).
    rewrite K', K. apply fold_left_record_entry_ext. exact G. }
  rewrite (surjective_pairing (get_assembler_scripts tree st')), Hs, Hm.
  subst st'. symmetry. apply surjective_pairing.
Qed.

(** ** The map builder of [merge_script.py] *)

Lemma merge_script_fold_raised (st : store) (cheats : list Element) (e : exn) :
  fold_left (MergeScript.scan_cheat st) cheats (inl e) = inl e.
Proof. induction cheats as [|c cheats IH]; simpl; auto. Qed.

(** [merge_script.py] aborts on an entry that [merge.py] skips: its
    [get_assembler_scripts] raises exactly when some [CheatEntry] of the
    document has an [ID] child without text. *)
Theorem merge_script_get_assembler_scripts_raises_iff :
  forall (tree : Element) (st : store),
    (exists e, MergeScript.get_assembler_scripts tree st = inl e)
    <-> (exists cheat id_elem,
            In cheat (iter CHEAT_TAG tree)
            /\ find_child ID_TAG cheat = Some id_elem
            /\ st (ident id_elem) = None).
Proof.
  intros tree st. unfold MergeScript.get_assembler_scripts.
  generalize (@nil (str * nat) : dict nat) as m.
  generalize (iter CHEAT_TAG tree) as cheats.
  induction cheats as [|c cheats IH]; intros m.
  - simpl. split; [intros [e H]; discriminate | intros (x & y & [] & _)].
  - cbn [fold_left].
    destruct (MergeScript.scan_cheat st _ c) as [e|m1] eqn:E.
    + rewrite merge_script_fold_raised. split; [intros _|intros _; eexists; reflexivity].
      unfold MergeScript.scan_cheat in E.
      destruct (find_child ID_TAG c) as [idn|] eqn:Ei; [|discriminate].
      destruct (st (ident idn)) as [t|] eqn:Et.
      * destruct (find_child ASM_TAG c) as [asm|]; [|discriminate].
        destruct (st (ident asm)); discriminate.
      * exists c, idn. split; [left; reflexivity | auto].
    + rewrite (IH m1). split.
      * intros (x & y & Hin & H1 & H2). exists x, y. split; [right; exact Hin | auto].
      * intros (x & y & [->|Hin] & H1 & H2).
        -- exfalso. unfold MergeScript.scan_cheat in E. rewrite H1, H2 in E.
           discriminate.
        -- exists x, y. auto.
Qed.

(** On a document where every [ID] child of a [CheatEntry] has a non-empty
    text and every [AssemblerScript] child has a text, the two versions of
    [get_assembler_scripts] build the same map, and the one of [merge.py]
    writes nothing. *)
Theorem get_assembler_scripts_versions_agree :
  forall (tree : Element) (st : store),
    (forall cheat id_elem,
        In cheat (iter CHEAT_TAG tree) ->
        find_child ID_TAG cheat = Some id_elem ->
        exists c t, st (ident id_elem) = Some (c :: t)) ->
    (forall cheat asm_elem,
        In cheat (iter CHEAT_TAG tree) ->
        find_child ASM_TAG cheat = Some asm_elem ->
        st (ident asm_elem) <> None) ->
    MergeScript.get_assembler_scripts tree st
    = inr (fst (get_assembler_scripts tree st))
    /\ snd (get_assembler_scripts tree st) = st.
Proof.
  intros tree st. unfold MergeScript.get_assembler_scripts, get_assembler_scripts.
  generalize (@nil (str * nat) : dict nat) as m.
  generalize (iter CHEAT_TAG tree) as cheats.
  induction cheats as [|c cheats IH]; intros m Hid Hasm; cbn [fold_left].
  - split; reflexivity.
  - assert (Hstep : exists m1,
               scan_cheat (m, st) c = (m1, st)
               /\ MergeScript.scan_cheat st (inr m) c = inr m1).
    { unfold scan_cheat, MergeScript.scan_cheat.
      destruct (find_child ID_TAG c) as [idn|] eqn:Ei; [|eexists; split; reflexivity].
      destruct (Hid c idn (or_introl eq_refl) Ei) as (x & t & ->).
      destruct (find_child ASM_TAG c) as [asm|] eqn:Ea; [|eexists; split; reflexivity].
      pose proof (Hasm c asm (or_introl eq_refl) Ea) as Hn.
      destruct (st (ident asm)); [eexists; split; reflexivity | contradiction]. }
    destruct Hstep as (m1 & E1 & E2). rewrite E1, E2.
    apply IH.
    + intros cheat idn Hin. apply Hid. right; exact Hin.
    + intros cheat asm Hin. apply Hasm. right; exact Hin.
Qed.

Lemma get_assembler_scripts_versions_agree_witness :
  MergeScript.get_assembler_scripts
    (Elem 0 (lit "CheatTable")
       [Elem 1 CHEAT_TAG [Elem 2 ID_TAG []; Elem 3 ASM_TAG []]])
    (fun i => if i =? 2 then Some (lit "7") else Some (lit "[ENABLE] nop"))
  = inr [(lit "7", 3)].
Proof.
  destruct (get_assembler_scripts_versions_agree
              (Elem 0 (lit "CheatTable")
                 [Elem 1 CHEAT_TAG [Elem 2 ID_TAG []; Elem 3 ASM_TAG []]])
              (fun i => if i =? 2 then Some (lit "7") else Some (lit "[ENABLE] nop")))
    as [H _].
  - intros cheat idn Hin Hf. vm_compute in Hin. destruct Hin as [<-|[]].
    vm_compute in Hf. inversion Hf; subst. exists "7"%char, []. reflexivity.
  - intros cheat asm Hin Hf. vm_compute in Hin. destruct Hin as [<-|[]].
    vm_compute in Hf. inversion Hf; subst. discriminate.
  - rewrite H. vm_compute. reflexivity.
Defined.

(** ** The matcher and the grammar of tokens *)

(** What the backtracking matcher accepts is a word of the pattern,
    followed by a text that the continuation accepts. *)
Lemma rmatch_sound (r : regex) :
  forall (s : str) (k : str -> option str) (e : str),
    rmatch r s k = Some e ->
    exists u v, s = u ++ v /\ matches r u /\ k v = Some e.
Proof.
  induction r as [|p|a IHa b IHb|a IHa b IHb|a IHa|a IHa];
    intros s k e H; cbn [rmatch] in H.
  - exists [], s. repeat split; [constructor | exact H].
  - destruct s as [|c s']; [discriminate|].
    destruct (p c) eqn:Ep; [|discriminate].
    exists [c], s'. repeat split; [constructor; exact Ep | exact H].
  - apply IHa in H. destruct H as (u & v & -> & Hu & H).
    apply IHb in H. destruct H as (u' & v' & -> & Hu' & H).
    exists (u ++ u'), v'. rewrite app_assoc.
    repeat split; [constructor; assumption | exact H].
  - destruct (rmatch a s k) as [x|] eqn:E.
    + inversion H; subst x. apply IHa in E. destruct E as (u & v & -> & Hu & E).
      exists u, v. repeat split; [apply matches_alt_l; exact Hu | exact E].
    + apply IHb in H. destruct H as (u & v & -> & Hu & H).
      exists u, v. repeat split; [apply matches_alt_r; exact Hu | exact H].
  - revert H. generalize (length s) as n. intros n. revert s e.
    induction n as [|n IHn]; intros s e H.
    + apply IHa in H. destruct H as (u & v & -> & Hu & H).
      exists u, v. repeat split; [apply matches_plus_one; exact Hu | exact H].
    + apply IHa in H. destruct H as (u & v & -> & Hu & H).
      destruct (length v <? length (u ++ v)).
      * match type of H with
        | match ?t with _ => _ end = _ => destruct t as [x|] eqn:E
        end.
        -- inversion H; subst x. apply IHn in E.
           destruct E as (u' & v' & -> & Hu' & E).
           exists (u ++ u'), v'. rewrite app_assoc.
           repeat split; [apply matches_plus_more; assumption | exact E].
        -- exists u, v. repeat split; [apply matches_plus_one; exact Hu | exact H].
      * exists u, v. repeat split; [apply matches_plus_one; exact Hu | exact H].
  - destruct (rmatch a s k) as [x|] eqn:E.
    + inversion H; subst x. apply IHa in E. destruct E as (u & v & -> & Hu & E).
      exists u, v. repeat split; [apply matches_opt_some; exact Hu | exact E].
    + exists [], s. repeat split; [apply matches_opt_none | exact H].
Qed.

Lemma firstn_length_app (u v : str) : firstn (length u) (u ++ v) = u.
Proof. induction u as [|c u IH]; simpl; [destruct v|rewrite IH]; reflexivity. Qed.

Lemma match_len_sound (r : regex) (s : str) (n : nat) :
  match_len r s = Some n -> matches r (firstn n s).
Proof.
  unfold match_len. destruct (rmatch r s _) as [e|] eqn:E; [|discriminate].
  intros H; inversion H; subst n; clear H.
  apply rmatch_sound in E. destruct E as (u & v & -> & Hu & Hv).
  inversion Hv; subst e. rewrite length_app.
  replace (length u + length v - length v) with (length u) by lia.
  rewrite firstn_length_app. exact Hu.
Qed.

Lemma match_len_advancing_sound (r : regex) (s : str) (n : nat) :
  match_len_advancing r s = Some n -> matches r (firstn n s).
Proof.
  unfold match_len_advancing. destruct (rmatch r s _) as [e|] eqn:E; [|discriminate].
  intros H; inversion H; subst n; clear H.
  apply rmatch_sound in E. destruct E as (u & v & -> & Hu & Hv).
  destruct (length v <? length (u ++ v)); [|discriminate].
  inversion Hv; subst e. rewrite length_app.
  replace (length u + length v - length v) with (length u) by lia.
  rewrite firstn_length_app. exact Hu.
Qed.

Lemma skipn_tail (A : Type) (n : nat) :
  forall (l : list A) (c : A) (rest : list A),
    skipn n l = c :: rest -> skipn (S n) l = rest.
Proof.
  induction n as [|n IH]; intros l c rest H.
  - simpl in H. subst l. reflexivity.
  - destruct l as [|x l]; [discriminate|]. simpl in H. apply (IH l c rest H).
Qed.

Lemma slice_at (text : str) (pos n : nat) :
  slice text pos (pos + n) = firstn n (skipn pos text).
Proof. unfold slice. f_equal. lia. Qed.

(** Every span of [finditer] holds a word of the pattern. *)
Lemma finditer_from_matches (r : regex) (text : str) (s : str) :
  forall pos skip,
    skipn pos text = s ->
    Forall (fun span => matches r (slice text (fst span) (snd span)))
           (finditer_from r s pos skip).
Proof.
  induction s as [|c rest IH]; intros pos skip Hs; cbn [finditer_from].
  - destruct (match_len r []) as [n|] eqn:E; [|constructor].
    constructor; [|constructor]. cbn [fst snd].
    pose proof (match_len_le _ _ _ E) as Hn. simpl in Hn.
    apply match_len_sound in E. replace n with 0 in E by lia.
    unfold slice. rewrite Nat.sub_diag. exact E.
  - pose proof (skipn_tail _ _ _ _ _ Hs) as Hs'.
    destruct skip as [|k]; [|apply IH; exact Hs'].
    destruct (match_len r (c :: rest)) as [[|n]|] eqn:E.
    + constructor.
      * cbn [fst snd]. apply match_len_sound in E.
        unfold slice. rewrite Nat.sub_diag. exact E.
      * destruct (match_len_advancing r (c :: rest)) as [[|n]|] eqn:E';
          try (apply IH; exact Hs').
        constructor; [|apply IH; exact Hs'].
        cbn [fst snd]. rewrite slice_at, Hs.
        apply match_len_advancing_sound. exact E'.
    + constructor; [|apply IH; exact Hs'].
      cbn [fst snd]. rewrite slice_at, Hs. apply match_len_sound. exact E.
    + apply IH; exact Hs'.
Qed.

Lemma tokens_are_words (text : str) (pattern : regex) :
  Forall (matches pattern) (snd (process_section text pattern)).
Proof.
  rewrite process_section_eq. cbn [snd].
  unfold span_tokens, finditer.
  pose proof (finditer_from_matches pattern text text 0 0 eq_refl) as H.
  induction H as [|[a b] spans Hab _ IH]; simpl; constructor; assumption.
Qed.

(** Every token that [process_section] extracts is a word of the pattern
    it was given. *)
Theorem process_section_tokens_match :
  forall (text : str) (pattern : regex),
    Forall (matches pattern) (snd (process_section text pattern)).
Proof. intros text pattern. apply tokens_are_words. Qed.

Lemma matches_chr_inv (p : ascii -> bool) (u : str) :
  matches (Chr p) u -> exists c, u = [c] /\ p c = true.
Proof. intros H; inversion H; subst. eauto. Qed.

Lemma matches_plus_chr (p : ascii -> bool) (u : str) :
  matches (Plus (Chr p)) u -> u <> [] /\ forallb p u = true.
Proof.
  intros H. remember (Plus (Chr p)) as r eqn:Er.
  induction H; try discriminate; inversion Er; subst.
  - destruct (matches_chr_inv _ _ H) as (c & -> & Hc).
    split; [discriminate | simpl; rewrite Hc; reflexivity].
  - destruct (matches_chr_inv _ _ H) as (c & -> & Hc).
    destruct (IHmatches2 eq_refl) as [_ Hv].
    split; [discriminate | simpl; rewrite Hc; exact Hv].
Qed.

Lemma matches_lit_ci (w : str) :
  forall u, matches (lit_ci w) u ->
            length u = length w /\ ci_startswith u w = true.
Proof.
  induction w as [|a w IH]; intros u H; cbn [lit_ci] in H.
  - inversion H; subst. split; reflexivity.
  - inversion H as [| |? ? u1 u2 H1 H2| | | | | |]; subst.
    destruct (matches_chr_inv _ _ H1) as (c & -> & Hc).
    destruct (IH _ H2) as [Hl Hs].
    split; [simpl; rewrite Hl; reflexivity | simpl; rewrite Hc; exact Hs].
Qed.

Lemma matches_opt_chr (p : ascii -> bool) (u : str) :
  matches (Opt (Chr p)) u -> u = [] \/ exists c, u = [c] /\ p c = true.
Proof.
  intros H; inversion H; subst; [left; reflexivity|].
  right. apply matches_chr_inv. assumption.
Qed.

Lemma matches_dyn_pattern (w : str) :
  matches DYN_PATTERN w -> address_token w.
Proof.
  unfold DYN_PATTERN. intros H.
  inversion H as [| |? ? hd tl Hhd Htl| | | | | |]; subst; clear H.
  inversion Htl as [| |? ? hex colon Hhex Hcolon| | | | | |]; subst; clear Htl.
  destruct (matches_plus_chr _ _ Hhex) as [Hne Hh].
  assert (Hc : colon = [] \/ colon = lit ":").
  { destruct (matches_opt_chr _ _ Hcolon) as [->|(c & -> & Hc)]; [left; reflexivity|].
    right. unfold is_char in Hc. apply Ascii.eqb_eq in Hc. subst c. reflexivity. }
  inversion Hhd as [| | |? ? ? Hq|? ? ? Hu| | | |]; subst; clear Hhd.
  - inversion Hq as [| |? ? q1 r1 Hq1 Hr1| | | | | |]; subst; clear Hq.
    inversion Hr1 as [| |? ? name r2 Hname Hr2| | | | | |]; subst; clear Hr1.
    inversion Hr2 as [| |? ? ext r3 Hext Hr3| | | | | |]; subst; clear Hr2.
    inversion Hr3 as [| |? ? q2 pl Hq2 Hpl| | | | | |]; subst; clear Hr3.
    destruct (matches_chr_inv _ _ Hq1) as (c1 & -> & Hc1).
    destruct (matches_chr_inv _ _ Hq2) as (c2 & -> & Hc2).
    destruct (matches_chr_inv _ _ Hpl) as (c3 & -> & Hc3).
    unfold is_char in Hc1, Hc2, Hc3.
    apply Ascii.eqb_eq in Hc1, Hc2, Hc3. subst c1 c2 c3.
    destruct (matches_plus_chr _ _ Hname) as [Hnn Hnc].
    destruct (matches_lit_ci _ _ Hext) as [Hel Hes].
    exists name, ext, hex, colon. repeat split; auto.
    right. split; [exact Hnc|]. rewrite <- !app_assoc. reflexivity.
  - inversion Hu as [| |? ? name r2 Hname Hr2| | | | | |]; subst; clear Hu.
    inversion Hr2 as [| |? ? ext pl Hext Hpl| | | | | |]; subst; clear Hr2.
    destruct (matches_chr_inv _ _ Hpl) as (c3 & -> & Hc3).
    unfold is_char in Hc3. apply Ascii.eqb_eq in Hc3. subst c3.
    destruct (matches_plus_chr _ _ Hname) as [Hnn Hnc].
    destruct (matches_lit_ci _ _ Hext) as [Hel Hes].
    exists name, ext, hex, colon. repeat split; auto.
    left. split; [exact Hnc|]. rewrite <- !app_assoc. reflexivity.
Qed.

(** Every token extracted with [DYN_PATTERN] has the shape of an address:
    a module name ending in [.exe] in any letter case, bare (without
    whitespace, quote, plus, bracket, parenthesis, brace or comma) or
    between double quotes, then a plus sign, at least one hexadecimal digit
    and perhaps a colon.  No token is empty. *)
Theorem dyn_tokens_are_addresses :
  forall (text : str),
    Forall address_token (snd (process_section text DYN_PATTERN)).
Proof.
  intros text. pose proof (tokens_are_words text DYN_PATTERN) as H.
  induction H as [|w ws Hw _ IH]; constructor; [|exact IH].
  apply matches_dyn_pattern. exact Hw.
Qed.

Lemma address_token_has_plus (w : str) : address_token w -> In "+"%char w.
Proof.
  intros (name & ext & hex & colon & _ & _ & _ & _ & _ & _ & [[_ ->]|[_ ->]]).
  - do 2 (apply in_or_app; right). simpl. left; reflexivity.
  - do 4 (apply in_or_app; right). simpl. left; reflexivity.
Qed.

Lemma in_firstn_list (A : Type) (n : nat) :
  forall (l : list A) (x : A), In x (firstn n l) -> In x l.
Proof.
  induction n as [|n IH]; intros [|y l] x H; simpl in H; try contradiction.
  destruct H as [->|H]; [left; reflexivity | right; apply IH; exact H].
Qed.

Lemma in_skipn_list (A : Type) (n : nat) :
  forall (l : list A) (x : A), In x (skipn n l) -> In x l.
Proof.
  induction n as [|n IH]; intros [|y l] x H; simpl in H; try contradiction;
    try exact H.
  right; apply IH; exact H.
Qed.

Lemma in_slice (text : str) (a b : nat) (c : ascii) :
  In c (slice text a b) -> In c text.
Proof.
  unfold slice. intros H. apply in_firstn_list in H.
  apply in_skipn_list in H. exact H.
Qed.

(** A text without plus sign has no token: [process_section] with
    [DYN_PATTERN] returns the text itself as template and no token. *)
Theorem process_section_without_plus :
  forall (text : str),
    existsb (is_char "+") text = false ->
    process_section text DYN_PATTERN = (text, []).
Proof.
  intros text Hp.
  assert (Hno : ~ In "+"%char text).
  { intros Hin. assert (E : existsb (is_char "+") text = true).
    { apply existsb_exists. exists "+"%char. split; [exact Hin | reflexivity]. }
    rewrite E in Hp. discriminate. }
  pose proof (tokens_are_words text DYN_PATTERN) as H.
  rewrite process_section_eq in H. cbn [snd] in H.
  rewrite process_section_eq. unfold literal_chunks.
  destruct (finditer DYN_PATTERN text) as [|[a b] spans]; [reflexivity|].
  exfalso. unfold span_tokens in H. cbn [map] in H.
  inversion H as [|? ? Hw _]; subst.
  apply Hno. apply (in_slice text a b).
  apply address_token_has_plus. apply matches_dyn_pattern. exact Hw.
Qed.

Lemma process_section_without_plus_witness :
  process_section (lit "mov eax,[ebx-10] ; 100%") DYN_PATTERN
  = (lit "mov eax,[ebx-10] ; 100%", []).
Proof. apply process_section_without_plus. reflexivity. Defined.

Lemma chunks_lengths (text : str) (spans : list (nat * nat)) :
  forall last_index,
    spans_ok last_index (length text) spans ->
    length (join PCT_S (chunks_loop text spans last_index))
    + list_sum (map (@length ascii) (span_tokens text spans))
    = length (skipn last_index text) + 2 * length spans.
Proof.
  induction spans as [|[a b] more IH]; intros last_index Hok.
  - simpl. unfold slice_from. lia.
  - destruct Hok as (H1 & H2 & Hok). cbn [chunks_loop].
    destruct (chunks_loop_cons text more b) as (d & ds & E).
    specialize (IH b Hok). rewrite E in *. rewrite join_cons.
    cbn [span_tokens map list_sum fold_right length].
    fold (span_tokens text more).
    rewrite <- (slice_skipn text _ _ H1), <- (slice_skipn text _ _ H2).
    rewrite !length_app. change (length PCT_S) with 2.
    unfold list_sum in IH. lia.
Qed.

(** The characters of a text are all accounted for: the template and the
    tokens together are as long as the text plus two characters per
    token, for any pattern. *)
Theorem process_section_length_accounting :
  forall (text : str) (pattern : regex),
    length (fst (process_section text pattern))
    + list_sum (map (@length ascii) (snd (process_section text pattern)))
    = length text + 2 * length (snd (process_section text pattern)).
Proof.
  intros text pattern. rewrite process_section_eq. cbn [fst snd].
  unfold literal_chunks.
  rewrite (chunks_lengths text (finditer pattern text) 0 (finditer_ok pattern text)).
  unfold span_tokens. rewrite length_map. reflexivity.
Qed.

(** ** The escaping of [build_script_part] and [string.format] *)

Lemma replace_from_skip (old new o rest : str) :
  replace_from old new (o ++ rest) (length o) = replace_from old new rest 0.
Proof.
  induction o as [|y o IH]; [destruct rest; reflexivity|].
  cbn [app length replace_from]. exact IH.
Qed.

(** An occurrence at the head of the text is replaced and passed over. *)
Lemma replace_from_here (a : ascii) (o new rest : str) :
  replace_from (a :: o) new ((a :: o) ++ rest) 0
  = new ++ replace_from (a :: o) new rest 0.
Proof.
  change ((a :: o) ++ rest) with (a :: (o ++ rest)). cbn [replace_from].
  change (a :: o ++ rest) with ((a :: o) ++ rest). rewrite startswith_app.
  replace (length (a :: o) - 1) with (length o) by (simpl; lia).
  rewrite replace_from_skip. reflexivity.
Qed.

Lemma placeholder_free_cons (x : ascii) (c : str) :
  placeholder_free (x :: c) = true ->
  startswith (x :: c) PCT_S = false /\ placeholder_free c = true.
Proof.
  unfold placeholder_free. rewrite !negb_true_iff. cbn [contains].
  intros H. apply orb_false_iff in H. exact H.
Qed.

Lemma replace_placeholder_chunk (new c rest : str) :
  placeholder_free c = true ->
  (rest = [] \/ exists rest', rest = "%"%char :: rest') ->
  replace_from PCT_S new (c ++ rest) 0 = c ++ replace_from PCT_S new rest 0.
Proof.
  intros Hc Hr. induction c as [|x c IH]; [reflexivity|].
  destruct (placeholder_free_cons x c Hc) as [Hs Hc'].
  change ((x :: c) ++ rest) with (x :: (c ++ rest)). cbn [replace_from].
  rewrite (startswith_pct_s_app x c rest Hr), Hs, (IH Hc'). reflexivity.
Qed.

(** First pass: each placeholder between placeholder-free pieces becomes
    the marker. *)
Lemma replace_placeholders (new : str) (chunks : list str) :
  forallb placeholder_free chunks = true ->
  replace (join PCT_S chunks) PCT_S new = join new chunks.
Proof.
  unfold replace. induction chunks as [|c chunks IH]; intros H; [reflexivity|].
  cbn [forallb] in H. apply andb_true_iff in H. destruct H as [Hc H].
  destruct chunks as [|d more].
  - cbn [join]. rewrite <- (app_nil_r c) at 1.
    rewrite (replace_placeholder_chunk new c [] Hc) by (left; reflexivity).
    apply app_nil_r.
  - rewrite !join_cons.
    rewrite (replace_placeholder_chunk new c _ Hc) by (right; eexists; reflexivity).
    change (PCT_S ++ join PCT_S (d :: more))
      with (("%"%char :: ["s"%char]) ++ join PCT_S (d :: more)).
    change PCT_S with ("%"%char :: ["s"%char]) at 1.
    rewrite replace_from_here.
    change ("%"%char :: ["s"%char]) with PCT_S. rewrite (IH H). reflexivity.
Qed.

Lemma pct_escape_app (a b : str) : pct_escape (a ++ b) = pct_escape a ++ pct_escape b.
Proof. apply flat_map_app. Qed.

(** Second pass: the percent signs of the pieces are doubled, the markers
    stay. *)
Lemma pct_escape_join (chunks : list str) :
  replace (join TEMP_PLACEHOLDER chunks) (lit "%") (lit "%%")
  = join TEMP_PLACEHOLDER (map pct_escape chunks).
Proof.
  change (lit "%") with ["%"%char]. rewrite replace_char.
  fold (pct_escape (join TEMP_PLACEHOLDER chunks)).
  induction chunks as [|c chunks IH]; [reflexivity|].
  destruct chunks as [|d more]; [reflexivity|].
  change (map pct_escape (c :: d :: more))
    with (pct_escape c :: map pct_escape (d :: more)) in *.
  cbn [map] in IH. rewrite !join_cons, !pct_escape_app, IH. reflexivity.
Qed.

Lemma startswith_prefix (q t : str) :
  forall e rest,
    startswith (e ++ rest) (q ++ t) = true ->
    length q <= length e ->
    startswith e q = true.
Proof.
  induction q as [|a q IH]; intros e rest H Hl; [apply startswith_nil|].
  destruct e as [|x e]; [simpl in Hl; lia|].
  cbn [app startswith] in *. apply andb_true_iff in H. destruct H as [H1 H2].
  rewrite H1. simpl in Hl. apply (IH e rest H2). lia.
Qed.

Lemma startswith_suffix (e : str) :
  forall p rest,
    startswith (e ++ rest) p = true ->
    length e <= length p ->
    startswith rest (skipn (length e) p) = true.
Proof.
  induction e as [|x e IH]; intros p rest H Hl; [exact H|].
  destruct p as [|a p]; [simpl in Hl; lia|].
  cbn [app startswith] in H. apply andb_true_iff in H. destruct H as [_ H].
  simpl in Hl. cbn [length skipn]. apply IH; [exact H | lia].
Qed.

(** The marker overlaps itself in its two underscores only. *)
Lemma marker_no_border (k : nat) (rest : str) :
  1 <= k -> k <= 17 ->
  startswith (TEMP_PLACEHOLDER ++ rest) (skipn k TEMP_PLACEHOLDER) = false.
Proof.
  intros H1 H2.
  destruct k as [|k]; [exfalso; lia|].
  do 17 (destruct k as [|k]; [reflexivity|]).
  exfalso; lia.
Qed.

Lemma marker_free_cons (x : ascii) (e : str) :
  marker_free (x :: e) = true ->
  startswith (x :: e) MARKER_STEM = false /\ marker_free e = true.
Proof.
  unfold marker_free. rewrite !negb_true_iff. cbn [contains].
  intros H. apply orb_false_iff in H. exact H.
Qed.

(** No occurrence of the marker begins in a piece that does not hold its
    stem. *)
Lemma marker_not_in_chunk (x : ascii) (e rest : str) :
  marker_free (x :: e) = true ->
  (rest = [] \/ exists rest', rest = TEMP_PLACEHOLDER ++ rest') ->
  startswith ((x :: e) ++ rest) TEMP_PLACEHOLDER = false.
Proof.
  intros Hf Hr. destruct (marker_free_cons x e Hf) as [Hs _].
  destruct (startswith ((x :: e) ++ rest) TEMP_PLACEHOLDER) eqn:E; [|reflexivity].
  exfalso. destruct (le_lt_dec 18 (length (x :: e))) as [L|L].
  - change TEMP_PLACEHOLDER with (MARKER_STEM ++ lit "__") in E.
    rewrite (startswith_prefix MARKER_STEM (lit "__") (x :: e) rest E L) in Hs.
    discriminate.
  - destruct Hr as [->|[rest' ->]].
    + rewrite app_nil_r in E. apply startswith_length in E.
      change (length TEMP_PLACEHOLDER) with 20 in E. lia.
    + apply startswith_suffix in E;
        [|change (length TEMP_PLACEHOLDER) with 20; lia].
      rewrite marker_no_border in E; [discriminate | simpl; lia | lia].
Qed.

Lemma replace_marker_chunk (new e rest : str) :
  marker_free e = true ->
  (rest = [] \/ exists rest', rest = TEMP_PLACEHOLDER ++ rest') ->
  replace_from TEMP_PLACEHOLDER new (e ++ rest) 0
  = e ++ replace_from TEMP_PLACEHOLDER new rest 0.
Proof.
  intros He Hr. induction e as [|x e IH]; [reflexivity|].
  pose proof (marker_not_in_chunk x e rest He Hr) as Hs.
  destruct (marker_free_cons x e He) as [_ He'].
  change ((x :: e) ++ rest) with (x :: (e ++ rest)) in *. cbn [replace_from].
  rewrite Hs, (IH He'). reflexivity.
Qed.

(** Third pass: each marker between pieces that do not hold its stem
    becomes a placeholder again. *)
Lemma replace_markers (new : str) (chunks : list str) :
  forallb marker_free chunks = true ->
  replace (join TEMP_PLACEHOLDER chunks) TEMP_PLACEHOLDER new = join new chunks.
Proof.
  unfold replace. induction chunks as [|c chunks IH]; intros H; [reflexivity|].
  cbn [forallb] in H. apply andb_true_iff in H. destruct H as [Hc H].
  destruct chunks as [|d more].
  - cbn [join]. rewrite <- (app_nil_r c) at 1.
    rewrite (replace_marker_chunk new c [] Hc) by (left; reflexivity).
    apply app_nil_r.
  - rewrite !join_cons.
    rewrite (replace_marker_chunk new c _ Hc) by (right; eexists; reflexivity).
    assert (Eh : replace_from TEMP_PLACEHOLDER new
                   (TEMP_PLACEHOLDER ++ join TEMP_PLACEHOLDER (d :: more)) 0
                 = new ++ replace_from TEMP_PLACEHOLDER new
                            (join TEMP_PLACEHOLDER (d :: more)) 0)
      by (apply (replace_from_here "_"%char (lit "_TEMP_PLACEHOLDER__"))).
    rewrite Eh, (IH H). reflexivity.
Qed.

Lemma startswith_pct_escape (p : str) :
  forallb (fun a => negb (Ascii.eqb "%" a)) p = true ->
  forall s, startswith (pct_escape s) p = startswith s p.
Proof.
  induction p as [|a p IH]; intros Hp s.
  - rewrite !startswith_nil. reflexivity.
  - cbn [forallb] in Hp. apply andb_true_iff in Hp. destruct Hp as [Ha Hp].
    apply negb_true_iff in Ha.
    destruct s as [|c s]; [reflexivity|].
    unfold pct_escape. cbn [flat_map]. fold (pct_escape s).
    destruct (Ascii.eqb "%" c) eqn:Ec.
    + apply Ascii.eqb_eq in Ec. subst c.
      cbn [lit list_ascii_of_string app startswith].
      rewrite Ascii.eqb_sym, Ha. reflexivity.
    + cbn [app startswith]. rewrite (IH Hp s). reflexivity.
Qed.

(** Doubling the percent signs neither makes nor breaks the stem. *)
Lemma marker_free_pct_escape (s : str) :
  marker_free (pct_escape s) = marker_free s.
Proof.
  unfold marker_free. f_equal.
  induction s as [|c s IH]; [reflexivity|].
  pose proof (startswith_pct_escape MARKER_STEM eq_refl (c :: s)) as Hc.
  unfold pct_escape in *. cbn [flat_map] in *.
  destruct (Ascii.eqb "%" c) eqn:Ec.
  - apply Ascii.eqb_eq in Ec. subst c.
    cbn [lit list_ascii_of_string app contains] in *. rewrite IH.
    reflexivity.
  - cbn [app contains] in *. rewrite Hc, IH. reflexivity.
Qed.

(** The escaped template of a text whose pieces hold neither a placeholder
    nor the stem of the marker: the pieces with their percent signs
    doubled, joined by the placeholder. *)
Lemma template_escaped_join (chunks : list str) :
  forallb placeholder_free chunks = true ->
  forallb marker_free chunks = true ->
  template_escaped (join PCT_S chunks) = join PCT_S (map pct_escape chunks).
Proof.
  intros Hp Hm. unfold template_escaped.
  rewrite (replace_placeholders TEMP_PLACEHOLDER chunks Hp), pct_escape_join.
  apply replace_markers. rewrite forallb_forall in *.
  intros e He. apply in_map_iff in He. destruct He as (c & <- & Hc).
  rewrite marker_free_pct_escape. apply Hm. exact Hc.
Qed.

Lemma emit_emit (a b : str) (r : Lua.format_result) :
  Lua.emit a (Lua.emit b r) = Lua.emit (a ++ b) r.
Proof. destruct r; simpl; [rewrite app_assoc|..]; reflexivity. Qed.

(** [string.format] reads a piece with doubled percent signs as the piece. *)
Lemma format_escaped_chunk (c rest : str) (args : list str) :
  Lua.format_from (pct_escape c ++ rest) args false
  = Lua.emit c (Lua.format_from rest args false).
Proof.
  induction c as [|x c IH].
  - simpl. destruct (Lua.format_from rest args false); reflexivity.
  - unfold pct_escape. cbn [flat_map]. fold (pct_escape c).
    destruct (Ascii.eqb "%" x) eqn:Ex.
    + apply Ascii.eqb_eq in Ex. subst x.
      change ((lit "%%" ++ pct_escape c) ++ rest)
        with ("%"%char :: "%"%char :: (pct_escape c ++ rest)).
      cbn [Lua.format_from]. unfold is_char.
      replace (Ascii.eqb "%" "%") with true by reflexivity.
      rewrite IH. apply emit_emit.
    + change (([x] ++ pct_escape c) ++ rest) with (x :: (pct_escape c ++ rest)).
      cbn [Lua.format_from]. unfold is_char. rewrite Ex, IH. apply emit_emit.
Qed.

Lemma format_placeholder (rest t : str) (args : list str) :
  Lua.format_from (PCT_S ++ rest) (t :: args) false
  = Lua.emit t (Lua.format_from rest args false).
Proof. reflexivity. Qed.

Lemma no_cr_app (a b : str) : no_cr (a ++ b) = no_cr a && no_cr b.
Proof. apply forallb_app. Qed.

Lemma no_cr_pct_escape (s : str) : no_cr (pct_escape s) = no_cr s.
Proof.
  induction s as [|c s IH]; [reflexivity|].
  unfold pct_escape. cbn [flat_map]. fold (pct_escape s).
  rewrite no_cr_app, IH.
  destruct (Ascii.eqb "%" c) eqn:Ec.
  - apply Ascii.eqb_eq in Ec. subst c. reflexivity.
  - unfold no_cr. cbn [forallb]. rewrite andb_true_r. reflexivity.
Qed.

Lemma no_cr_join (chunks : list str) :
  forallb no_cr chunks = true ->
  no_cr (join PCT_S (map pct_escape chunks)) = true.
Proof.
  induction chunks as [|c chunks IH]; intros H; [reflexivity|].
  cbn [forallb] in H. apply andb_true_iff in H. destruct H as [Hc H].
  destruct chunks as [|d more].
  - cbn [map join]. rewrite no_cr_pct_escape. exact Hc.
  - change (map pct_escape (c :: d :: more))
      with (pct_escape c :: pct_escape d :: map pct_escape more).
    rewrite join_cons, !no_cr_app, no_cr_pct_escape, Hc.
    change (map pct_escape (d :: more))
      with (pct_escape d :: map pct_escape more) in IH.
    rewrite (IH H). reflexivity.
Qed.

(** A closing bracket cannot begin in [s] and run over a percent sign. *)
Lemma startswith_close_before_pct (s rest : str) :
  startswith (s ++ "%"%char :: rest) LONG_CLOSE = startswith s LONG_CLOSE.
Proof.
  unfold LONG_CLOSE, lit; cbn [list_ascii_of_string].
  destruct s as [|c1 [|c2 [|c3 [|c4 s]]]]; cbn [app startswith];
    rewrite ?startswith_nil; try reflexivity;
    repeat match goal with
           | |- context [Ascii.eqb ?a "%"%char] =>
               replace (Ascii.eqb a "%"%char) with false by reflexivity
           end; rewrite ?andb_false_r; reflexivity.
Qed.

Lemma contains_close_before_pct (s rest : str) :
  contains LONG_CLOSE (s ++ "%"%char :: rest)
  = contains LONG_CLOSE s || contains LONG_CLOSE rest.
Proof.
  induction s as [|c s IH].
  - reflexivity.
  - change ((c :: s) ++ "%"%char :: rest) with (c :: (s ++ "%"%char :: rest)).
    cbn [contains].
    change (c :: s ++ "%"%char :: rest) with ((c :: s) ++ "%"%char :: rest).
    rewrite startswith_close_before_pct, IH, orb_assoc. reflexivity.
Qed.

(** Doubling the percent signs neither makes nor breaks the bracket. *)
Lemma close_free_pct_escape (s : str) :
  contains LONG_CLOSE (pct_escape s) = contains LONG_CLOSE s.
Proof.
  induction s as [|c s IH]; [reflexivity|].
  pose proof (startswith_pct_escape LONG_CLOSE eq_refl (c :: s)) as Hc.
  unfold pct_escape in *. cbn [flat_map] in *.
  destruct (Ascii.eqb "%" c) eqn:Ec.
  - apply Ascii.eqb_eq in Ec. subst c.
    cbn [lit list_ascii_of_string app contains] in *. rewrite IH.
    reflexivity.
  - cbn [app contains] in *. rewrite Hc, IH. reflexivity.
Qed.

Lemma close_free_join (chunks : list str) :
  forallb close_free chunks = true ->
  contains LONG_CLOSE (join PCT_S (map pct_escape chunks)) = false.
Proof.
  induction chunks as [|c chunks IH]; intros H; [reflexivity|].
  cbn [forallb] in H. apply andb_true_iff in H. destruct H as [Hc H].
  unfold close_free in Hc. apply negb_true_iff in Hc.
  destruct chunks as [|d more].
  - cbn [map join]. rewrite close_free_pct_escape. exact Hc.
  - change (map pct_escape (c :: d :: more))
      with (pct_escape c :: pct_escape d :: map pct_escape more).
    rewrite join_cons.
    change (map pct_escape (d :: more))
      with (pct_escape d :: map pct_escape more) in IH.
    change (PCT_S ++ join PCT_S (pct_escape d :: map pct_escape more))
      with ("%"%char :: "s"%char :: join PCT_S (pct_escape d :: map pct_escape more)).
    rewrite contains_close_before_pct, close_free_pct_escape, Hc.
    cbn [orb contains]. rewrite (IH H). reflexivity.
Qed.

(** [string.format] on the escaped pieces joined by the placeholder and
    followed by [tail]: the pieces and the tokens in turn, then what [tail]
    gives. *)
Lemma format_chunks_then (text tail : str) (spans : list (nat * nat)) :
  forall last_index,
    spans_ok last_index (length text) spans ->
    Lua.format_from
      (join PCT_S (map pct_escape (chunks_loop text spans last_index)) ++ tail)
      (span_tokens text spans) false
    = Lua.emit (skipn last_index text) (Lua.format_from tail [] false).
Proof.
  induction spans as [|[a b] more IH]; intros last_index Hok.
  - cbn [chunks_loop map join span_tokens]. unfold slice_from.
    apply format_escaped_chunk.
  - destruct Hok as (H1 & H2 & Hok). cbn [chunks_loop].
    destruct (chunks_loop_cons text more b) as (d & ds & E).
    specialize (IH b Hok). rewrite E in *.
    change (map pct_escape (slice text last_index a :: d :: ds))
      with (pct_escape (slice text last_index a) :: pct_escape d :: map pct_escape ds).
    change (map pct_escape (d :: ds))
      with (pct_escape d :: map pct_escape ds) in IH.
    rewrite join_cons, <- !app_assoc, format_escaped_chunk.
    cbn [span_tokens map]. fold (span_tokens text more).
    rewrite format_placeholder, IH, !emit_emit.
    rewrite <- (slice_skipn text _ _ H1), <- (slice_skipn text _ _ H2).
    rewrite <- app_assoc. reflexivity.
Qed.

(** The formatting call that the merged script makes gives back the
    source with a line feed after it.  For a text with at least one token
    whose parts outside the tokens hold neither the placeholder, nor the
    stem of the marker of [build_script_part], nor the closing bracket of
    the long literal, nor a carriage return, the fragment that
    [build_script_part] emits for the template and the number of tokens of
    the text, evaluated with the tokens of the text as the values of the
    keys, formats to the text followed by one line feed, percent signs
    included. *)
Theorem escaped_template_formats_back :
  forall (text : str) (pattern : regex) (script_var addr_prefix : str),
    snd (process_section text pattern) <> [] ->
    forallb placeholder_free (literal_chunks text pattern) = true ->
    forallb marker_free (literal_chunks text pattern) = true ->
    forallb close_free (literal_chunks text pattern) = true ->
    forallb no_cr (literal_chunks text pattern) = true ->
    eval_local_format script_var addr_prefix
      (build_script_part (fst (process_section text pattern))
         (length (snd (process_section text pattern))) script_var addr_prefix)
      (snd (process_section text pattern))
    = Some (Lua.Formatted (text ++ [nl])).
Proof.
  intros text pattern script_var addr_prefix Hne Hp Hm Hc Hr.
  unfold eval_local_format, build_script_part.
  destruct (snd (process_section text pattern)) as [|t0 ts] eqn:Et;
    [contradiction|].
  change (0 <? length (t0 :: ts)) with true. cbv iota.
  replace (lit "local " ++ script_var ++ lit " = string.format("
             ++ LONG_OPEN ++ [nl]
             ++ template_escaped (fst (process_section text pattern)) ++ [nl]
             ++ LONG_CLOSE ++ lit ", " ++ dyn_keys addr_prefix (length (t0 :: ts))
             ++ lit ")")
    with ((lit "local " ++ script_var ++ lit " = string.format(")
            ++ LONG_OPEN ++ [nl]
            ++ template_escaped (fst (process_section text pattern)) ++ [nl]
            ++ LONG_CLOSE ++ lit ", " ++ dyn_keys addr_prefix (length (t0 :: ts))
            ++ lit ")")
    by (rewrite <- !app_assoc; reflexivity).
  rewrite startswith_app, skipn_length_app.
  unfold Lua.long_string. rewrite startswith_app, skipn_length_app.
  rewrite process_section_eq in *. cbn [fst snd] in *.
  rewrite (template_escaped_join _ Hp Hm).
  set (fmt := join PCT_S (map pct_escape (literal_chunks text pattern))).
  change ([nl] ++ fmt ++ [nl] ++ LONG_CLOSE
            ++ lit ", " ++ dyn_keys addr_prefix (length (t0 :: ts)) ++ lit ")")
    with (nl :: (fmt ++ nl :: LONG_CLOSE
                   ++ lit ", " ++ dyn_keys addr_prefix (length (t0 :: ts)) ++ lit ")")).
  cbv iota. replace (Lua.is_newline nl) with true by reflexivity.
  rewrite (long_body_plain_then fmt _ (Some nl));
    [|right; reflexivity | apply no_cr_join; exact Hr | apply close_free_join; exact Hc].
  rewrite str_eqb_refl. f_equal. unfold Lua.format, fmt, literal_chunks.
  rewrite <- Et.
  rewrite (format_chunks_then text [nl] (finditer pattern text) 0
             (finditer_ok pattern text)).
  reflexivity.
Qed.

Lemma escaped_template_formats_back_witness :
  eval_local_format (lit "enableScript") (lit "addrE")
    (build_script_part
       (fst (process_section (lit "jmp game.exe+1A ; 50% of return_here") DYN_PATTERN))
       1 (lit "enableScript") (lit "addrE"))
    [lit "game.exe+1A"]
  = Some (Lua.Formatted (lit "jmp game.exe+1A ; 50% of return_here" ++ [nl])).
Proof.
  apply (escaped_template_formats_back
           (lit "jmp game.exe+1A ; 50% of return_here") DYN_PATTERN
           (lit "enableScript") (lit "addrE"));
    [vm_compute; discriminate | reflexivity..].
Defined.

(** The escaping leaves a closing bracket of the source in the template:
    the literal of the formatting call is then cut at it. *)
Lemma format_fragment_cut_example :
  forallb placeholder_free
    (literal_chunks (lit "jmp game.exe+1A ; ]==] x") DYN_PATTERN) = true
  /\ forallb marker_free
       (literal_chunks (lit "jmp game.exe+1A ; ]==] x") DYN_PATTERN) = true
  /\ build_script_part
       (fst (process_section (lit "jmp game.exe+1A ; ]==] x") DYN_PATTERN))
       1 (lit "enableScript") (lit "addrE")
     = lit "local enableScript = string.format([==[" ++ [nl]
         ++ lit "jmp %s ; ]==] x" ++ [nl] ++ lit "]==], addrE.dynamic1)"
  /\ eval_local_format (lit "enableScript") (lit "addrE")
       (build_script_part
          (fst (process_section (lit "jmp game.exe+1A ; ]==] x") DYN_PATTERN))
          1 (lit "enableScript") (lit "addrE"))
       [lit "game.exe+1A"]
     = None.
Proof. repeat split; vm_compute; reflexivity. Qed.

(** ** Trimmed section bodies *)

Lemma lstrip_lstrip (s : str) : lstrip (lstrip s) = lstrip s.
Proof.
  induction s as [|c s IH]; [reflexivity|].
  cbn [lstrip]. destruct (isspace c) eqn:E; [exact IH|].
  cbn [lstrip]. rewrite E. reflexivity.
Qed.

Lemma lstrip_length (s : str) : length (lstrip s) <= length s.
Proof.
  induction s as [|c s IH]; [reflexivity|].
  cbn [lstrip]. destruct (isspace c); simpl; lia.
Qed.

(** What [rstrip] removes stands at the end. *)
Lemma rstrip_split (s : str) : exists w, s = rstrip s ++ w.
Proof.
  unfold rstrip. destruct (lstrip_split (rev s)) as (w & E & _).
  exists (rev w). rewrite <- rev_app_distr, <- E, rev_involutive. reflexivity.
Qed.

Lemma rstrip_rstrip (s : str) : rstrip (rstrip s) = rstrip s.
Proof. unfold rstrip. rewrite rev_involutive, lstrip_lstrip. reflexivity. Qed.

Lemma lstrip_fixed_prefix (p w : str) :
  lstrip (p ++ w) = p ++ w -> lstrip p = p.
Proof.
  destruct p as [|c p]; [reflexivity|].
  cbn [app lstrip]. destruct (isspace c) eqn:E; [|reflexivity].
  intros H. pose proof (lstrip_length (p ++ w)) as L.
  rewrite H in L. simpl in L. lia.
Qed.

Lemma strip_trimmed (s : str) :
  lstrip (strip s) = strip s /\ rstrip (strip s) = strip s.
Proof.
  unfold strip. split; [|apply rstrip_rstrip].
  destruct (rstrip_split (lstrip s)) as [w E].
  apply (lstrip_fixed_prefix _ w). rewrite <- E. apply lstrip_lstrip.
Qed.

(** Both bodies that [split_asm_sections] returns are trimmed: stripping
    either of them again, on the left or on the right, changes nothing. *)
Theorem split_asm_sections_bodies_trimmed :
  forall (text : str),
    (lstrip (fst (split_asm_sections text)) = fst (split_asm_sections text)
     /\ rstrip (fst (split_asm_sections text)) = fst (split_asm_sections text))
    /\ (lstrip (snd (split_asm_sections text)) = snd (split_asm_sections text)
        /\ rstrip (snd (split_asm_sections text)) = snd (split_asm_sections text)).
Proof.
  intros text. unfold split_asm_sections. cbn [fst snd].
  split; [apply strip_trimmed|].
  destruct (1 <? length _); [|split; reflexivity].
  destruct (2 <? length _); [apply strip_trimmed | split; reflexivity].
Qed.

(** ** Witnesses of two earlier lemmas *)

Lemma round_trip_only_if_placeholder_free_witness :
  forallb placeholder_free (literal_chunks (lit "jmp game.exe+1A ; 50%") DYN_PATTERN)
  = true.
Proof.
  apply (round_trip_only_if_placeholder_free
           (lit "jmp game.exe+1A ; 50%") DYN_PATTERN (lit "jmp game.exe+1A ; 50%")).
  vm_compute. reflexivity.
Defined.

Lemma escaped_token_reads_back_witness :
  Lua.short_body
    (safe_val (lit "C:" ++ [backslash] ++ lit "Game.exe+FF00") ++ dquote :: lit ",")
    false
  = Some (lit "C:" ++ [backslash] ++ lit "Game.exe+FF00", lit ",").
Proof. apply escaped_token_reads_back. reflexivity. Defined.

(** ** [merge_script.py]: the splitter and the loop of [main] *)

Lemma startswith_ci (w : str) :
  forall s, startswith s w = true -> ci_startswith s w = true.
Proof.
  induction w as [|a w IH]; intros [|b s] H; simpl in *; try reflexivity;
    try discriminate.
  apply andb_true_iff in H. destruct H as [H1 H2].
  apply Ascii.eqb_eq in H1. subst b. unfold ci_eqb. rewrite Ascii.eqb_refl.
  apply IH. exact H2.
Qed.

Lemma split_from_no_header (s : str) :
  forall cur,
    (forall j, ~ header_at s j) ->
    MergeScript.split_from DISABLE_HEADER s 0 cur = [cur ++ s].
Proof.
  induction s as [|c rest IH]; intros cur Hno.
  - simpl. rewrite app_nil_r. reflexivity.
  - cbn [MergeScript.split_from].
    destruct (startswith (c :: rest) DISABLE_HEADER) eqn:E.
    + exfalso. apply (Hno 0). apply header_at_0. apply startswith_ci. exact E.
    + rewrite IH.
      * rewrite <- app_assoc. reflexivity.
      * intros j Hj. apply (Hno (S j)). apply header_at_cons. exact Hj.
Qed.

(** On a script without deactivation header in any letter case the two
    versions of [split_asm_sections] agree: the activation body is the
    text after the leading header, trimmed, and the deactivation body is
    empty. *)
Theorem split_asm_sections_versions_agree_without_header :
  forall (text : str),
    first_header (strip_header text) None ->
    MergeScript.split_asm_sections text = split_asm_sections text
    /\ split_asm_sections text = (strip (strip_header text), []).
Proof.
  intros text Hno.
  assert (E2 : split_asm_sections text = (strip (strip_header text), [])).
  { unfold split_asm_sections, re_split_1.
    rewrite (re_search_first_header _ 0 None Hno). reflexivity. }
  split; [|exact E2]. rewrite E2.
  unfold MergeScript.split_asm_sections, MergeScript.split.
  rewrite (split_from_no_header (strip_header text) [] Hno). reflexivity.
Qed.

Lemma split_asm_sections_versions_agree_without_header_witness :
  MergeScript.split_asm_sections (lit "[ENABLE] nop")
  = split_asm_sections (lit "[ENABLE] nop").
Proof.
  apply split_asm_sections_versions_agree_without_header.
  intros j [Hj H]. vm_compute in Hj.
  do 4 (destruct j as [|j]; [vm_compute in H; discriminate|]). lia.
Defined.



(** ** Documents as trees, and the run of [main] *)

Lemma Element_induction (P : Element -> Prop) :
  (forall i t cs, Forall P cs -> P (Elem i t cs)) -> forall e, P e.
Proof.
  intros H. fix IH 1. intros [i t cs]. apply H.
  induction cs as [|c cs IHcs]; constructor; [apply IH | exact IHcs].
Qed.

Lemma iter_all_eq (e : Element) :
  iter_all e = e :: flat_map iter_all (children e).
Proof. destruct e; reflexivity. Qed.

Lemma iter_all_head (e : Element) : In e (iter_all e).
Proof. rewrite iter_all_eq. left; reflexivity. Qed.

(** The children of an element of the document are in the document. *)
Lemma iter_all_children (root : Element) :
  forall c x, In c (iter_all root) -> In x (children c) -> In x (iter_all root).
Proof.
  induction root as [i t cs IH] using Element_induction. intros c x Hc Hx.
  rewrite iter_all_eq in *. cbn [children] in *. rewrite Forall_forall in IH.
  right. apply in_flat_map. destruct Hc as [<-|Hc].
  - exists x. split; [exact Hx | apply iter_all_head].
  - apply in_flat_map in Hc. destruct Hc as (k & Hk & Hc).
    exists k. split; [exact Hk | apply (IH k Hk c x Hc Hx)].
Qed.

Lemma flat_children (l : list Element) (c x : Element) :
  In c (flat_map iter_all l) -> In x (children c) -> In x (flat_map iter_all l).
Proof.
  intros Hc Hx. apply in_flat_map in Hc. destruct Hc as (k & Hk & Hc).
  apply in_flat_map. exists k. split; [exact Hk | apply (iter_all_children k c x Hc Hx)].
Qed.

Lemma nodup_app_disjoint (A : Type) (l1 l2 : list A) (a : A) :
  NoDup (l1 ++ l2) -> In a l1 -> In a l2 -> False.
Proof.
  induction l1 as [|y l1 IH]; simpl; intros Hn H1 H2; [contradiction|].
  inversion Hn as [|? ? Hy Hn']; subst. destruct H1 as [->|H1].
  - apply Hy. apply in_or_app; right; exact H2.
  - apply (IH Hn' H1 H2).
Qed.

Lemma nodup_ident_same (l : list Element) (a b : Element) :
  NoDup (map ident l) -> In a l -> In b l -> ident a = ident b -> a = b.
Proof.
  induction l as [|y l IH]; simpl; intros Hn Ha Hb E; [contradiction|].
  inversion Hn as [|? ? Hy Hn']; subst.
  destruct Ha as [->|Ha], Hb as [->|Hb]; try reflexivity.
  - exfalso. apply Hy. rewrite E. apply in_map; exact Hb.
  - exfalso. apply Hy. rewrite <- E. apply in_map; exact Ha.
  - apply (IH Hn' Ha Hb E).
Qed.

Lemma nodup_ident_disjoint (l1 l2 : list Element) (x : Element) :
  NoDup (map ident (l1 ++ l2)) -> In x l1 -> In x l2 -> False.
Proof.
  rewrite map_app. intros Hn H1 H2.
  apply (nodup_app_disjoint _ _ _ (ident x) Hn); apply in_map; assumption.
Qed.

(** In a document whose elements are distinct objects no child of the
    listed elements lies below another place of the list. *)
Lemma child_not_below (cs : list Element) :
  NoDup (map ident (flat_map iter_all cs)) ->
  forall c x, In x cs -> In c (flat_map iter_all cs) -> In x (children c) -> False.
Proof.
  induction cs as [|k cs IH]; intros Hn c x Hx Hc Hch; [contradiction|].
  cbn [flat_map] in *.
  assert (Hn2 : NoDup (map ident (flat_map iter_all cs)))
    by (rewrite map_app in Hn; apply NoDup_app_remove_l in Hn; exact Hn).
  assert (Hn1 : NoDup (map ident (iter_all k)))
    by (rewrite map_app in Hn; apply NoDup_app_remove_r in Hn; exact Hn).
  apply in_app_or in Hc. destruct Hx as [<-|Hx], Hc as [Hc|Hc].
  - rewrite iter_all_eq in Hn1, Hc. cbn [map] in Hn1.
    inversion Hn1 as [|? ? Hk _]; subst. apply Hk. apply in_map.
    destruct Hc as [<-|Hc].
    + apply in_flat_map. exists k. split; [exact Hch | apply iter_all_head].
    + apply (flat_children _ c k Hc Hch).
  - apply (nodup_ident_disjoint _ _ k Hn (iter_all_head k)).
    apply (flat_children _ c k Hc Hch).
  - apply (nodup_ident_disjoint _ _ x Hn).
    + apply (iter_all_children k c x Hc Hch).
    + apply in_flat_map. exists x. split; [exact Hx | apply iter_all_head].
  - apply (IH Hn2 c x Hx Hc Hch).
Qed.

Lemma parent_unique_below (cs : list Element) :
  Forall (fun k => forall c1 c2 x,
              NoDup (map ident (iter_all k)) ->
              In c1 (iter_all k) -> In c2 (iter_all k) ->
              In x (children c1) -> In x (children c2) -> c1 = c2) cs ->
  NoDup (map ident (flat_map iter_all cs)) ->
  forall c1 c2 x,
    In c1 (flat_map iter_all cs) -> In c2 (flat_map iter_all cs) ->
    In x (children c1) -> In x (children c2) -> c1 = c2.
Proof.
  induction cs as [|k cs IH]; intros HP Hn c1 c2 x H1 H2 Hx1 Hx2; [contradiction|].
  inversion HP as [|? ? Hk HP']; subst. cbn [flat_map] in *.
  assert (Hn2 : NoDup (map ident (flat_map iter_all cs)))
    by (rewrite map_app in Hn; apply NoDup_app_remove_l in Hn; exact Hn).
  assert (Hn1 : NoDup (map ident (iter_all k)))
    by (rewrite map_app in Hn; apply NoDup_app_remove_r in Hn; exact Hn).
  apply in_app_or in H1. apply in_app_or in H2.
  destruct H1 as [H1|H1], H2 as [H2|H2].
  - apply (Hk c1 c2 x Hn1 H1 H2 Hx1 Hx2).
  - exfalso. apply (nodup_ident_disjoint _ _ x Hn).
    + apply (iter_all_children k c1 x H1 Hx1).
    + apply (flat_children _ c2 x H2 Hx2).
  - exfalso. apply (nodup_ident_disjoint _ _ x Hn).
    + apply (iter_all_children k c2 x H2 Hx2).
    + apply (flat_children _ c1 x H1 Hx1).
  - apply (IH HP' Hn2 c1 c2 x H1 H2 Hx1 Hx2).
Qed.

(** In a document whose elements are distinct objects an element is the
    child of one element only. *)
Lemma parent_unique (root : Element) :
  forall c1 c2 x,
    NoDup (map ident (iter_all root)) ->
    In c1 (iter_all root) -> In c2 (iter_all root) ->
    In x (children c1) -> In x (children c2) -> c1 = c2.
Proof.
  induction root as [i t cs IH] using Element_induction.
  intros c1 c2 x Hn H1 H2 Hx1 Hx2.
  rewrite iter_all_eq in *. cbn [children map] in *.
  inversion Hn as [|? ? _ Hn']; subst.
  destruct H1 as [<-|H1], H2 as [<-|H2].
  - reflexivity.
  - exfalso. cbn [children] in Hx1. apply (child_not_below cs Hn' c2 x Hx1 H2 Hx2).
  - exfalso. cbn [children] in Hx2. apply (child_not_below cs Hn' c1 x Hx2 H1 Hx1).
  - apply (parent_unique_below cs IH Hn' c1 c2 x H1 H2 Hx1 Hx2).
Qed.

Lemma find_child_in (t : str) (e x : Element) :
  find_child t e = Some x -> In x (children e).
Proof. unfold find_child. intros H. apply find_some in H. apply H. Qed.

Lemma iter_in_all (t : str) (root c : Element) :
  In c (iter t root) -> In c (iter_all root).
Proof. unfold iter. intros H. apply filter_In in H. apply H. Qed.

Lemma dict_get_in {V : Type} (d : dict V) (k : str) (v : V) :
  dict_get d k = Some v -> In (k, v) d.
Proof.
  induction d as [|[k0 v0] d IH]; simpl; [discriminate|].
  destruct (str_eqb k0 k) eqn:E.
  - apply str_eqb_eq in E. subst k0. intros H; inversion H; subst. left; reflexivity.
  - intros H. right. apply IH; exact H.
Qed.

Lemma in_dict_get {V : Type} (d : dict V) (k : str) (v : V) :
  NoDup (map fst d) -> In (k, v) d -> dict_get d k = Some v.
Proof.
  induction d as [|[k0 v0] d IH]; simpl; intros Hn Hin; [contradiction|].
  inversion Hn as [|? ? Hk Hn']; subst. destruct Hin as [E|Hin].
  - inversion E; subst. rewrite str_eqb_refl. reflexivity.
  - destruct (str_eqb k0 k) eqn:E; [|apply IH; assumption].
    apply str_eqb_eq in E. subst k0. exfalso. apply Hk.
    apply (in_map fst) in Hin. exact Hin.
Qed.

Lemma nodup_values {V : Type} (d : dict V) :
  NoDup (map fst d) ->
  (forall k1 v1 k2 v2, In (k1, v1) d -> In (k2, v2) d -> v1 = v2 -> k1 = k2) ->
  NoDup (map snd d).
Proof.
  induction d as [|[k v] d IH]; simpl; intros Hn Hinj; [constructor|].
  inversion Hn as [|? ? Hk Hn']; subst. constructor.
  - intros Hv. apply in_map_iff in Hv. destruct Hv as ([k' v'] & E & Hin).
    simpl in E. subst v'. apply Hk.
    rewrite (Hinj k v k' v (or_introl eq_refl) (or_intror Hin) eq_refl).
    apply (in_map fst) in Hin. exact Hin.
  - apply IH; [exact Hn'|]. intros k1 v1 k2 v2 H1 H2. apply Hinj; right; assumption.
Qed.

(** Where an entry of the map comes from. *)
Lemma map_entry_origin (tree : Element) (st : store) (k : str) (v : nat) :
  In (k, v) (fst (get_assembler_scripts tree st)) ->
  exists cheat asm_elem,
    In cheat (iter_all tree)
    /\ entry_key st cheat = Some (k, v)
    /\ In asm_elem (children cheat)
    /\ In asm_elem (iter_all tree)
    /\ ident asm_elem = v.
Proof.
  assert (K : fst (get_assembler_scripts tree st)
              = fold_left (record_entry st) (iter CHEAT_TAG tree) [])
    by (apply (fold_scan_keys st _ [] st (grows_refl st))).
  rewrite K. intros Hin.
  destruct (fold_record_entry_inv st (iter CHEAT_TAG tree) [] (NoDup_nil _))
    as [Hn Hget].
  destruct (Hget k v (in_dict_get _ k v Hn Hin)) as [H0|(cheat & Hc & Hkey)];
    [discriminate|].
  apply iter_in_all in Hc.
  destruct (entry_key_inv st cheat k v Hkey)
    as (idn & asm & c & t & _ & _ & _ & Hasm & ->).
  apply find_child_in in Hasm.
  exists cheat, asm. repeat split; auto.
  apply (iter_all_children tree cheat asm Hc Hasm).
Qed.

Lemma map_keys_nodup (tree : Element) (st : store) :
  NoDup (map fst (fst (get_assembler_scripts tree st))).
Proof.
  assert (K : fst (get_assembler_scripts tree st)
              = fold_left (record_entry st) (iter CHEAT_TAG tree) [])
    by (apply (fold_scan_keys st _ [] st (grows_refl st))).
  rewrite K. apply (fold_record_entry_inv st _ [] (NoDup_nil _)).
Qed.

Lemma map_elements_distinct (tree : Element) (st : store) :
  NoDup (map ident (iter_all tree)) ->
  NoDup (map snd (fst (get_assembler_scripts tree st))).
Proof.
  intros Hn. apply nodup_values; [apply map_keys_nodup|].
  intros k1 v1 k2 v2 H1 H2 Ev.
  destruct (map_entry_origin tree st k1 v1 H1) as (c1 & a1 & Hc1 & Hk1 & Ha1 & Hi1 & E1).
  destruct (map_entry_origin tree st k2 v2 H2) as (c2 & a2 & Hc2 & Hk2 & Ha2 & Hi2 & E2).
  assert (Ea : a1 = a2)
    by (apply (nodup_ident_same _ a1 a2 Hn Hi1 Hi2); congruence).
  subst a2.
  assert (Ec : c1 = c2) by (apply (parent_unique tree c1 c2 a1 Hn Hc1 Hc2 Ha1 Ha2)).
  subst c2. rewrite Hk1 in Hk2. inversion Hk2. reflexivity.
Qed.

(** In a document whose elements are distinct objects, the map of
    [get_assembler_scripts] gives different identifiers different script
    elements. *)
Theorem get_assembler_scripts_elements_distinct :
  forall (tree : Element) (st : store),
    NoDup (map ident (iter_all tree)) ->
    NoDup (map snd (fst (get_assembler_scripts tree st))).
Proof. intros tree st Hn. apply (map_elements_distinct tree st Hn). Qed.

Lemma get_assembler_scripts_elements_distinct_witness :
  NoDup (map snd (fst (get_assembler_scripts
                         (Elem 0 (lit "CheatTable")
                            [Elem 1 CHEAT_TAG [Elem 2 ID_TAG []; Elem 3 ASM_TAG []];
                             Elem 4 CHEAT_TAG [Elem 5 ID_TAG []; Elem 6 ASM_TAG []]])
                         (fun i => if i =? 2 then Some (lit "7")
                                   else if i =? 5 then Some (lit "8") else None)))).
Proof.
  apply get_assembler_scripts_elements_distinct.
  vm_compute. repeat constructor; simpl; intuition discriminate.
Defined.

Lemma main_merge_eq (tree1 tree2 : Element) (st : store) :
  main_merge tree1 tree2 st
  = merge_cheat_entries
      (fst (get_assembler_scripts tree1 st))
      (fst (get_assembler_scripts tree2 (snd (get_assembler_scripts tree1 st))))
      (snd (get_assembler_scripts tree2 (snd (get_assembler_scripts tree1 st)))).
Proof.
  unfold main_merge, build_maps.
  destruct (get_assembler_scripts tree1 st) as [m1 st1]. cbn [fst snd].
  destruct (get_assembler_scripts tree2 st1) as [m2 st2]. reflexivity.
Qed.

Lemma map_value_in_tree (tree : Element) (st : store) (v : nat) :
  In v (map snd (fst (get_assembler_scripts tree st))) ->
  In v (map ident (iter_all tree)).
Proof.
  intros H. apply in_map_iff in H. destruct H as ([k v'] & E & Hin).
  simpl in E. subst v'.
  destruct (map_entry_origin tree st k v Hin) as (_ & a & _ & _ & _ & Ha & <-).
  apply in_map. exact Ha.
Qed.

(** The run of [main] on two documents whose elements are all distinct
    objects, from the store [st2] that the construction of the two maps
    leaves.  The merge writes nothing into the second document.  An entry
    of the first document found in both maps ends with the merged text
    when the merge of the two texts returns, and with its own text when it
    raises.  An entry missing from the second map keeps its text. *)
Theorem main_merge_outcome :
  forall (tree1 tree2 : Element) (st : store),
    NoDup (map ident (iter_all tree1 ++ iter_all tree2)) ->
    let st1 := snd (get_assembler_scripts tree1 st) in
    let asm_map1 := fst (get_assembler_scripts tree1 st) in
    let asm_map2 := fst (get_assembler_scripts tree2 st1) in
    let st2 := snd (get_assembler_scripts tree2 st1) in
    (forall y, In y (iter_all tree2) ->
       texts (main_merge tree1 tree2 st) (ident y) = st2 (ident y))
    /\ (forall k e1 e2,
          dict_get asm_map1 k = Some e1 ->
          dict_get asm_map2 k = Some e2 ->
          match merge_asm_scripts (text_or_empty (st2 e1))
                                  (text_or_empty (st2 e2)) with
          | inl _ => texts (main_merge tree1 tree2 st) e1 = st2 e1
          | inr merged => texts (main_merge tree1 tree2 st) e1 = Some merged
          end)
    /\ (forall k e1,
          dict_get asm_map1 k = Some e1 ->
          dict_get asm_map2 k = None ->
          texts (main_merge tree1 tree2 st) e1 = st2 e1).
Proof.
  intros tree1 tree2 st Hn st1 m1 m2 st2.
  rewrite main_merge_eq. fold st1 m1 m2 st2. unfold merge_cheat_entries.
  assert (Hn1 : NoDup (map ident (iter_all tree1)))
    by (rewrite map_app in Hn; apply NoDup_app_remove_r in Hn; exact Hn).
  assert (ND : NoDup (map snd m1)) by (apply map_elements_distinct; exact Hn1).
  assert (Hout : forall v, In v (map ident (iter_all tree2)) -> ~ In v (map snd m1)).
  { intros v H2 H1. apply map_value_in_tree in H1.
    rewrite map_app in Hn. apply (nodup_app_disjoint _ _ _ v Hn H1 H2). }
  assert (Sep : forall k v, dict_get m2 k = Some v -> ~ In v (map snd m1)).
  { intros k v H. apply Hout. apply (map_value_in_tree tree2 st1).
    apply in_map_iff. exists (k, v). split; [reflexivity | apply dict_get_in; exact H]. }
  split; [|split].
  - intros y Hy.
    apply (merge_entries_frame merge_asm_scripts m2 m1 (mkTally st2 0 0 0 [])).
    apply Hout. apply in_map. exact Hy.
  - intros k e1 e2 H1 H2. apply dict_get_in in H1.
    destruct (merge_asm_scripts (text_or_empty (st2 e1)) (text_or_empty (st2 e2)))
      as [err|txt] eqn:E.
    + apply (merge_entries_failure merge_asm_scripts m1 m2 st2 k e1 e2 err
               ND Sep H1 H2 E).
    + apply (merge_entries_success merge_asm_scripts m1 m2 st2 k e1 e2 txt
               ND Sep H1 H2 E).
  - intros k e1 H1 H2. apply dict_get_in in H1.
    apply (merge_entries_skipped merge_asm_scripts m1 m2 st2 k e1 ND H1 H2).
Qed.

Lemma main_merge_outcome_witness :
  texts (main_merge
           (Elem 0 (lit "CheatTable")
              [Elem 1 CHEAT_TAG [Elem 2 ID_TAG []; Elem 3 ASM_TAG []]])
           (Elem 10 (lit "CheatTable")
              [Elem 11 CHEAT_TAG [Elem 12 ID_TAG []; Elem 13 ASM_TAG []]])
           (fun i => if i =? 2 then Some (lit "7")
                     else if i =? 12 then Some (lit "7")
                     else if i =? 3 then Some (lit "[ENABLE] jmp game.exe+1A")
                     else None)) 13
  = Some [].
Proof.
  destruct (main_merge_outcome
              (Elem 0 (lit "CheatTable")
                 [Elem 1 CHEAT_TAG [Elem 2 ID_TAG []; Elem 3 ASM_TAG []]])
              (Elem 10 (lit "CheatTable")
                 [Elem 11 CHEAT_TAG [Elem 12 ID_TAG []; Elem 13 ASM_TAG []]])
              (fun i => if i =? 2 then Some (lit "7")
                        else if i =? 12 then Some (lit "7")
                        else if i =? 3 then Some (lit "[ENABLE] jmp game.exe+1A")
                        else None)) as [H _].
  - vm_compute. repeat constructor; simpl; intuition discriminate.
  - etransitivity; [apply (H (Elem 13 ASM_TAG [])); vm_compute; auto|].
    vm_compute. reflexivity.
Defined.

(** ** Escaping in the config table, both scripts *)

(** The line of an escaped token reads back as the token. *)
Lemma read_table_entry_escaped (k : nat) (tok : str) :
  no_line_break tok = true ->
  read_table_entry k (table_entry k tok) = Some tok.
Proof.
  intros H. unfold read_table_entry, table_entry.
  replace (lit "        dynamic" ++ str_of_nat k ++ lit " = "
             ++ [dquote] ++ lua_escape tok ++ [dquote])
    with ((lit "        dynamic" ++ str_of_nat k ++ lit " = " ++ [dquote])
            ++ lua_escape tok ++ [dquote])
    by (rewrite <- !app_assoc; reflexivity).
  rewrite startswith_app, skipn_length_app.
  change (lua_escape tok ++ [dquote]) with (lua_escape tok ++ dquote :: []).
  rewrite (short_body_lua_escape tok [] H). reflexivity.
Qed.

Lemma merge_script_safe_val_escapes (val : str) :
  MergeScript.safe_val val = quote_escape val.
Proof. unfold MergeScript.safe_val. rewrite replace_char. reflexivity. Qed.

Lemma merge_script_version_lines_nth (values : list str) :
  forall i j tok,
    nth_error values j = Some tok ->
    nth_error (MergeScript.version_lines i values) j = Some (quote_entry (i + j) tok).
Proof.
  induction values as [|v values IH]; intros i [|j] tok H; simpl in H;
    try discriminate.
  - inversion H; subst. cbn [MergeScript.version_lines nth_error].
    unfold quote_entry. rewrite merge_script_safe_val_escapes, Nat.add_0_r.
    reflexivity.
  - cbn [MergeScript.version_lines nth_error]. rewrite (IH (S i) j tok H).
    do 2 f_equal. lia.
Qed.

Lemma merge_script_version_lines_length (values : list str) :
  forall i, length (MergeScript.version_lines i values) = length values.
Proof. induction values as [|v values IH]; intros i; simpl; auto. Qed.

(** Without a backslash in the token the two escapings agree. *)
Lemma quote_escape_tame (tok : str) :
  forallb tame tok = true -> quote_escape tok = lua_escape tok.
Proof.
  induction tok as [|c tok IH]; intros H; [reflexivity|].
  cbn [forallb] in H. apply andb_true_iff in H. destruct H as [Hc H].
  unfold quote_escape, lua_escape in *. cbn [flat_map]. rewrite (IH H).
  unfold tame in Hc. apply andb_true_iff in Hc. destruct Hc as [Hb _].
  apply negb_true_iff in Hb. rewrite Hb. reflexivity.
Qed.

Lemma tame_no_line_break (tok : str) :
  forallb tame tok = true -> no_line_break tok = true.
Proof.
  unfold no_line_break. induction tok as [|c tok IH]; intros H; [reflexivity|].
  cbn [forallb] in *. apply andb_true_iff in H. destruct H as [Hc H].
  rewrite (IH H), andb_true_r.
  unfold tame in Hc. apply andb_true_iff in Hc. tauto.
Qed.

Lemma tame_to_lower (c : ascii) : tame (to_lower c) = tame c.
Proof. destruct c as [[] [] [] [] [] [] [] []]; reflexivity. Qed.

Lemma is_hex_tame (c : ascii) : is_hex c = true -> tame c = true.
Proof.
  destruct c as [[] [] [] [] [] [] [] []]; intros H; try reflexivity;
    vm_compute in H; discriminate.
Qed.

Lemma ci_startswith_tame (w : str) :
  forall u,
    forallb tame w = true ->
    length u = length w ->
    ci_startswith u w = true ->
    forallb tame u = true.
Proof.
  induction w as [|a w IH]; intros [|b u] Hw Hl Hs; simpl in Hl;
    try discriminate; [reflexivity|].
  cbn [forallb ci_startswith] in *.
  apply andb_true_iff in Hw. destruct Hw as [Ha Hw].
  apply andb_true_iff in Hs. destruct Hs as [Hab Hs].
  unfold ci_eqb in Hab. apply Ascii.eqb_eq in Hab.
  rewrite (IH u Hw) by (auto; lia). rewrite andb_true_r.
  rewrite <- tame_to_lower, <- Hab, tame_to_lower. exact Ha.
Qed.

Lemma matches_seq_inv (a b : regex) (w : str) :
  matches (Seq a b) w -> exists u v, w = u ++ v /\ matches a u /\ matches b v.
Proof. intros H; inversion H; subst; eauto. Qed.

Lemma matches_alt_inv (a b : regex) (w : str) :
  matches (Alt a b) w -> matches a w \/ matches b w.
Proof. intros H; inversion H; subst; auto. Qed.

(** A token of the pattern of [merge_script.py] holds neither a backslash
    nor a line break. *)
Lemma merge_script_token_tame (w : str) :
  matches MergeScript.dyn_pattern w -> forallb tame w = true.
Proof.
  unfold MergeScript.dyn_pattern. intros H.
  apply matches_seq_inv in H. destruct H as (hd & tl & -> & Hhd & Htl).
  apply matches_seq_inv in Htl. destruct Htl as (hex & colon & -> & Hhex & Hcolon).
  destruct (matches_plus_chr _ _ Hhex) as [_ Hh].
  rewrite !forallb_app. apply andb_true_iff. split; [|apply andb_true_iff; split].
  - apply matches_alt_inv in Hhd. destruct Hhd as [Hq|Hu].
    + destruct (matches_lit_ci _ _ Hq) as [Hl Hs].
      apply (ci_startswith_tame _ hd) in Hs; [exact Hs | reflexivity | exact Hl].
    + destruct (matches_lit_ci _ _ Hu) as [Hl Hs].
      apply (ci_startswith_tame _ hd) in Hs; [exact Hs | reflexivity | exact Hl].
  - clear -Hh. induction hex as [|c hex IH]; [reflexivity|].
    cbn [forallb] in *. apply andb_true_iff in Hh. destruct Hh as [Hc Hh].
    rewrite (is_hex_tame c Hc), (IH Hh). reflexivity.
  - destruct (matches_opt_chr _ _ Hcolon) as [->|(c & -> & Hc)]; [reflexivity|].
    unfold is_char in Hc. apply Ascii.eqb_eq in Hc. subst c. reflexivity.
Qed.

(** C9, amended.  For token lists of equal length the table of [merge.py]
    is made of two rows, row 1 for the tokens of version 1 and row 2 for
    those of version 2; the line of key [j] in a row holds the [j]-th
    token of that version, in the order of the list, between double quotes
    and with each backslash and each double quote of the token escaped by
    a backslash; and the line of a token without line break reads back in
    Lua as the token.  The table of [merge_script.py] has the same rows
    with the double quotes escaped only; for the tokens that its own
    pattern can match, which hold neither a backslash nor a line break,
    its lines are those of [merge.py] and read back as the token. *)
Theorem config_table_rows_escaped :
  forall (name : str) (tokens_v1 tokens_v2 : list str),
    length tokens_v1 = length tokens_v2 ->
    (exists row1 row2,
      build_lua_config_table name tokens_v1 tokens_v2
      = inr (lit "local " ++ name ++ lit " = {" ++ [nl]
               ++ lit "    [1] = " ++ table_row row1 ++ lit "," ++ [nl]
               ++ lit "    [2] = " ++ table_row row2 ++ [nl]
               ++ lit "}",
             length tokens_v1)
      /\ length row1 = length tokens_v1
      /\ length row2 = length tokens_v2
      /\ (forall j tok, nth_error tokens_v1 j = Some tok ->
            nth_error row1 j = Some (table_entry (S j) tok))
      /\ (forall j tok, nth_error tokens_v2 j = Some tok ->
            nth_error row2 j = Some (table_entry (S j) tok)))
    /\ (forall k tok, no_line_break tok = true ->
          read_table_entry k (table_entry k tok) = Some tok)
    /\ (exists row1 row2,
          MergeScript.build_lua_config_table name tokens_v1 tokens_v2
          = inr (lit "local " ++ name ++ lit " = {" ++ [nl]
                   ++ lit "    [1] = " ++ table_row row1 ++ lit "," ++ [nl]
                   ++ lit "    [2] = " ++ table_row row2 ++ [nl]
                   ++ lit "}",
                 length tokens_v1)
          /\ length row1 = length tokens_v1
          /\ length row2 = length tokens_v2
          /\ (forall j tok, nth_error tokens_v1 j = Some tok ->
                nth_error row1 j = Some (quote_entry (S j) tok))
          /\ (forall j tok, nth_error tokens_v2 j = Some tok ->
                nth_error row2 j = Some (quote_entry (S j) tok)))
    /\ (forall k tok, matches MergeScript.dyn_pattern tok ->
          quote_entry k tok = table_entry k tok
          /\ read_table_entry k (quote_entry k tok) = Some tok).
Proof.
  intros name l1 l2 Hlen. split; [|split; [|split]].
  - exists (version_lines 1 l1), (version_lines 1 l2).
    unfold build_lua_config_table. rewrite Hlen, Nat.eqb_refl. cbn [negb].
    rewrite !version_lines_length.
    repeat split; try reflexivity.
    + rewrite Hlen; reflexivity.
    + intros j tok H. apply (version_lines_nth l1 1 j tok H).
    + intros j tok H. apply (version_lines_nth l2 1 j tok H).
  - intros k tok H. apply read_table_entry_escaped. exact H.
  - exists (MergeScript.version_lines 1 l1), (MergeScript.version_lines 1 l2).
    unfold MergeScript.build_lua_config_table. rewrite Hlen, Nat.eqb_refl. cbn [negb].
    rewrite !merge_script_version_lines_length.
    repeat split; try reflexivity.
    + rewrite Hlen; reflexivity.
    + intros j tok H. apply (merge_script_version_lines_nth l1 1 j tok H).
    + intros j tok H. apply (merge_script_version_lines_nth l2 1 j tok H).
  - intros k tok Hm. pose proof (merge_script_token_tame tok Hm) as Ht.
    assert (E : quote_entry k tok = table_entry k tok)
      by (unfold quote_entry, table_entry; rewrite (quote_escape_tame tok Ht);
          reflexivity).
    split; [exact E|]. rewrite E.
    apply read_table_entry_escaped. apply tame_no_line_break. exact Ht.
Qed.

Lemma config_table_rows_escaped_witness :
  exists row1 row2,
    build_lua_config_table (lit "config_enable")
      [[dquote] ++ lit "Game.exe" ++ [dquote] ++ lit "+1A2B"]
      [lit "C:" ++ [backslash] ++ lit "Game.exe+FF00"]
    = inr (lit "local " ++ lit "config_enable" ++ lit " = {" ++ [nl]
             ++ lit "    [1] = " ++ table_row row1 ++ lit "," ++ [nl]
             ++ lit "    [2] = " ++ table_row row2 ++ [nl]
             ++ lit "}",
           1)
    /\ nth_error row1 0
       = Some (lit "        dynamic1 = " ++ [dquote; backslash; dquote]
                 ++ lit "Game.exe" ++ [backslash; dquote] ++ lit "+1A2B" ++ [dquote])
    /\ nth_error row2 0
       = Some (lit "        dynamic1 = " ++ [dquote] ++ lit "C:"
                 ++ [backslash; backslash] ++ lit "Game.exe+FF00" ++ [dquote]).
Proof.
  destruct (config_table_rows_escaped (lit "config_enable")
              [[dquote] ++ lit "Game.exe" ++ [dquote] ++ lit "+1A2B"]
              [lit "C:" ++ [backslash] ++ lit "Game.exe+FF00"] eq_refl)
    as [(row1 & row2 & Ht & _ & _ & H1 & H2) _].
  exists row1, row2. split; [exact Ht|]. split.
  - rewrite (H1 0 _ eq_refl). vm_compute. reflexivity.
  - rewrite (H2 0 _ eq_refl). vm_compute. reflexivity.
Defined.

(** C9 as stated fails on a token with a line break, which the quoted form
    of [DYN_PATTERN] matches: the line break is written into the table as
    it is and the literal does not read back.  In [merge_script.py] the
    function writes a backslash as it is, and such a line does not read
    back either. *)
Lemma config_table_rows_escaped_counterexample :
  snd (process_section
         (lit "jmp " ++ [dquote] ++ lit "My" ++ [nl] ++ lit "Game.exe" ++ [dquote]
            ++ lit "+1A") DYN_PATTERN)
  = [[dquote] ++ lit "My" ++ [nl] ++ lit "Game.exe" ++ [dquote] ++ lit "+1A"]
  /\ build_lua_config_table (lit "config_enable")
       [[dquote] ++ lit "My" ++ [nl] ++ lit "Game.exe" ++ [dquote] ++ lit "+1A"]
       [[dquote] ++ lit "My" ++ [nl] ++ lit "Game.exe" ++ [dquote] ++ lit "+1A"]
     = inr (lit "local config_enable = {" ++ [nl]
              ++ lit "    [1] = {" ++ [nl]
              ++ lit "        dynamic1 = " ++ [dquote; backslash; dquote]
              ++ lit "My" ++ [nl] ++ lit "Game.exe" ++ [backslash; dquote]
              ++ lit "+1A" ++ [dquote] ++ [nl]
              ++ lit "    }," ++ [nl]
              ++ lit "    [2] = {" ++ [nl]
              ++ lit "        dynamic1 = " ++ [dquote; backslash; dquote]
              ++ lit "My" ++ [nl] ++ lit "Game.exe" ++ [backslash; dquote]
              ++ lit "+1A" ++ [dquote] ++ [nl]
              ++ lit "    }" ++ [nl]
              ++ lit "}", 1)
  /\ read_table_entry 1
       (table_entry 1
          ([dquote] ++ lit "My" ++ [nl] ++ lit "Game.exe" ++ [dquote] ++ lit "+1A"))
     = None
  /\ MergeScript.build_lua_config_table (lit "config_enable")
       [lit "C:" ++ [backslash] ++ lit "Game.exe+FF00"]
       [lit "C:" ++ [backslash] ++ lit "Game.exe+FF00"]
     = inr (lit "local config_enable = {" ++ [nl]
              ++ lit "    [1] = {" ++ [nl]
              ++ lit "        dynamic1 = " ++ [dquote]
              ++ lit "C:" ++ [backslash] ++ lit "Game.exe+FF00" ++ [dquote] ++ [nl]
              ++ lit "    }," ++ [nl]
              ++ lit "    [2] = {" ++ [nl]
              ++ lit "        dynamic1 = " ++ [dquote]
              ++ lit "C:" ++ [backslash] ++ lit "Game.exe+FF00" ++ [dquote] ++ [nl]
              ++ lit "    }" ++ [nl]
              ++ lit "}", 1)
  /\ read_table_entry 1
       (quote_entry 1 (lit "C:" ++ [backslash] ++ lit "Game.exe+FF00"))
     = None.
Proof. repeat split; vm_compute; reflexivity. Qed.
